(** * ALP serial link adapter: frame codec and session state machine

    Shallow embedding of [alp_msg.py] (class [AlpFrame]) and [alp.py]
    (class [AlpPort]), with the properties of the specification stated
    over it.

    Conventions.
    - A Python [bytes] / [bytearray] value is a [list Z]; its elements are
      the integers Python yields on indexing.  Where a property needs them
      to be octets this is said with [is_bytes].
    - Python integers are [Z]; lengths and indices are [nat].  Every
      subtraction on indices below sits behind a guard of the source that
      keeps it non-negative, so truncated subtraction agrees with Python's.
    - A Python exception is [None] in the [option] monad, and [x ← e; k]
      sequences: the [IndexError] of a read [l[i]] or a store [l[i] = x]
      out of range, and the [KeyError] of [str.format] in
      [__log_discarded_msg].  The state an object is left in when a method
      raises is not modelled.  The codec is proved never to raise.
    - [time.time()] yields IEEE 754 doubles: times are [float], compared
      as the source compares them.  The clock is part of the state: a
      sequence of readings and the number of readings taken so far.
    - Logging is left out where it cannot raise.  [send_generic_alarm]
      and [DownlinkAlarm] rest on the constructor of [SNAPMsg], which is
      not among the sources, and are not embedded. *)

From Stdlib Require Import ZArith List Lia Bool String Ascii.
From Stdlib Require Import Floats Uint63.
From stdpp Require Import base option list.
Import ListNotations.

Local Open Scope nat_scope.

(** ** Python list primitives *)

(** [l[i] = x]: raises out of range. *)
Definition setitem (l : list Z) (i : nat) (x : Z) : option (list Z) :=
  if i <? length l then Some (<[i := x]> l) else None.

(** [l[i:j] = xs], a slice store: never raises, bounds are clamped. *)
Definition setslice (l : list Z) (i j : nat) (xs : list Z) : list Z :=
  take i l ++ xs ++ drop (Nat.max i j) l.

(** [len(range(start, stop, 2))]. *)
Definition range2_len (start stop : nat) : nat := (stop - start + 1) / 2.

(** Octets. *)
Definition is_byte (b : Z) : Prop := (0 <= b < 256)%Z.
Definition is_bytes (l : list Z) : Prop := Forall is_byte l.

(** ** alp_msg.py *)

Module AlpFrame.

Definition SOH : Z := 0x01.
Definition PI1 : Z := 0x41.
Definition PI2 : Z := 0x32.
Definition STX : Z := 0x02.
Definition ETX : Z := 0x03.

(** The loop [for i in range(4, flen - 5)] of [Checksum]. *)
Fixpoint Checksum_loop (n : nat) (frame : list Z) (i : nat)
    (chksum chkpar : Z) : option (Z * Z) :=
  match n with
  | O => Some (chksum, chkpar)
  | S n' =>
      b ← frame !! i;
      Checksum_loop n' frame (S i) (chksum + b)%Z (Z.lxor chkpar b)
  end.

(** [AlpFrame.Checksum]: [(chksum, chkpar)] of a raw frame, [(0, 0)] for
    a frame too short or without its STX or ETX marker. *)
Definition Checksum (frame : list Z) : option (Z * Z) :=
  let flen := length frame in
  if flen <? 10 then Some (0%Z, 0%Z) else
  stx ← frame !! 3;
  if negb (stx =? STX)%Z then Some (0%Z, 0%Z) else
  etx ← frame !! (flen - 5);
  if negb (etx =? ETX)%Z then Some (0%Z, 0%Z) else
  '(chksum, chkpar) ← Checksum_loop (flen - 5 - 4) frame 4 0%Z 0%Z;
  Some (Z.land chksum 0xff, chkpar).

(** [AlpFrame.Encode]. *)
Definition Encode (b : Z) : list Z :=
  let b := Z.land b 0xff in
  [(Z.shiftr b 4 + 0x30)%Z; (Z.land b 0x0f + 0x30)%Z].

(** [AlpFrame.Decode]. *)
Definition Decode (b0 b1 : Z) : option Z :=
  if ((b0 <? 0x30) || (0x3f <? b0) || (b1 <? 0x30) || (0x3f <? b1))%Z
  then None
  else Some (Z.lor (Z.shiftl (b0 - 0x30) 4) (b1 - 0x30)).

(** The [for i in range(offset, offset + need_len, 2)] loop of
    [EncodeData]; [n] counts the iterations left, [buffer] is the
    bytearray being filled in place. *)
Fixpoint EncodeData_loop (n : nat) (buffer data : list Z) (i j : nat)
    (chksum chkpar : Z) : option (list Z * Z * Z) :=
  match n with
  | O => Some (buffer, chksum, chkpar)
  | S n' =>
      d ← data !! j;
      let buffer := setslice buffer i (i + 2) (Encode d) in
      b0 ← buffer !! i;
      b1 ← buffer !! (i + 1);
      let chksum := (chksum + (b0 + b1))%Z in
      let chkpar := Z.lxor chkpar b0 in
      let chkpar := Z.lxor chkpar b1 in
      EncodeData_loop n' buffer data (i + 2) (j + 1) chksum chkpar
  end.

(** [AlpFrame.EncodeData]: the buffer after the call, and the returned
    pair [(chksum, chkpar)]. *)
Definition EncodeData (buffer : list Z) (offset : nat) (data : list Z)
    : option (list Z * Z * Z) :=
  let buf_len := length buffer in
  let need_len := length data * 2 in
  if (Z.of_nat buf_len - Z.of_nat offset <? Z.of_nat need_len)%Z
  then Some (buffer, 0%Z, 0%Z)
  else
    '(buffer, chksum, chkpar) ←
      EncodeData_loop (range2_len offset (offset + need_len)) buffer data
                      offset 0 0%Z 0%Z;
    Some (buffer, Z.land chksum 0xff, chkpar).

(** [AlpFrame.Write]. *)
Definition Write (snap_frame : list Z) : option (list Z) :=
  let fsize := 4 + length snap_frame * 2 + 5 in
  let frame := replicate fsize 0%Z in
  let frame := setslice frame 0 3 [0x01; 0x41; 0x32]%Z in
  frame ← setitem frame 3 STX;
  '(frame, fcs, fcp) ← EncodeData frame 4 snap_frame;
  frame ← setitem frame (fsize - 5) ETX;
  let frame := setslice frame (fsize - 4) (fsize - 2) (Encode fcs) in
  let frame := setslice frame (fsize - 2) fsize (Encode fcp) in
  Some frame.

(** The first loop of [Parse]: [for i in range(dlen - 9 + 1)], looking
    for the preamble; the result is the value of [start] after the loop. *)
Fixpoint find_start (n : nat) (data : list Z) (i dlen : nat) : option nat :=
  match n with
  | O => Some dlen
  | S n' =>
      d0 ← data !! i;
      if negb (d0 =? SOH)%Z then find_start n' data (S i) dlen else
      d1 ← data !! (i + 1);
      if negb (d1 =? PI1)%Z then find_start n' data (S i) dlen else
      d2 ← data !! (i + 2);
      if negb (d2 =? PI2)%Z then find_start n' data (S i) dlen else
      Some i
  end.

(** How the second loop of [Parse] is left: by the [return] on a pair
    that does not decode, or to the code after the loop (by [break] at ETX
    or by exhausting the range) with the locals as they then are. *)
Inductive scan_exit : Type :=
| ScanReturn (result : nat * bool * option (list Z))
| ScanDone (offset : nat) (chksum chkpar : Z) (snap_frame : list Z).

(** The second loop of [Parse]:
    [for i in range(offset, (dlen // 2) * 2 - 2, 2)]. *)
Fixpoint scan (n : nat) (data : list Z) (i j offset : nat)
    (chksum chkpar : Z) (snap_frame : list Z) : option scan_exit :=
  match n with
  | O => Some (ScanDone offset chksum chkpar snap_frame)
  | S n' =>
      d0 ← data !! i;
      if (d0 =? ETX)%Z
      then Some (ScanDone i (Z.land chksum 0xff) chkpar (take j snap_frame))
      else
        d1 ← data !! (i + 1);
        let chksum := (chksum + (d0 + d1))%Z in
        let chkpar := Z.lxor chkpar d0 in
        let chkpar := Z.lxor chkpar d1 in
        match Decode d0 d1 with
        | None => Some (ScanReturn (i, true, None))
        | Some b =>
            snap_frame ← setitem snap_frame j b;
            scan n' data (i + 2) (j + 1) offset chksum chkpar snap_frame
        end
  end.

(** The code of [Parse] after its second loop. *)
Definition Parse_tail (data : list Z) (dlen start : nat) (r : scan_exit)
    : option (nat * bool * option (list Z)) :=
  match r with
  | ScanReturn result => Some result
  | ScanDone offset chksum chkpar snap_frame =>
      e ← data !! offset;
      if negb (e =? ETX)%Z || (dlen - 5 <? offset) then Some (start, false, None)
      else
        c1 ← data !! (offset + 1);
        c2 ← data !! (offset + 2);
        c3 ← data !! (offset + 3);
        c4 ← data !! (offset + 4);
        match Decode c1 c2, Decode c3 c4 with
        | Some fcs, Some fcp =>
            if negb (fcs =? chksum)%Z || negb (fcp =? chkpar)%Z
            then Some (offset + 5, true, None)
            else Some (offset + 5, false, Some snap_frame)
        | _, _ => Some (offset, true, None)
        end
  end.

(** [AlpFrame.Parse]: [(consumed, nack, frame)]. *)
Definition Parse (data : list Z) : option (nat * bool * option (list Z)) :=
  let dlen := length data in
  if dlen <? 9 then Some (0, false, None) else
  start ← find_start (dlen - 9 + 1) data 0 dlen;
  if dlen - 9 <? start then Some (dlen, false, None) else
  stx ← data !! (start + 3);
  if negb (stx =? STX)%Z then Some (start + 4, true, None) else
  let snap_frame := replicate ((dlen - start - 4) / 2) 0%Z in
  let offset := start + 4 in
  r ← scan (range2_len offset ((dlen / 2) * 2 - 2)) data offset 0 offset
           0%Z 0%Z snap_frame;
  Parse_tail data dlen start r.

End AlpFrame.

(** ** snap_msg.py and alp_messages.py *)

(** Modelled from the spec: the [SNAPMsg] record of [snap_msg.py], which
    is not among the sources; the fields are those the specification's
    data model lists and [alp.py] reads.  Its parser and serializer stay
    abstract (section variables below). *)
Record SNAPMsg : Type := mkSNAPMsg {
  more : bool;
  message_counter : Z;
  service_class : Z;
  message_type : Z;
  system_id : Z;
  terminal_id : Z;
  loop_id : Z;
  event_time : Z;
  data : list Z;
  empty : bool
}.

Definition set_loop_id (v : Z) (m : SNAPMsg) : SNAPMsg :=
  mkSNAPMsg (m.(more)) (m.(message_counter)) (m.(service_class))
    (m.(message_type)) (m.(system_id)) (m.(terminal_id)) v (m.(event_time))
    (m.(data)) (m.(empty)).

Definition set_message_type (v : Z) (m : SNAPMsg) : SNAPMsg :=
  mkSNAPMsg (m.(more)) (m.(message_counter)) (m.(service_class)) v
    (m.(system_id)) (m.(terminal_id)) (m.(loop_id)) (m.(event_time))
    (m.(data)) (m.(empty)).

(** The code points of a Python [str] of ASCII characters. *)
Definition str_codes (s : string) : list Z :=
  map (fun a => Z.of_nat (nat_of_ascii a)) (list_ascii_of_string s).

(** [UplinkAlarm(...).data]: the mapping handed to the alarm sink.  The
    numeric fields are the integers the source renders with
    ["{}".format]; [ua_data] is the text, one code point per element. *)
Record UplinkAlarm : Type := mkUplinkAlarm {
  ua_more : string;
  ua_msgCounter : Z;
  ua_serviceClass : Z;
  ua_msgType : Z;
  ua_systemId : Z;
  ua_terminalId : Z;
  ua_loopId : Z;
  ua_eventTime : Z;
  ua_data : list Z
}.

Definition UplinkAlarm_data (snap_msg : SNAPMsg) : UplinkAlarm :=
  mkUplinkAlarm (if snap_msg.(more) then "1"%string else "0"%string)
    (snap_msg.(message_counter)) (snap_msg.(service_class))
    (snap_msg.(message_type)) (snap_msg.(system_id))
    (snap_msg.(terminal_id)) (snap_msg.(loop_id)) (snap_msg.(event_time))
    (snap_msg.(data)).

Definition set_ua_data (v : list Z) (u : UplinkAlarm) : UplinkAlarm :=
  mkUplinkAlarm (u.(ua_more)) (u.(ua_msgCounter)) (u.(ua_serviceClass))
    (u.(ua_msgType)) (u.(ua_systemId)) (u.(ua_terminalId)) (u.(ua_loopId))
    (u.(ua_eventTime)) v.

(** [str.replace('\r', '')]. *)
Definition strip_cr (text : list Z) : list Z :=
  filter (fun c => c <> 13%Z) text.

(** ** alp.py *)

Module Alp.

(** Control chars. *)
Definition ACK : list Z := [0x06%Z].
Definition NAK : list Z := [0x15%Z].
Definition ENQ : list Z := [0x05%Z].
Definition EOT : list Z := [0x04%Z].

Definition DIAGNOSTICS_INTERVAL : Z := 5.
Definition RESEND_LIMIT : Z := 10.
Definition RESEND_LIMIT_NAK : Z := 5.
Definition RX_BUFFER_MAX_LEN : nat := 1024.

Inductive SessionState : Type :=
| SESSION_IDLE
| SESSION_ACTIVE_MASTER
| SESSION_ACTIVE_CLIENT
| SESSION_FINISHED.

Inductive MessageState : Type :=
| MESSAGE_STATE_CREATED
| MESSAGE_STATE_SENT
| MESSAGE_STATE_ACKED
| MESSAGE_STATE_NACKED
| MESSAGE_STATE_NO_REPLY
| MESSAGE_STATE_SEND_FAILED.

(** What the port hands to the upstream sink. *)
Inductive Notification : Type :=
| FaultDetected (fault text : string)
| FaultOver (text : string)
| CloudAlarm (alarm : UplinkAlarm) (content : string).

(** The state of one [AlpPort] instance, with the part of the world it
    acts on: what it inherits from [PortBase], and the clock. *)
Record AlpPort : Type := mkAlpPort {
  (* PortBase: the serial port is open ([self.port] is truthy) *)
  port : bool;
  (* PortBase: the receive buffer *)
  rx_buffer : list Z;
  (* PortBase: the calls [self.write(buf, flush)], oldest first *)
  written : list (list Z * bool);
  (* PortBase: what went to the alarm sink, oldest first *)
  upstream : list Notification;
  (* the diagnostics timer is registered with the timer source *)
  diag_timer : bool;
  (* the readings [time.time()] yields, in order *)
  clock : nat -> float;
  (* how many of them have been taken *)
  clock_reads : nat;
  serial_snap_proto : string;
  message_counter : Z;
  session_state : SessionState;
  downlink_buffer : list Z;
  downlink_retransmit_count : Z;
  latest_downlink_event_time : float;
  latest_uplink_event_time : float;
  active_faults : list string;
  line_fault_over_msg_sent : bool
}.

(** Field updates ([self.f = v]). *)
Definition set_rx_buffer (v : list Z) (s : AlpPort) : AlpPort :=
  mkAlpPort (s.(port)) v (s.(written)) (s.(upstream)) (s.(diag_timer))
    (s.(clock)) (s.(clock_reads)) (s.(serial_snap_proto))
    (s.(message_counter)) (s.(session_state)) (s.(downlink_buffer))
    (s.(downlink_retransmit_count)) (s.(latest_downlink_event_time))
    (s.(latest_uplink_event_time)) (s.(active_faults))
    (s.(line_fault_over_msg_sent)).

Definition set_written (v : list (list Z * bool)) (s : AlpPort) : AlpPort :=
  mkAlpPort (s.(port)) (s.(rx_buffer)) v (s.(upstream)) (s.(diag_timer))
    (s.(clock)) (s.(clock_reads)) (s.(serial_snap_proto))
    (s.(message_counter)) (s.(session_state)) (s.(downlink_buffer))
    (s.(downlink_retransmit_count)) (s.(latest_downlink_event_time))
    (s.(latest_uplink_event_time)) (s.(active_faults))
    (s.(line_fault_over_msg_sent)).

Definition set_upstream (v : list Notification) (s : AlpPort) : AlpPort :=
  mkAlpPort (s.(port)) (s.(rx_buffer)) (s.(written)) v (s.(diag_timer))
    (s.(clock)) (s.(clock_reads)) (s.(serial_snap_proto))
    (s.(message_counter)) (s.(session_state)) (s.(downlink_buffer))
    (s.(downlink_retransmit_count)) (s.(latest_downlink_event_time))
    (s.(latest_uplink_event_time)) (s.(active_faults))
    (s.(line_fault_over_msg_sent)).

Definition set_diag_timer (v : bool) (s : AlpPort) : AlpPort :=
  mkAlpPort (s.(port)) (s.(rx_buffer)) (s.(written)) (s.(upstream)) v
    (s.(clock)) (s.(clock_reads)) (s.(serial_snap_proto))
    (s.(message_counter)) (s.(session_state)) (s.(downlink_buffer))
    (s.(downlink_retransmit_count)) (s.(latest_downlink_event_time))
    (s.(latest_uplink_event_time)) (s.(active_faults))
    (s.(line_fault_over_msg_sent)).

Definition set_clock_reads (v : nat) (s : AlpPort) : AlpPort :=
  mkAlpPort (s.(port)) (s.(rx_buffer)) (s.(written)) (s.(upstream))
    (s.(diag_timer)) (s.(clock)) v (s.(serial_snap_proto))
    (s.(message_counter)) (s.(session_state)) (s.(downlink_buffer))
    (s.(downlink_retransmit_count)) (s.(latest_downlink_event_time))
    (s.(latest_uplink_event_time)) (s.(active_faults))
    (s.(line_fault_over_msg_sent)).

Definition set_message_counter (v : Z) (s : AlpPort) : AlpPort :=
  mkAlpPort (s.(port)) (s.(rx_buffer)) (s.(written)) (s.(upstream))
    (s.(diag_timer)) (s.(clock)) (s.(clock_reads)) (s.(serial_snap_proto)) v
    (s.(session_state)) (s.(downlink_buffer))
    (s.(downlink_retransmit_count)) (s.(latest_downlink_event_time))
    (s.(latest_uplink_event_time)) (s.(active_faults))
    (s.(line_fault_over_msg_sent)).

Definition set_session_state (v : SessionState) (s : AlpPort) : AlpPort :=
  mkAlpPort (s.(port)) (s.(rx_buffer)) (s.(written)) (s.(upstream))
    (s.(diag_timer)) (s.(clock)) (s.(clock_reads)) (s.(serial_snap_proto))
    (s.(message_counter)) v (s.(downlink_buffer))
    (s.(downlink_retransmit_count)) (s.(latest_downlink_event_time))
    (s.(latest_uplink_event_time)) (s.(active_faults))
    (s.(line_fault_over_msg_sent)).

Definition set_downlink_buffer (v : list Z) (s : AlpPort) : AlpPort :=
  mkAlpPort (s.(port)) (s.(rx_buffer)) (s.(written)) (s.(upstream))
    (s.(diag_timer)) (s.(clock)) (s.(clock_reads)) (s.(serial_snap_proto))
    (s.(message_counter)) (s.(session_state)) v
    (s.(downlink_retransmit_count)) (s.(latest_downlink_event_time))
    (s.(latest_uplink_event_time)) (s.(active_faults))
    (s.(line_fault_over_msg_sent)).

Definition set_downlink_retransmit_count (v : Z) (s : AlpPort) : AlpPort :=
  mkAlpPort (s.(port)) (s.(rx_buffer)) (s.(written)) (s.(upstream))
    (s.(diag_timer)) (s.(clock)) (s.(clock_reads)) (s.(serial_snap_proto))
    (s.(message_counter)) (s.(session_state)) (s.(downlink_buffer)) v
    (s.(latest_downlink_event_time)) (s.(latest_uplink_event_time))
    (s.(active_faults)) (s.(line_fault_over_msg_sent)).

Definition set_latest_downlink_event_time (v : float) (s : AlpPort) : AlpPort :=
  mkAlpPort (s.(port)) (s.(rx_buffer)) (s.(written)) (s.(upstream))
    (s.(diag_timer)) (s.(clock)) (s.(clock_reads)) (s.(serial_snap_proto))
    (s.(message_counter)) (s.(session_state)) (s.(downlink_buffer))
    (s.(downlink_retransmit_count)) v (s.(latest_uplink_event_time))
    (s.(active_faults)) (s.(line_fault_over_msg_sent)).

Definition set_latest_uplink_event_time (v : float) (s : AlpPort) : AlpPort :=
  mkAlpPort (s.(port)) (s.(rx_buffer)) (s.(written)) (s.(upstream))
    (s.(diag_timer)) (s.(clock)) (s.(clock_reads)) (s.(serial_snap_proto))
    (s.(message_counter)) (s.(session_state)) (s.(downlink_buffer))
    (s.(downlink_retransmit_count)) (s.(latest_downlink_event_time)) v
    (s.(active_faults)) (s.(line_fault_over_msg_sent)).

Definition set_active_faults (v : list string) (s : AlpPort) : AlpPort :=
  mkAlpPort (s.(port)) (s.(rx_buffer)) (s.(written)) (s.(upstream))
    (s.(diag_timer)) (s.(clock)) (s.(clock_reads)) (s.(serial_snap_proto))
    (s.(message_counter)) (s.(session_state)) (s.(downlink_buffer))
    (s.(downlink_retransmit_count)) (s.(latest_downlink_event_time))
    (s.(latest_uplink_event_time)) v (s.(line_fault_over_msg_sent)).

Definition set_line_fault_over_msg_sent (v : bool) (s : AlpPort) : AlpPort :=
  mkAlpPort (s.(port)) (s.(rx_buffer)) (s.(written)) (s.(upstream))
    (s.(diag_timer)) (s.(clock)) (s.(clock_reads)) (s.(serial_snap_proto))
    (s.(message_counter)) (s.(session_state)) (s.(downlink_buffer))
    (s.(downlink_retransmit_count)) (s.(latest_downlink_event_time))
    (s.(latest_uplink_event_time)) (s.(active_faults)) v.

(** *** PortBase and the clock

    [PortBase] ([port_base.py]) is not among the sources.  The
    specification describes what [AlpPort] uses of it: the receive
    buffer with its two operations, the port as a byte sink, and the
    alarm sink as a one-way channel. *)

(** Modelled from the spec: [PortBase.consume_rx_buffer], "consume(n)
    drops the first n bytes". *)
Definition consume_rx_buffer (n : nat) (s : AlpPort) : AlpPort :=
  set_rx_buffer (drop n (s.(rx_buffer))) s.

(** Modelled from the spec: [PortBase.clear_rx_buffer], "clear the
    buffer". *)
Definition clear_rx_buffer (s : AlpPort) : AlpPort :=
  set_rx_buffer [] s.

(** Modelled from the spec: [PortBase.write], the port as a byte sink;
    the call is recorded with the buffer it is handed and its [flush]
    argument ([False] where the caller gives none). *)
Definition write (buf : list Z) (flush : bool) (s : AlpPort) : AlpPort :=
  set_written (s.(written) ++ [(buf, flush)]) s.

(** Modelled from the spec: the upstream alarm sink, "a one-way channel
    from this core"; a notification is recorded and nothing else
    changes. *)
Definition notify (n : Notification) (s : AlpPort) : AlpPort :=
  set_upstream (s.(upstream) ++ [n]) s.

(** Modelled from the spec: [PortBase.send_fault_detected], the
    fault-detected notification. *)
Definition send_fault_detected (fault text : string) (s : AlpPort) : AlpPort :=
  notify (FaultDetected fault text) s.

(** Modelled from the spec: [PortBase.send_fault_over], the fault-over
    notification. *)
Definition send_fault_over (text : string) (s : AlpPort) : AlpPort :=
  notify (FaultOver text) s.

(** Modelled from the spec: [PortBase.send_cloud_alarm], forwarding an
    [UplinkAlarm] record to the alarm sink. *)
Definition send_cloud_alarm (alarm : UplinkAlarm) (content : string)
    (s : AlpPort) : AlpPort :=
  notify (CloudAlarm alarm content) s.

(** Modelled from the spec: [PortBase.remove_source], the timer
    deregistering itself. *)
Definition remove_source (s : AlpPort) : AlpPort :=
  set_diag_timer false s.

(** [time.time()]: the next reading of the clock. *)
Definition time_time (s : AlpPort) : float * AlpPort :=
  (s.(clock) (s.(clock_reads)), set_clock_reads (S (s.(clock_reads))) s).

(** [x in l] and [l.remove(x)] on a Python list of strings. *)
Definition list_in (x : string) (l : list string) : bool :=
  existsb (String.eqb x) l.

Fixpoint list_remove (x : string) (l : list string) : list string :=
  match l with
  | [] => []
  | y :: r => if String.eqb x y then r else y :: list_remove x r
  end.

(** [AlpPort.__init__]; [opened] is the result of [self.open()]. *)
Definition init (clk : nat -> float) (opened : bool)
    (serial_snap_proto : string) : AlpPort :=
  let current_time := clk 0 in
  mkAlpPort opened [] [] [] opened clk 1 serial_snap_proto 0%Z SESSION_IDLE []
    0%Z current_time current_time [] false.

(** *** Session management *)

Definition session_is_active (s : AlpPort) : bool :=
  match s.(session_state) with
  | SESSION_IDLE | SESSION_FINISHED => false
  | _ => true
  end.

Definition session_begin (state : SessionState) (s : AlpPort) : AlpPort :=
  let s := set_session_state state s in
  set_downlink_buffer [] s.

Definition session_finish (s : AlpPort) : AlpPort :=
  let s := set_downlink_retransmit_count 0%Z s in
  let s := set_downlink_buffer [] s in
  set_session_state SESSION_FINISHED s.

(** *** Communication management *)

Definition transmit_control_char (char : list Z) (s : AlpPort) : AlpPort :=
  let s := if negb (session_is_active s)
           then session_begin SESSION_ACTIVE_MASTER s else s in
  let '(now, s) := time_time s in
  let s := set_latest_downlink_event_time now s in
  let s := set_downlink_buffer char s in
  write (s.(downlink_buffer)) true s.

Definition re_transmit (message_state : MessageState) (s : AlpPort) : AlpPort :=
  let resend_limit :=
    match message_state with
    | MESSAGE_STATE_NACKED => RESEND_LIMIT_NAK
    | _ => RESEND_LIMIT
    end in
  if (s.(downlink_retransmit_count) <? resend_limit)%Z then
    let s := set_downlink_retransmit_count (s.(downlink_retransmit_count) + 1)%Z s in
    let '(now, s) := time_time s in
    let s := set_latest_downlink_event_time now s in
    write (s.(downlink_buffer)) false s
  else if (s.(downlink_retransmit_count) =? resend_limit)%Z then
    let s := session_finish s in
    if negb (list_in "linefault" (s.(active_faults))) then
      let s := set_active_faults (s.(active_faults) ++ ["linefault"%string]) s in
      send_fault_detected "linefault"
        "No reply within retransmit count limit" s
    else s
  else s.

Definition send_ack : AlpPort -> AlpPort := transmit_control_char ACK.
Definition send_nak : AlpPort -> AlpPort := transmit_control_char NAK.
Definition send_enq : AlpPort -> AlpPort := transmit_control_char ENQ.
Definition send_eot : AlpPort -> AlpPort := transmit_control_char EOT.

(** [session_diagnostics]: the value returned to the timer source, and
    the state after the call. *)
Definition session_diagnostics (s : AlpPort) : bool * AlpPort :=
  if negb (s.(port)) then (false, remove_source s)
  else
    let '(current_time, s) := time_time s in
    let s :=
      if session_is_active s then
        if (4.5 <=? current_time - s.(latest_downlink_event_time))%float
        then re_transmit MESSAGE_STATE_NO_REPLY s
        else s
      else
        let s := set_session_state SESSION_IDLE s in
        if (19.5 <=? current_time - s.(latest_uplink_event_time))%float
        then send_enq s
        else s in
    (true, s).

(** *** Uplink handlers *)

(** [check_control_char]: [is_cchar], and the state after the call. *)
Definition check_control_char (data : list Z) (s : AlpPort) : bool * AlpPort :=
  let char := match data with [] => None | b :: _ => Some [b] end in
  if bool_decide (char = Some ACK) then (true, session_finish s)
  else if bool_decide (char = Some NAK) then (true, re_transmit MESSAGE_STATE_NACKED s)
  else if bool_decide (char = Some EOT) then (true, session_finish s)
  else if bool_decide (char = Some ENQ) then (true, session_finish (send_eot s))
  else (false, s).

(** [VERBOSE_DEBUG = True]. *)
Definition VERBOSE_DEBUG : bool := true.

(** [__log_discarded_msg].  Under [VERBOSE_DEBUG] it builds its message
    with [str.format] from a literal that holds, besides four fields
    [{}], the text [\{prodex,hhl\}]: the backslashes escape nothing, so
    [{prodex,hhl\}] is a replacement field named by a key for which no
    argument is given, and [format] raises [KeyError]. *)
Definition log_discarded_msg (msg : SNAPMsg) (s : AlpPort) : option AlpPort :=
  if VERBOSE_DEBUG then None else Some s.

(** How [on_message_hhl] leaves its chain of tests: with a [content] to
    forward, by the [return] of the heartbeat branch, or by the
    [__log_discarded_msg] and [return] of service classes 91, 92, 94. *)
Inductive Classified : Type :=
| Content (content : string)
| Return
| Discarded.

(** [on_message_hhl]: the chain of tests. *)
Definition hhl_content (msg : SNAPMsg) : Classified :=
  let loop_id := msg.(loop_id) in
  let within lo hi := ((lo <=? loop_id) && (loop_id <=? hi))%Z in
  if (msg.(service_class) =? 1)%Z then
    if (msg.(message_type) =? 1)%Z then
      if (loop_id =? 0)%Z then Content "Keskuksen linjahalytys"%string
      else if within 1%Z 512%Z then Content "Silmukka auki (halytys)"%string
      else if within 521%Z 552%Z then Content "Poliisipainike"%string
      else if within 561%Z 592%Z then Content "Kayttolaitteen kansi auki"%string
      else if (loop_id =? 600)%Z then Content "Keskus osavalvontatilaan"%string
      else if within 601%Z 632%Z then Content "Ryhma kytketty pois"%string
      else if (loop_id =? 680)%Z then Content "Keskuksen kuittaustieto"%string
      else if (loop_id =? 681)%Z then Content "Akkuhalytys"%string
      else if (loop_id =? 682)%Z then Content "Keskuksen kansi auki"%string
      else if (loop_id =? 683)%Z then Content "Vaara koodi syotetty"%string
      else if (loop_id =? 691)%Z then Content "Vajaatoiminta (paalle)"%string
      else if within 701%Z 956%Z then Content "Kayttaja sisaan"%string
      else if within 961%Z 992%Z then Content "Ryhma ohitus paalle"%string
      else Content "non-specified"%string
    else if (msg.(message_type) =? 2)%Z then
      if within 1%Z 512%Z then Content "Silmukan kansihalytys"%string
      else Content "non-specified"%string
    else if (msg.(message_type) =? 7)%Z then
      if within 1%Z 512%Z then Content "Silmukan ohitus paalle"%string
      else Content "non-specified"%string
    else if (msg.(message_type) =? 8)%Z then
      if within 1%Z 512%Z then Content "Silmukan ohitus pois"%string
      else Content "non-specified"%string
    else if (msg.(message_type) =? 9)%Z then
      if (loop_id =? 0)%Z then Content "Keskuksen linjahalytyksen lepotila"%string
      else if within 1%Z 512%Z then Content "Silmukka kiinni (lepo)"%string
      else if (loop_id =? 600)%Z then Content "Keskus taysvalvontatilaan"%string
      else if within 601%Z 632%Z then Content "Ryhma kytketty paalle"%string
      else if (loop_id =? 691)%Z then Content "Vajaatoiminta (pois)"%string
      else if within 701%Z 956%Z then Content "Kayttaja ulos"%string
      else if within 961%Z 992%Z then Content "Ryhma ohitus pois"%string
      else if (loop_id =? 2000)%Z then Return
      else Content "non-specified"%string
    else Content "non-specified"%string
  else if (msg.(service_class) =? 91)%Z then Discarded
  else if (msg.(service_class) =? 92)%Z then Discarded
  else if (msg.(service_class) =? 94)%Z then Discarded
  else Content "non-specified"%string.

(** [on_message_hhl]. *)
Definition on_message_hhl (msg : SNAPMsg) (s : AlpPort) : option AlpPort :=
  match hhl_content msg with
  | Return => Some s
  | Discarded => s ← log_discarded_msg msg s; Some s
  | Content content =>
      let data := UplinkAlarm_data msg in
      let data := set_ua_data (strip_cr (data.(ua_data))) data in
      Some (send_cloud_alarm data content s)
  end.

(** [on_message_prodex]: the rewritten message and its content, or
    [None] where the message is discarded. *)
Definition prodex_rewrite (msg : SNAPMsg) : option (SNAPMsg * string) :=
  let type_1_9 := ((msg.(message_type) =? 1) || (msg.(message_type) =? 9))%Z in
  let retype new msg :=
    if (message_type msg =? 1)%Z then set_message_type new msg else msg in
  if (msg.(system_id) =? 680)%Z && (msg.(service_class) =? 10)%Z && type_1_9 then
    Some (set_loop_id 1 msg, "Palohalytys (ryhma)"%string)
  else if (msg.(system_id) =? 681)%Z && (msg.(service_class) =? 11)%Z && type_1_9 then
    Some (retype 8%Z (set_loop_id 3 msg), "Ennakkohalytys (ryhma)"%string)
  else if (msg.(system_id) =? 688)%Z && (msg.(service_class) =? 1)%Z && type_1_9 then
    Some (retype 3%Z (set_loop_id 0 msg), "Keskuksen linjahalytys"%string)
  else if (msg.(system_id) =? 689)%Z && (msg.(service_class) =? 1)%Z && type_1_9 then
    Some (set_loop_id 1 msg, "Palohalytys"%string)
  else None.

(** [on_message_prodex]. *)
Definition on_message_prodex (msg : SNAPMsg) (s : AlpPort) : option AlpPort :=
  match prodex_rewrite msg with
  | None => s ← log_discarded_msg msg s; Some s
  | Some (msg, content) =>
      let data := UplinkAlarm_data msg in
      let data :=
        set_ua_data (str_codes content ++ str_codes ": " ++ data.(ua_data)) data in
      let data := set_ua_data (strip_cr (data.(ua_data))) data in
      Some (send_cloud_alarm data content s)
  end.

(** The choice of handler by [serial_snap_proto] in [on_receive]; any
    other protocol name is only logged. *)
Definition dispatch (msg : SNAPMsg) (s : AlpPort) : option AlpPort :=
  if String.eqb (s.(serial_snap_proto)) "hhl" then on_message_hhl msg s
  else if String.eqb (s.(serial_snap_proto)) "prodex" then on_message_prodex msg s
  else Some s.

Section SNAP.

(** [SNAPMsg.Parse] and [SNAPMsg.write] of [snap_msg.py], which is not
    among the sources. *)
Variable SNAPMsg_Parse : list Z -> SNAPMsg.
Variable SNAPMsg_write : SNAPMsg -> list Z.

(** [transmit]. *)
Definition transmit (snap_msg : SNAPMsg) (s : AlpPort) : option AlpPort :=
  if negb (s.(port)) then Some s
  else
    let s := if negb (session_is_active s)
             then session_begin SESSION_ACTIVE_MASTER s else s in
    frame ← AlpFrame.Write (SNAPMsg_write snap_msg);
    let s := set_downlink_buffer frame s in
    let '(now, s) := time_time s in
    let s := set_latest_downlink_event_time now s in
    let s := write (s.(downlink_buffer)) false s in
    Some (set_message_counter (s.(message_counter) + 1)%Z s).

(** One turn of the [while] loop of [on_receive]: the state, and the
    locals [data], [consumed] and [valid_msg_parsed] after it. *)
Definition on_receive_iter (s : AlpPort) (data : list Z) (valid_msg_parsed : bool)
    : option (AlpPort * list Z * nat * bool) :=
  let '(is_cchar, s) := check_control_char data s in
  '(consumed, nack, snap_frame, valid_msg_parsed) ←
    (if is_cchar then Some (1, false, None, true)
     else '(consumed, nack, snap_frame) ← AlpFrame.Parse data;
          Some (consumed, nack, snap_frame, valid_msg_parsed));
  let '(s, data) :=
    if negb (consumed =? 0)
    then let s := consume_rx_buffer consumed s in (s, s.(rx_buffer))
    else (s, data) in
  '(s, valid_msg_parsed) ←
    (if nack : bool then Some (send_nak s, valid_msg_parsed)
     else
       match snap_frame with
       | None | Some [] =>
           if (consumed =? 0) && (RX_BUFFER_MAX_LEN <=? length data)
           then Some (session_finish (send_nak (clear_rx_buffer s)),
                      valid_msg_parsed)
           else Some (s, valid_msg_parsed)
       | Some snap_frame =>
           let s := if negb (session_is_active s)
                    then session_begin SESSION_ACTIVE_CLIENT s else s in
           let msg := SNAPMsg_Parse snap_frame in
           '(s, valid_msg_parsed) ←
             (if negb (msg.(empty)) then
                s ← dispatch msg s; Some (s, true)
              else Some (s, valid_msg_parsed));
           Some (send_ack s, valid_msg_parsed)
       end);
  Some (s, data, consumed, valid_msg_parsed).

(** The loop [while consumed and len(data)]; [fuel] bounds the turns. *)
Fixpoint on_receive_loop (fuel : nat) (s : AlpPort) (data : list Z)
    (consumed : nat) (valid_msg_parsed : bool) {struct fuel}
    : option (AlpPort * list Z * bool) :=
  if negb (consumed =? 0) && negb (length data =? 0) then
    match fuel with
    | O => None
    | S fuel' =>
        '(s, data, consumed, valid_msg_parsed) ←
          on_receive_iter s data valid_msg_parsed;
        on_receive_loop fuel' s data consumed valid_msg_parsed
    end
  else Some (s, data, valid_msg_parsed).

(** The code of [on_receive] after the loop. *)
Definition on_receive_end (s : AlpPort) (data : list Z) (valid_msg_parsed : bool)
    : AlpPort :=
  let s := if length data =? 0 then session_finish s else s in
  if valid_msg_parsed then
    let '(now, s) := time_time s in
    let s := set_latest_uplink_event_time now s in
    if list_in "linefault" (s.(active_faults)) || negb (s.(line_fault_over_msg_sent))
    then
      let s := if list_in "linefault" (s.(active_faults))
               then set_active_faults
                      (list_remove "linefault" (s.(active_faults))) s
               else s in
      let s := if negb (s.(line_fault_over_msg_sent))
               then set_line_fault_over_msg_sent true s else s in
      send_fault_over "linefault over" s
    else s
  else s.

(** [on_receive].  Every turn of the loop but the last consumes from the
    receive buffer, so one more than its length is fuel enough. *)
Definition on_receive (data : list Z) (s : AlpPort) : option AlpPort :=
  '(s, data, valid_msg_parsed) ←
    on_receive_loop (S (length (s.(rx_buffer)))) s data 1 false;
  Some (on_receive_end s data valid_msg_parsed).

(** Modelled from the spec: the caller of [on_receive] in [PortBase],
    which is not among the sources: the chunk read from the port is
    appended to the receive buffer, and [on_receive] is handed the buffer. *)
Definition receive (chunk : list Z) (s : AlpPort) : option AlpPort :=
  let s := set_rx_buffer (s.(rx_buffer) ++ chunk) s in
  on_receive (s.(rx_buffer)) s.

End SNAP.

End Alp.

(** ** Reference view of the wire format

    What [Write] lays out, said directly: the four header bytes, the
    nibble pairs of the payload, ETX, and the two encoded check bytes.
    [sum_enc] and [xor_enc] are the running checksum and parity as both
    [EncodeData] and [Parse] accumulate them, pair by pair. *)

Definition header : list Z :=
  [AlpFrame.SOH; AlpFrame.PI1; AlpFrame.PI2; AlpFrame.STX].

Fixpoint sum_enc (p : list Z) (acc : Z) : Z :=
  match p with
  | [] => acc
  | d :: r =>
      match AlpFrame.Encode d with
      | [b0; b1] => sum_enc r (acc + (b0 + b1))%Z
      | _ => acc
      end
  end.

Fixpoint xor_enc (p : list Z) (acc : Z) : Z :=
  match p with
  | [] => acc
  | d :: r =>
      match AlpFrame.Encode d with
      | [b0; b1] => xor_enc r (Z.lxor (Z.lxor acc b0) b1)
      | _ => acc
      end
  end.

Definition wire (p : list Z) : list Z :=
  header ++ flat_map AlpFrame.Encode p ++ [AlpFrame.ETX]
    ++ AlpFrame.Encode (Z.land (sum_enc p 0) 0xff)
    ++ AlpFrame.Encode (xor_enc p 0).

(** A nibble byte, 0x30..0x3F. *)
Definition is_nibble (c : Z) : Prop := (0x30 <= c <= 0x3f)%Z.

(** Bit [k] of a wire byte flipped. *)
Definition flip_bit (c : Z) (k : nat) : Z := Z.lxor c (Z.shiftl 1 (Z.of_nat k)).

(** Offset of ETX in the frame written for [p]. *)
Definition etx_offset (p : list Z) : nat := 4 + 2 * length p.

(** The check bytes [Parse] reads behind an ETX at offset [pos] and
    decodes (lines 155-156): [None] when one of the two pairs does not
    decode. *)
Definition check_after (data : list Z) (pos : nat) : option (Z * Z) :=
  c1 ← data !! (pos + 1); c2 ← data !! (pos + 2);
  c3 ← data !! (pos + 3); c4 ← data !! (pos + 4);
  fcs ← AlpFrame.Decode c1 c2; fcp ← AlpFrame.Decode c3 c4;
  Some (fcs, fcp).

(** The outcomes of [Parse], by the [return] taken:
    too little data; no preamble (all consumed as garbage); a NAK, which
    consumes at least the four header bytes; a frame still incomplete,
    kept from its preamble on; a frame. *)
Inductive Parse_outcome (data : list Z) : nat * bool * option (list Z) -> Prop :=
| PO_short :
    length data < 9 -> Parse_outcome data (0, false, None)
| PO_garbage :
    9 <= length data -> Parse_outcome data (length data, false, None)
| PO_nack c :
    4 <= c <= length data -> Parse_outcome data (c, true, None)
| PO_partial start :
    start + 9 <= length data ->
    data !! start = Some AlpFrame.SOH ->
    data !! (start + 1) = Some AlpFrame.PI1 ->
    data !! (start + 2) = Some AlpFrame.PI2 ->
    data !! (start + 3) = Some AlpFrame.STX ->
    Parse_outcome data (start, false, None)
| PO_frame start f :
    start + 9 + 2 * length f <= length data ->
    Parse_outcome data (start + 9 + 2 * length f, false, Some f).

(** One parse attempt by a caller that drops what [Parse] consumed, and
    [n] such attempts in a row. *)
Definition parse_drop (b : list Z) : list Z :=
  match AlpFrame.Parse b with
  | Some (consumed, _, _) => drop consumed b
  | None => b
  end.

Fixpoint drain (n : nat) (b : list Z) : list Z :=
  match n with
  | O => b
  | S n' => drain n' (parse_drop b)
  end.

(** A chunk appended to what is left in the buffer, then parse attempts
    for as long as they can consume anything: each consumes at least one
    byte or none at all, so [length] of the buffer bounds them. *)
Definition feed (buf chunk : list Z) : list Z :=
  drain (length (buf ++ chunk)) (buf ++ chunk).

(** ** Notions used to state the session properties *)

(** One timer tick: [session_diagnostics] called by the timer source;
    [ticks n] is [n] ticks with nothing received or sent in between. *)
Definition tick (s : Alp.AlpPort) : Alp.AlpPort := snd (Alp.session_diagnostics s).

Fixpoint ticks (n : nat) (s : Alp.AlpPort) : Alp.AlpPort :=
  match n with
  | O => s
  | S n' => ticks n' (tick s)
  end.

(** The tick about to happen in [s] comes at least 4.5 s after the latest
    downlink event: the comparison [session_diagnostics] makes, on the
    clock reading it will take. *)
Definition due (s : Alp.AlpPort) : bool :=
  (4.5 <=? s.(Alp.clock) (s.(Alp.clock_reads))
           - s.(Alp.latest_downlink_event_time))%float.

(** So do the next [n] ticks, each in the state the one before left. *)
Fixpoint all_due (n : nat) (s : Alp.AlpPort) : bool :=
  match n with
  | O => true
  | S n' => due s && all_due n' (tick s)
  end.

Definition linefault : string := "linefault".

Definition fault_detected : Alp.Notification :=
  Alp.FaultDetected "linefault" "No reply within retransmit count limit".

Definition is_fault_over (n : Alp.Notification) : bool :=
  match n with Alp.FaultOver _ => true | _ => false end.

(** How many fault-over notifications went upstream. *)
Definition fault_overs (s : Alp.AlpPort) : nat :=
  length (filter (fun n => is_fault_over n = true) (s.(Alp.upstream))).

(** [active_faults] holds the tag "linefault" at most once: true of a new
    port and kept by every operation, since the only [append] is guarded
    by [not in]. *)
Definition linefault_once (s : Alp.AlpPort) : Prop :=
  Alp.list_in linefault (Alp.list_remove linefault (s.(Alp.active_faults))) = false.

(** What the receive loop leaves alone: the one-shot flag, the uplink
    timestamp and the count of fault-over notifications stay as they are,
    "linefault" stays at most once in [active_faults], and is not removed. *)
Definition loop_frame (s s' : Alp.AlpPort) : Prop :=
  s'.(Alp.line_fault_over_msg_sent) = s.(Alp.line_fault_over_msg_sent)
  /\ s'.(Alp.latest_uplink_event_time) = s.(Alp.latest_uplink_event_time)
  /\ fault_overs s' = fault_overs s
  /\ (linefault_once s -> linefault_once s')
  /\ (Alp.list_in linefault (s.(Alp.active_faults)) = true ->
      Alp.list_in linefault (s'.(Alp.active_faults)) = true).

(** The retransmit limit for a cause, as [re_transmit] picks it. *)
Definition resend_limit (cause : Alp.MessageState) : Z :=
  match cause with
  | Alp.MESSAGE_STATE_NACKED => Alp.RESEND_LIMIT_NAK
  | _ => Alp.RESEND_LIMIT
  end.

(** *** A concrete port for the scenarios

    The SNAP codec is outside the sources; the scenarios run with a
    stand-in that carries the payload as the message data.  The clock
    advances 5 s from one reading to the next. *)
Definition demo_SNAPMsg_Parse (frame : list Z) : SNAPMsg :=
  mkSNAPMsg false 0 1 1 1 1 7 0 frame (length frame =? 0).

(** A stand-in parser whose messages are of service class 91, which
    the hhl handler logs as discarded. *)
Definition demo_discarded_Parse (frame : list Z) : SNAPMsg :=
  mkSNAPMsg false 0 91 1 1 1 7 0 frame (length frame =? 0).

Definition demo_SNAPMsg_write (m : SNAPMsg) : list Z := m.(data).

Definition demo_clock (n : nat) : float :=
  (5 * PrimFloat.of_uint63 (Uint63.of_Z (Z.of_nat n)))%float.

Definition demo_msg : SNAPMsg := mkSNAPMsg false 1 1 1 1 1 0 0 [0x01%Z] false.

(** A receive buffer of 1024 bytes holding the start of a frame whose
    ETX has not arrived. *)
Definition demo_overrun : list Z := header ++ replicate 1020 0x30%Z.

(** A new, open port, and the port after one [transmit]. *)
Definition demo_port : Alp.AlpPort := Alp.init demo_clock true "hhl".

Definition demo_sent : Alp.AlpPort :=
  default demo_port (Alp.transmit demo_SNAPMsg_write demo_msg demo_port).

(** ** Checks decided by enumeration, and proof tactics *)

(** The 256 octets. *)
Definition all_bytes : list Z := map Z.of_nat (seq 0 256).

(** [is_nibble], decided. *)
Definition nibble_ok (c : Z) : bool := ((0x30 <=? c) && (c <=? 0x3f))%Z.

(** One step of the parity fold keeps an octet an octet. *)
Definition xor_step_ok (acc b : Z) : bool :=
  match AlpFrame.Encode b with
  | [h; l] => let r := Z.lxor (Z.lxor acc h) l in ((0 <=? r) && (r <? 256))%Z
  | _ => false
  end.

(** What a single flipped bit does to the nibble pair of a check byte: a
    low bit (0..3) leaves a pair that decodes to another value, a high
    bit (4..7) leaves a pair that does not decode. *)
Definition flip_pair_ok (b : Z) (k : nat) : bool :=
  match AlpFrame.Encode b with
  | [h; l] =>
      let lohi := AlpFrame.Decode (flip_bit h k) l in
      let lolo := AlpFrame.Decode h (flip_bit l k) in
      if k <? 4
      then match lohi, lolo with
           | Some v, Some w => negb (v =? b)%Z && negb (w =? b)%Z
           | _, _ => false
           end
      else match lohi, lolo with
           | None, None => true
           | _, _ => false
           end
  | _ => false
  end.

(** How the second loop can end, given room for its reads and stores. *)
Definition scan_post (n : nat) (data : list Z) (i j off : nat)
    (r : AlpFrame.scan_exit) : Prop :=
  match r with
  | AlpFrame.ScanReturn (c, nack, fr) =>
      i <= c /\ c + 2 <= i + 2 * n /\ nack = true /\ fr = None
  | AlpFrame.ScanDone off' _ _ sf' =>
      (off' = off /\ (n = 0 \/ exists d, data !! i = Some d /\ d <> AlpFrame.ETX))
      \/ (data !! off' = Some AlpFrame.ETX
          /\ exists k, k < n /\ off' = i + 2 * k /\ length sf' = j + k)
  end.

(** Case analysis on every test a state transformer makes, then the
    fields read off the constructor. *)
Ltac by_cases :=
  repeat match goal with
         | |- context [if ?c then _ else _] => destruct c eqn:?
         end;
  try done.

(** Projections of updated states. *)
Ltac state_simpl :=
  cbn [Alp.port Alp.rx_buffer Alp.written Alp.upstream Alp.diag_timer
       Alp.clock Alp.clock_reads Alp.serial_snap_proto Alp.message_counter
       Alp.session_state Alp.downlink_buffer Alp.downlink_retransmit_count
       Alp.latest_downlink_event_time Alp.latest_uplink_event_time
       Alp.active_faults Alp.line_fault_over_msg_sent
       Alp.set_rx_buffer Alp.set_written Alp.set_upstream Alp.set_diag_timer
       Alp.set_clock_reads Alp.set_message_counter Alp.set_session_state
       Alp.set_downlink_buffer Alp.set_downlink_retransmit_count
       Alp.set_latest_downlink_event_time Alp.set_latest_uplink_event_time
       Alp.set_active_faults Alp.set_line_fault_over_msg_sent
       Alp.session_finish Alp.send_fault_over Alp.notify
       orb negb fst snd] in *.

(** Case analysis on every integer comparison of the goal. *)
Ltac z_cases :=
  repeat (match goal with
          | |- context [(?a =? ?b)%Z] => destruct (Z.eqb_spec a b); try lia
          | |- context [(?a <=? ?b)%Z] => destruct (Z.leb_spec a b); try lia
          end; cbn [andb orb negb]).

(** ** Notions used by the further properties *)

(** Line noise in which no frame can start: no SOH byte. *)
Definition no_SOH (g : list Z) : Prop := Forall (fun b => b <> AlpFrame.SOH) g.

(** The preamble SOH 'A' '2' stands at offset [i] of [data]. *)
Definition preamble_at (data : list Z) (i : nat) : Prop :=
  data !! i = Some AlpFrame.SOH
  /\ data !! (i + 1) = Some AlpFrame.PI1
  /\ data !! (i + 2) = Some AlpFrame.PI2.

(** [n] parse attempts in a row by a caller that drops what each one
    consumed: the frames returned, oldest first, and what is left of the
    buffer. *)
Fixpoint parse_frames (n : nat) (b : list Z) : list (list Z) * list Z :=
  match n with
  | O => ([], b)
  | S n' =>
      match AlpFrame.Parse b with
      | Some (consumed, _, frame) =>
          let '(fs, rest) := parse_frames n' (drop consumed b) in
          (match frame with Some f => f :: fs | None => fs end, rest)
      | None => ([], b)
      end
  end.

(** A pair of nibble bytes decodes to an octet that encodes back to it. *)
Definition decode_pair_ok (h l : Z) : bool :=
  implb (nibble_ok h && nibble_ok l)
    match AlpFrame.Decode h l with
    | Some v =>
        ((0 <=? v) && (v <? 256))%Z
        && match AlpFrame.Encode v with
           | [a; b] => ((a =? h) && (b =? l))%Z
           | _ => false
           end
    | None => false
    end.

(** The next tick comes at least 19.5 s after the latest uplink event:
    the comparison [session_diagnostics] makes for an inactive session,
    on the clock reading it will take. *)
Definition enq_due (s : Alp.AlpPort) : bool :=
  (19.5 <=? s.(Alp.clock) (s.(Alp.clock_reads))
            - s.(Alp.latest_uplink_event_time))%float.



Definition is_cloud_alarm (n : Alp.Notification) : bool :=
  match n with Alp.CloudAlarm _ _ => true | _ => false end.



(** The first byte of a buffer is one of the four control bytes. *)
Definition starts_with_control (data : list Z) : bool :=
  match data with
  | [] => false
  | b :: _ => ((b =? 0x06) || (b =? 0x15) || (b =? 0x04) || (b =? 0x05))%Z
  end.

(** The hhl messages that are discarded with a log entry: service
    classes 91, 92 and 94. *)
Definition hhl_raises (msg : SNAPMsg) : bool :=
  ((msg.(service_class) =? 91) || (msg.(service_class) =? 92)
   || (msg.(service_class) =? 94))%Z.

(** The hhl heartbeat: service class 1, type 9, loop 2000. *)
Definition hhl_heartbeat (msg : SNAPMsg) : bool :=
  ((msg.(service_class) =? 1) && (msg.(message_type) =? 9)
   && (msg.(loop_id) =? 2000))%Z.

(** The prodex messages that are forwarded: alarm on (1) or off (9) from
    one of four pairs of system id and service class. *)
Definition prodex_forwards (msg : SNAPMsg) : bool :=
  (((msg.(message_type) =? 1) || (msg.(message_type) =? 9))
   && (((msg.(system_id) =? 680) && (msg.(service_class) =? 10))
       || ((msg.(system_id) =? 681) && (msg.(service_class) =? 11))
       || ((msg.(system_id) =? 688) && (msg.(service_class) =? 1))
       || ((msg.(system_id) =? 689) && (msg.(service_class) =? 1))))%Z.

(** The messages whose handler calls [__log_discarded_msg], by protocol:
    for hhl service classes 91, 92, 94; for prodex every message that is
    not forwarded; for any other protocol name none. *)
Definition dispatch_raises (proto : string) (msg : SNAPMsg) : bool :=
  if String.eqb proto "hhl" then hhl_raises msg
  else if String.eqb proto "prodex" then negb (prodex_forwards msg)
  else false.

(** The receive loop gets past a payload: the SNAP parser finds the
    message empty, or the handler of the protocol does not log it as
    discarded. *)
Definition message_handled (p : list Z -> SNAPMsg) (proto : string)
    (payload : list Z) : bool :=
  (p payload).(empty) || negb (dispatch_raises proto (p payload)).

(** A parse result that carries a SNAP message: no NAK, a payload that
    is not empty, and a message the SNAP parser does not find empty. *)
Definition frame_is_message (p : list Z -> SNAPMsg) (nack : bool)
    (fr : option (list Z)) : bool :=
  match nack, fr with
  | false, Some (b :: f) => negb ((p (b :: f)).(empty))
  | _, _ => false
  end.

(** A valid uplink in a receive buffer, as the receive loop finds one
    going through the buffer: a control byte at the head; or a frame at
    the head (behind bytes [Parse] skips) whose payload is not empty and
    is a SNAP message that is not empty; or either of them in what is left
    once [Parse] has consumed something from the head. *)
Inductive uplink_seen (p : list Z -> SNAPMsg) : list Z -> Prop :=
| seen_control data :
    starts_with_control data = true -> uplink_seen p data
| seen_message data c b f :
    starts_with_control data = false ->
    AlpFrame.Parse data = Some (c, false, Some (b :: f)) ->
    (p (b :: f)).(empty) = false ->
    uplink_seen p data
| seen_later data c nack fr :
    starts_with_control data = false ->
    AlpFrame.Parse data = Some (c, nack, fr) -> c <> 0 ->
    uplink_seen p (drop c data) ->
    uplink_seen p data.

(** The receive loop, going through a buffer, comes to a message that
    the handler of the protocol logs as discarded: a frame at the head
    (behind bytes [Parse] skips) whose payload is not empty and is such a
    message, not empty; or one in what is left behind a control byte at
    the head, or behind what [Parse] has consumed from the head. *)
Inductive raise_reached (p : list Z -> SNAPMsg) (proto : string) :
    list Z -> Prop :=
| raise_here data c b f :
    starts_with_control data = false ->
    AlpFrame.Parse data = Some (c, false, Some (b :: f)) ->
    (p (b :: f)).(empty) = false ->
    dispatch_raises proto (p (b :: f)) = true ->
    raise_reached p proto data
| raise_after_control data :
    starts_with_control data = true ->
    raise_reached p proto (drop 1 data) ->
    raise_reached p proto data
| raise_later data c nack fr :
    starts_with_control data = false ->
    AlpFrame.Parse data = Some (c, nack, fr) -> c <> 0 ->
    raise_reached p proto (drop c data) ->
    raise_reached p proto data.

(** * Properties of the codec *)

(** ** The codec scenarios of the specification *)

(** 1. Minimal valid frame. *)
Example Write_empty :
  AlpFrame.Write [] = Some [0x01; 0x41; 0x32; 0x02; 0x03; 0x30; 0x30; 0x30; 0x30]%Z.
Proof. reflexivity. Qed.

Example Parse_empty :
  AlpFrame.Parse [0x01; 0x41; 0x32; 0x02; 0x03; 0x30; 0x30; 0x30; 0x30]%Z
  = Some (9, false, Some []).
Proof. reflexivity. Qed.

(** 2. Single-byte payload. *)
Example Write_one :
  AlpFrame.Write [0x01%Z]
  = Some [0x01; 0x41; 0x32; 0x02; 0x30; 0x31; 0x03; 0x36; 0x31; 0x30; 0x31]%Z.
Proof. reflexivity. Qed.

Example Parse_one :
  AlpFrame.Parse [0x01; 0x41; 0x32; 0x02; 0x30; 0x31; 0x03; 0x36; 0x31; 0x30; 0x31]%Z
  = Some (11, false, Some [0x01%Z]).
Proof. reflexivity. Qed.

(** 3. Garbage before a frame: "abcdefgh", then the minimal frame. *)
Example Parse_after_garbage :
  AlpFrame.Parse ([0x61; 0x62; 0x63; 0x64; 0x65; 0x66; 0x67; 0x68]
                    ++ [0x01; 0x41; 0x32; 0x02; 0x03; 0x30; 0x30; 0x30; 0x30])%Z
  = Some (17, false, Some []).
Proof. reflexivity. Qed.

(** 4. Two frames in one buffer, by two calls. *)
Example Parse_two_frames :
  AlpFrame.Parse ([0x01; 0x41; 0x32; 0x02; 0x03; 0x30; 0x30; 0x30; 0x30]
                    ++ [0x01; 0x41; 0x32; 0x02; 0x03; 0x30; 0x30; 0x30; 0x30])%Z
  = Some (9, false, Some [])
  /\ AlpFrame.Parse
       (drop 9 ([0x01; 0x41; 0x32; 0x02; 0x03; 0x30; 0x30; 0x30; 0x30]
                  ++ [0x01; 0x41; 0x32; 0x02; 0x03; 0x30; 0x30; 0x30; 0x30])%Z)
     = Some (9, false, Some []).
Proof. split; reflexivity. Qed.

(** 5. Bad checksum: the last byte of the minimal frame incremented. *)
Example Parse_bad_checksum :
  AlpFrame.Parse [0x01; 0x41; 0x32; 0x02; 0x03; 0x30; 0x30; 0x30; 0x31]%Z
  = Some (9, true, None).
Proof. reflexivity. Qed.

(** ** Octets by enumeration *)

Lemma all_bytes_complete b : is_byte b -> In b all_bytes.
Proof.
  intros [Hlo Hhi]. unfold all_bytes.
  apply in_map_iff. exists (Z.to_nat b). split; [lia|].
  apply in_seq. lia.
Qed.

Lemma byte_forall (P : Z -> bool) :
  forallb P all_bytes = true -> forall b, is_byte b -> P b = true.
Proof.
  intros H b Hb. rewrite forallb_forall in H. apply H.
  by apply all_bytes_complete.
Qed.

Lemma nibble_ok_spec c : nibble_ok c = true <-> is_nibble c.
Proof. unfold nibble_ok, is_nibble. rewrite andb_true_iff. lia. Qed.

(** [Encode] yields two nibble bytes that [Decode] maps back. *)
Lemma Encode_Decode b :
  is_byte b ->
  exists h l, AlpFrame.Encode b = [h; l] /\ is_nibble h /\ is_nibble l
              /\ AlpFrame.Decode h l = Some b.
Proof.
  intros Hb.
  pose (P := fun b =>
    match AlpFrame.Encode b with
    | [h; l] => nibble_ok h && nibble_ok l &&
                match AlpFrame.Decode h l with
                | Some b' => (b' =? b)%Z
                | None => false
                end
    | _ => false
    end).
  assert (HP : P b = true) by (apply byte_forall; [by vm_compute | done]).
  unfold P in HP.
  destruct (AlpFrame.Encode b) as [|h [|l [|? ?]]] eqn:E; try done.
  exists h, l. apply andb_true_iff in HP as [HP Hd].
  apply andb_true_iff in HP as [Hh Hl].
  apply nibble_ok_spec in Hh, Hl.
  destruct (AlpFrame.Decode h l) as [b'|]; [|done].
  apply Z.eqb_eq in Hd. by subst.
Qed.

Lemma Decode_None_l x y : ~ is_nibble x -> AlpFrame.Decode x y = None.
Proof.
  unfold is_nibble, AlpFrame.Decode. intros H.
  destruct (x <? 48)%Z eqn:E1; [done|].
  destruct (63 <? x)%Z eqn:E2; [done|]. lia.
Qed.

Lemma Decode_None_r x y : ~ is_nibble y -> AlpFrame.Decode x y = None.
Proof.
  unfold is_nibble, AlpFrame.Decode. intros H.
  destruct (y <? 48)%Z eqn:E1; [by rewrite !orb_true_r|].
  destruct (63 <? y)%Z eqn:E2; [by rewrite !orb_true_r|]. lia.
Qed.

Lemma length_flat_Encode p : length (flat_map AlpFrame.Encode p) = 2 * length p.
Proof. induction p as [|d p IH]; simpl; lia. Qed.

(** ** [Write] lays out [wire] *)

Lemma lookup_at_length (pre : list Z) x suf :
  (pre ++ x :: suf) !! length pre = Some x.
Proof. by apply list_lookup_middle. Qed.

Lemma lookup_at_length_1 (pre : list Z) x y suf :
  (pre ++ x :: y :: suf) !! (length pre + 1) = Some y.
Proof.
  replace (pre ++ x :: y :: suf) with ((pre ++ [x]) ++ y :: suf)
    by by rewrite <- app_assoc.
  apply list_lookup_middle. rewrite length_app. simpl. lia.
Qed.

Lemma setslice_middle (pre : list Z) a b suf xs :
  setslice (pre ++ a :: b :: suf) (length pre) (length pre + 2) xs
  = pre ++ xs ++ suf.
Proof.
  unfold setslice. rewrite Nat.max_r by lia.
  rewrite take_app_length.
  replace (pre ++ a :: b :: suf) with ((pre ++ [a; b]) ++ suf)
    by by rewrite <- app_assoc.
  replace (length pre + 2) with (length (pre ++ [a; b]))
    by (rewrite length_app; simpl; lia).
  by rewrite drop_app_length.
Qed.

Lemma Encode_shape b : exists h l, AlpFrame.Encode b = [h; l].
Proof. unfold AlpFrame.Encode. by eauto. Qed.

Lemma EncodeData_loop_spec rest :
  forall pre mid post done cs cp,
    length mid = 2 * length rest ->
    AlpFrame.EncodeData_loop (length rest) (pre ++ mid ++ post) (done ++ rest)
      (length pre) (length done) cs cp
    = Some (pre ++ flat_map AlpFrame.Encode rest ++ post,
            sum_enc rest cs, xor_enc rest cp).
Proof.
  induction rest as [|d rest IH]; intros pre mid post done cs cp Hlen.
  - destruct mid; [|simpl in Hlen; lia]. done.
  - destruct mid as [|a [|b mid]]; simpl in Hlen; try lia.
    destruct (Encode_shape d) as (h & l & HE).
    cbn [AlpFrame.EncodeData_loop length].
    rewrite lookup_at_length. cbn [mbind option_bind].
    cbn [app]. rewrite setslice_middle, HE. cbn [app].
    rewrite lookup_at_length, lookup_at_length_1. cbn [mbind option_bind].
    replace (pre ++ h :: l :: mid ++ post) with ((pre ++ [h; l]) ++ mid ++ post)
      by by rewrite <- app_assoc.
    replace (done ++ d :: rest) with ((done ++ [d]) ++ rest)
      by by rewrite <- app_assoc.
    replace (length pre + 2) with (length (pre ++ [h; l]))
      by (rewrite length_app; simpl; lia).
    replace (length done + 1) with (length (done ++ [d]))
      by (rewrite length_app; simpl; lia).
    rewrite IH by lia.
    cbn [flat_map sum_enc xor_enc]. rewrite HE.
    by rewrite <- !app_assoc.
Qed.

Lemma range2_len_even a n : range2_len a (a + n * 2) = n.
Proof.
  unfold range2_len. replace (a + n * 2 - a + 1) with (1 + n * 2) by lia.
  rewrite Nat.div_add by lia. done.
Qed.

Lemma Write_spec p : AlpFrame.Write p = Some (wire p).
Proof.
  unfold AlpFrame.Write.
  replace (4 + length p * 2 + 5) with (S (S (S (S (length p * 2 + 5))))) by lia.
  cbn [replicate]. unfold setslice at 3. cbn [take drop Nat.max app].
  unfold setitem at 2. cbn [length Nat.ltb Nat.leb mbind option_bind].
  cbn [insert list_insert].
  unfold AlpFrame.EncodeData.
  rewrite !length_cons, length_replicate.
  destruct (_ <? _)%Z eqn:E; [apply Z.ltb_lt in E; lia|clear E].
  rewrite range2_len_even.
  rewrite replicate_add.
  pose proof (EncodeData_loop_spec p
    [0x01; 0x41; 0x32; AlpFrame.STX]%Z (replicate (length p * 2) 0%Z)
    (replicate 5 0%Z) [] 0%Z 0%Z) as HL.
  rewrite length_replicate in HL. specialize (HL ltac:(lia)).
  cbn [length app] in HL. cbn [app]. rewrite HL.
  cbn [mbind option_bind]. unfold setitem.
  rewrite !length_cons, length_app, length_flat_Encode, length_replicate.
  destruct (_ <? _) eqn:E; [clear E|apply Nat.ltb_ge in E; lia].
  cbn [mbind option_bind]. f_equal.
  replace (S (S (S (S (length p * 2 + 5)))) - 5) with (4 + 2 * length p) by lia.
  replace (S (S (S (S (length p * 2 + 5)))) - 4) with (5 + 2 * length p) by lia.
  replace (S (S (S (S (length p * 2 + 5)))) - 2) with (7 + 2 * length p) by lia.
  replace (S (S (S (S (length p * 2 + 5))))) with (9 + 2 * length p) by lia.
  unfold wire, header.
  set (body := flat_map AlpFrame.Encode p).
  assert (Hbody : length body = 2 * length p) by apply length_flat_Encode.
  destruct (Encode_shape (Z.land (sum_enc p 0) 255)) as (h1 & l1 & ->).
  set (cp := xor_enc p 0).
  assert (Hcp : length (AlpFrame.Encode cp) = 2) by done.
  destruct (AlpFrame.Encode cp) as [|h2 [|l2 [|? ?]]]; try done.
  cbn [replicate].
  replace ([1; 65; 50; AlpFrame.STX] ++ body ++ [0; 0; 0; 0; 0])%Z
    with (([1; 65; 50; AlpFrame.STX] ++ body) ++ [0; 0; 0; 0; 0])%Z
    by by rewrite <- app_assoc.
  set (hb := ([1; 65; 50; AlpFrame.STX]%Z ++ body)).
  assert (Hhb : length hb = 4 + 2 * length p)
    by (unfold hb; rewrite length_app; simpl; lia).
  rewrite <- Hhb.
  change ((1 :: 65 :: 50 :: AlpFrame.STX :: body ++ [0; 0; 0; 0; 0])%Z)
    with (([1; 65; 50; AlpFrame.STX] ++ body ++ [0; 0; 0; 0; 0])%Z).
  rewrite app_assoc. fold hb.
  replace (length hb) with (length hb + 0) at 1 by lia.
  rewrite insert_app_r. cbn [insert list_insert].
  unfold setslice.
  rewrite !Nat.max_r by lia.
  replace (hb ++ AlpFrame.ETX :: [0; 0; 0; 0]%Z)
    with ((hb ++ [AlpFrame.ETX]) ++ [0; 0; 0; 0]%Z) by by rewrite <- app_assoc.
  set (hbe := hb ++ [AlpFrame.ETX]).
  assert (Hhbe : length hbe = 5 + 2 * length p)
    by (unfold hbe; rewrite length_app; simpl; lia).
  replace (5 + 2 * length p) with (length hbe) by lia.
  replace (7 + 2 * length p) with (length hbe + 2) by lia.
  replace (9 + 2 * length p) with (length hbe + 2 + 2) by lia.
  rewrite take_app_length.
  rewrite (drop_app_add' hbe _ (length hbe) 2) by lia. cbn [drop].
  replace (hbe ++ [h1; l1] ++ [0; 0]%Z) with ((hbe ++ [h1; l1]) ++ [0; 0]%Z)
    by by rewrite <- app_assoc.
  assert (Hl : length (hbe ++ [h1; l1]) = length hbe + 2)
    by (rewrite length_app; simpl; lia).
  rewrite <- Hl. rewrite take_app_length.
  rewrite (drop_app_add' _ _ (length (hbe ++ [h1; l1])) 2) by lia.
  cbn [drop].
  unfold hbe, hb. rewrite <- !app_assoc. done.
Qed.

(** ** [Parse] on a header followed by nibble pairs *)

Lemma nibble_not_ETX h : is_nibble h -> (h =? AlpFrame.ETX)%Z = false.
Proof. unfold is_nibble, AlpFrame.ETX. intros. apply Z.eqb_neq. lia. Qed.

(** The second loop walks over the pairs of a payload, storing the
    decoded bytes and accumulating checksum and parity. *)
Lemma scan_pairs q :
  forall n pre suf j off cs cp sf,
    is_bytes q -> j + length q <= length sf ->
    exists sf',
      length sf' = length sf
      /\ take (j + length q) sf' = take j sf ++ q
      /\ AlpFrame.scan (length q + n) (pre ++ flat_map AlpFrame.Encode q ++ suf)
           (length pre) j off cs cp sf
         = AlpFrame.scan n (pre ++ flat_map AlpFrame.Encode q ++ suf)
             (length pre + 2 * length q) (j + length q) off
             (sum_enc q cs) (xor_enc q cp) sf'.
Proof.
  induction q as [|d q IH]; intros n pre suf j off cs cp sf Hb Hlen.
  - exists sf. cbn [length flat_map app sum_enc xor_enc].
    rewrite !Nat.add_0_r, app_nil_r. done.
  - apply Forall_cons in Hb as [Hd Hb]. cbn [length] in Hlen.
    destruct (Encode_Decode d Hd) as (h & l & HE & Hh & Hl & HD).
    cbn [flat_map sum_enc xor_enc length]. rewrite HE.
    cbn [app Nat.add AlpFrame.scan].
    rewrite lookup_at_length. cbn [mbind option_bind].
    rewrite (nibble_not_ETX h Hh).
    rewrite lookup_at_length_1. cbn [mbind option_bind]. rewrite HD.
    unfold setitem. destruct (j <? length sf) eqn:E;
      [clear E|apply Nat.ltb_ge in E; lia].
    cbn [mbind option_bind].
    destruct (IH n (pre ++ [h; l]) suf (j + 1) off
                (cs + (h + l))%Z (Z.lxor (Z.lxor cp h) l) (<[j:=d]> sf) Hb)
      as (sf' & Hlen' & Htake & Heq).
    { rewrite length_insert. lia. }
    exists sf'. rewrite length_insert in Hlen'.
    split; [done|]. split.
    + replace (j + S (length q)) with (j + 1 + length q) by lia.
      rewrite Htake. rewrite Nat.add_1_r.
      rewrite (take_S_r _ _ d) by (apply list_lookup_insert_eq; lia).
      rewrite take_insert_ge by lia. by rewrite <- app_assoc.
    + rewrite <- !app_assoc in Heq. cbn [app] in Heq.
      rewrite length_app in Heq. cbn [length] in Heq.
      rewrite Heq. f_equal; lia.
Qed.

(** With the preamble and STX at offset 0, [Parse] goes straight to its
    second loop. *)
Lemma Parse_header body :
  5 <= length body ->
  let data := header ++ body in
  let dlen := length data in
  AlpFrame.Parse data
  = (r ← AlpFrame.scan (range2_len 4 ((dlen / 2) * 2 - 2)) data 4 0 4
           0%Z 0%Z (replicate ((dlen - 4) / 2) 0%Z);
     AlpFrame.Parse_tail data dlen 0 r).
Proof.
  intros Hlen data dlen. unfold AlpFrame.Parse. fold data. fold dlen.
  assert (Hd : dlen = 4 + length body) by done.
  destruct (dlen <? 9) eqn:E; [apply Nat.ltb_lt in E; lia|clear E].
  replace (dlen - 9 + 1) with (S (dlen - 9)) by lia.
  assert (H0 : data !! 0 = Some AlpFrame.SOH) by done.
  assert (H1 : data !! 1 = Some AlpFrame.PI1) by done.
  assert (H2 : data !! 2 = Some AlpFrame.PI2) by done.
  assert (H3 : data !! 3 = Some AlpFrame.STX) by done.
  cbn [AlpFrame.find_start Nat.add]. rewrite H0. cbn [mbind option_bind].
  rewrite H1. cbn [mbind option_bind]. rewrite H2. cbn [mbind option_bind].
  rewrite !Z.eqb_refl. cbn [negb mbind option_bind].
  destruct (dlen - 9 <? 0) eqn:E; [apply Nat.ltb_lt in E; lia|clear E].
  cbn [Nat.add]. rewrite H3. cbn [mbind option_bind].
  rewrite Z.eqb_refl. cbn [negb].
  by rewrite Nat.sub_0_r.
Qed.

Lemma Parse_pairs q suf :
  is_bytes q -> 5 <= length suf ->
  let data := header ++ flat_map AlpFrame.Encode q ++ suf in
  exists n sf',
    take (length q) sf' = q
    /\ AlpFrame.Parse data
       = (r ← AlpFrame.scan (S n) data (4 + 2 * length q) (length q) 4
                (sum_enc q 0) (xor_enc q 0) sf';
          AlpFrame.Parse_tail data (length data) 0 r).
Proof.
  intros Hb Hsuf data.
  assert (Hdlen : length data = 4 + 2 * length q + length suf).
  { unfold data. rewrite !length_app, length_flat_Encode. simpl. lia. }
  change (AlpFrame.Parse data)
    with (AlpFrame.Parse (header ++ (flat_map AlpFrame.Encode q ++ suf))).
  rewrite Parse_header by (rewrite length_app, length_flat_Encode; lia).
  fold data.
  set (fuel := range2_len 4 (length data / 2 * 2 - 2)).
  assert (Hfuel : exists n, fuel = length q + S n).
  { exists (fuel - length q - 1). unfold fuel, range2_len.
    rewrite Hdlen. clear -Hsuf.
    pose proof (Nat.div_mod_eq (4 + 2 * length q + length suf) 2).
    pose proof (Nat.mod_upper_bound (4 + 2 * length q + length suf) 2).
    set (x := (4 + 2 * length q + length suf) / 2) in *.
    set (y := x * 2 - 2 - 4 + 1).
    pose proof (Nat.div_mod_eq y 2).
    pose proof (Nat.mod_upper_bound y 2). unfold y in *. lia. }
  destruct Hfuel as [n Hn]. rewrite Hn.
  destruct (scan_pairs q (S n) header suf 0 4 0%Z 0%Z
              (replicate ((length data - 4) / 2) 0%Z) Hb)
    as (sf' & _ & Htake & Heq).
  { rewrite length_replicate, Hdlen. clear -Hsuf.
    pose proof (Nat.div_mod_eq (4 + 2 * length q + length suf - 4) 2).
    pose proof (Nat.mod_upper_bound (4 + 2 * length q + length suf - 4) 2).
    lia. }
  exists n, sf'. split; [done|].
  change (length header) with 4 in Heq. cbn [Nat.add] in Heq.
  fold data in Heq. by rewrite Heq.
Qed.

Lemma lookup_app_add (pre suf : list Z) k :
  (pre ++ suf) !! (length pre + k) = suf !! k.
Proof. rewrite lookup_app_r by lia. f_equal. lia. Qed.

(** A header, the pairs of [q], ETX and four more bytes: the outcome is
    decided by how the four bytes decode and compare. *)
Lemma Parse_frame q c1 c2 c3 c4 rest :
  is_bytes q ->
  AlpFrame.Parse (header ++ flat_map AlpFrame.Encode q
                    ++ AlpFrame.ETX :: c1 :: c2 :: c3 :: c4 :: rest)
  = Some match AlpFrame.Decode c1 c2, AlpFrame.Decode c3 c4 with
         | Some fcs, Some fcp =>
             if negb (fcs =? Z.land (sum_enc q 0) 0xff)%Z
                || negb (fcp =? xor_enc q 0)%Z
             then (4 + 2 * length q + 5, true, None)
             else (4 + 2 * length q + 5, false, Some q)
         | _, _ => (4 + 2 * length q, true, None)
         end.
Proof.
  intros Hb.
  set (suf := AlpFrame.ETX :: c1 :: c2 :: c3 :: c4 :: rest).
  destruct (Parse_pairs q suf Hb) as (n & sf' & Htake & ->);
    [simpl; lia|].
  set (data := header ++ flat_map AlpFrame.Encode q ++ suf).
  assert (Hpre : length (header ++ flat_map AlpFrame.Encode q) = 4 + 2 * length q).
  { rewrite length_app, length_flat_Encode. done. }
  assert (Hlk : forall k, data !! (4 + 2 * length q + k) = suf !! k).
  { intros k. unfold data. rewrite app_assoc, <- Hpre. apply lookup_app_add. }
  assert (Hdlen : length data = 4 + 2 * length q + (5 + length rest)).
  { unfold data. rewrite app_assoc, length_app, Hpre. done. }
  pose proof (Hlk 0) as H0. rewrite Nat.add_0_r in H0.
  cbn [AlpFrame.scan]. rewrite H0. cbn [suf lookup list_lookup mbind option_bind].
  rewrite Z.eqb_refl. cbn [mbind option_bind AlpFrame.Parse_tail].
  rewrite H0. cbn [suf lookup list_lookup mbind option_bind].
  rewrite Z.eqb_refl. cbn [negb orb].
  destruct (_ <? _) eqn:E; [apply Nat.ltb_lt in E; lia|clear E].
  rewrite !Hlk. cbn [suf lookup list_lookup mbind option_bind].
  rewrite Htake.
  destruct (AlpFrame.Decode c1 c2), (AlpFrame.Decode c3 c4); try done.
  by destruct (_ || _).
Qed.

(** A pair that does not decode, and does not start with ETX, is where
    [Parse] gives up with a NAK. *)
Lemma Parse_bad_pair q x y rest :
  is_bytes q -> x <> AlpFrame.ETX -> AlpFrame.Decode x y = None ->
  3 <= length rest ->
  AlpFrame.Parse (header ++ flat_map AlpFrame.Encode q ++ x :: y :: rest)
  = Some (4 + 2 * length q, true, None).
Proof.
  intros Hb Hx HD Hrest.
  set (suf := x :: y :: rest).
  destruct (Parse_pairs q suf Hb) as (n & sf' & Htake & ->);
    [simpl; lia|].
  set (data := header ++ flat_map AlpFrame.Encode q ++ suf).
  assert (Hpre : length (header ++ flat_map AlpFrame.Encode q) = 4 + 2 * length q).
  { rewrite length_app, length_flat_Encode. done. }
  assert (Hlk : forall k, data !! (4 + 2 * length q + k) = suf !! k).
  { intros k. unfold data. rewrite app_assoc, <- Hpre. apply lookup_app_add. }
  pose proof (Hlk 0) as H0. rewrite Nat.add_0_r in H0.
  cbn [AlpFrame.scan]. rewrite H0, Hlk.
  cbn [suf lookup list_lookup mbind option_bind].
  apply Z.eqb_neq in Hx. rewrite Hx. cbn [mbind option_bind]. by rewrite HD.
Qed.

(** ** Round trip *)

Lemma xor_step_byte acc b :
  is_byte acc -> is_byte b -> xor_step_ok acc b = true.
Proof.
  intros Ha Hb.
  pose proof (byte_forall (fun a => forallb (xor_step_ok a) all_bytes)) as H.
  specialize (H ltac:(by vm_compute) acc Ha). cbv beta in H.
  rewrite forallb_forall in H. apply H. by apply all_bytes_complete.
Qed.

Lemma xor_enc_byte p : forall acc, is_bytes p -> is_byte acc -> is_byte (xor_enc p acc).
Proof.
  induction p as [|d p IH]; intros acc Hb Hacc; [done|].
  apply Forall_cons in Hb as [Hd Hb].
  pose proof (xor_step_byte acc d Hacc Hd) as Hs. unfold xor_step_ok in Hs.
  cbn [xor_enc].
  destruct (AlpFrame.Encode d) as [|h [|l [|? ?]]]; try done.
  apply IH; [done|]. unfold is_byte.
  apply andb_true_iff in Hs. lia.
Qed.

Lemma land_255_byte x : is_byte (Z.land x 0xff).
Proof.
  unfold is_byte. change 255%Z with (Z.ones 8). rewrite Z.land_ones by lia.
  apply Z.mod_pos_bound. lia.
Qed.

Lemma length_wire p : length (wire p) = 4 + 2 * length p + 5.
Proof.
  unfold wire. rewrite !length_app, length_flat_Encode. simpl. lia.
Qed.

Lemma Parse_wire p :
  is_bytes p -> AlpFrame.Parse (wire p) = Some (length (wire p), false, Some p).
Proof.
  intros Hb. rewrite length_wire. unfold wire.
  destruct (Encode_Decode _ (land_255_byte (sum_enc p 0)))
    as (h1 & l1 & -> & _ & _ & HD1).
  destruct (Encode_Decode (xor_enc p 0)) as (h2 & l2 & -> & _ & _ & HD2).
  { apply xor_enc_byte; [done|]. unfold is_byte. lia. }
  cbn [app]. rewrite Parse_frame by done.
  rewrite HD1, HD2, !Z.eqb_refl. done.
Qed.

(** C1. Parse/Write round trip: for every byte sequence [p] of length 0
    to 500, [Write p] yields a frame, and [Parse] of that frame returns
    the frame's total length, no NAK, and the payload [p]. *)
Theorem Parse_Write_roundtrip (p : list Z) :
  is_bytes p -> length p <= 500 ->
  exists frame,
    AlpFrame.Write p = Some frame
    /\ AlpFrame.Parse frame = Some (length frame, false, Some p).
Proof.
  intros Hb _. exists (wire p). split; [apply Write_spec|by apply Parse_wire].
Qed.

Lemma Parse_Write_roundtrip_witness :
  exists frame,
    AlpFrame.Write [0x01; 0x80; 0xaa]%Z = Some frame
    /\ AlpFrame.Parse frame = Some (length frame, false, Some [0x01; 0x80; 0xaa]%Z).
Proof.
  apply (Parse_Write_roundtrip [0x01; 0x80; 0xaa]%Z).
  - repeat constructor; unfold is_byte; lia.
  - simpl. lia.
Defined.

(** ** Corrupted frames *)

Lemma flip_pair_spec b k :
  is_byte b -> k < 8 -> flip_pair_ok b k = true.
Proof.
  intros Hb Hk.
  pose proof (byte_forall (fun b => forallb (flip_pair_ok b) (seq 0 8))) as H.
  specialize (H ltac:(by vm_compute) b Hb). cbv beta in H.
  rewrite forallb_forall in H. apply H. apply in_seq. lia.
Qed.

Lemma flip_low b k h l :
  is_byte b -> k < 4 -> AlpFrame.Encode b = [h; l] ->
  (exists v, AlpFrame.Decode (flip_bit h k) l = Some v /\ v <> b)
  /\ (exists w, AlpFrame.Decode h (flip_bit l k) = Some w /\ w <> b).
Proof.
  intros Hb Hk HE. pose proof (flip_pair_spec b k Hb ltac:(lia)) as H.
  unfold flip_pair_ok in H. rewrite HE in H.
  destruct (k <? 4) eqn:E; [|apply Nat.ltb_ge in E; lia].
  destruct (AlpFrame.Decode (flip_bit h k) l) as [v|]; [|done].
  destruct (AlpFrame.Decode h (flip_bit l k)) as [w|]; [|done].
  apply andb_true_iff in H as [Hv Hw].
  apply negb_true_iff, Z.eqb_neq in Hv, Hw. split; eauto.
Qed.

Lemma flip_high b k h l :
  is_byte b -> 4 <= k < 8 -> AlpFrame.Encode b = [h; l] ->
  AlpFrame.Decode (flip_bit h k) l = None
  /\ AlpFrame.Decode h (flip_bit l k) = None.
Proof.
  intros Hb Hk HE. pose proof (flip_pair_spec b k Hb ltac:(lia)) as H.
  unfold flip_pair_ok in H. rewrite HE in H.
  destruct (k <? 4) eqn:E; [apply Nat.ltb_lt in E; lia|].
  destruct (AlpFrame.Decode (flip_bit h k) l); [done|].
  by destruct (AlpFrame.Decode h (flip_bit l k)).
Qed.

Lemma flipped_check_byte p pos k c :
  is_bytes p -> etx_offset p < pos <= etx_offset p + 4 -> k < 8 ->
  wire p !! pos = Some c ->
  AlpFrame.Parse (<[pos := flip_bit c k]> (wire p))
  = Some (if k <? 4 then etx_offset p + 5 else etx_offset p, true, None).
Proof.
  intros Hb Hpos Hk. unfold wire, etx_offset in *.
  set (cs := Z.land (sum_enc p 0) 0xff). set (cp := xor_enc p 0).
  assert (Hcs : is_byte cs) by apply land_255_byte.
  assert (Hcp : is_byte cp).
  { apply xor_enc_byte; [done|]. unfold is_byte. lia. }
  destruct (Encode_Decode cs Hcs) as (h1 & l1 & HE1 & _ & _ & HD1).
  destruct (Encode_Decode cp Hcp) as (h2 & l2 & HE2 & _ & _ & HD2).
  rewrite HE1, HE2. cbn [app].
  set (pre := header ++ flat_map AlpFrame.Encode p).
  assert (Hpre : length pre = 4 + 2 * length p).
  { unfold pre. rewrite length_app, length_flat_Encode. done. }
  rewrite !app_assoc. fold pre.
  assert (Hcase : exists e, pos = length pre + e /\ 1 <= e <= 4)
    by (exists (pos - length pre); lia).
  destruct Hcase as (e & -> & He).
  rewrite lookup_app_add, insert_app_r.
  intros Hc.
  assert (Hback : forall suf,
    pre ++ suf = header ++ flat_map AlpFrame.Encode p ++ suf)
    by (intros; unfold pre; by rewrite <- app_assoc).
  destruct (Nat.ltb_spec k 4) as [Hlow|Hhigh].
  - destruct (flip_low cs k h1 l1 Hcs Hlow HE1) as [(v1 & Hv1 & Hn1) (w1 & Hw1 & Hm1)].
    destruct (flip_low cp k h2 l2 Hcp Hlow HE2) as [(v2 & Hv2 & Hn2) (w2 & Hw2 & Hm2)].
    apply Z.eqb_neq in Hn1, Hm1, Hn2, Hm2.
    destruct e as [|[|[|[|[|e]]]]]; try lia;
      cbn [lookup list_lookup] in Hc; injection Hc as <-;
      cbn [insert list_insert]; rewrite Hback, Parse_frame by done;
      rewrite ?Hv1, ?Hw1, ?Hv2, ?Hw2, ?HD1, ?HD2;
      fold cs; fold cp;
      rewrite ?Hn1, ?Hm1, ?Hn2, ?Hm2, ?Z.eqb_refl; cbn [negb orb];
      do 3 f_equal.
  - destruct (flip_high cs k h1 l1 Hcs ltac:(lia) HE1) as [Hv1 Hw1].
    destruct (flip_high cp k h2 l2 Hcp ltac:(lia) HE2) as [Hv2 Hw2].
    destruct e as [|[|[|[|[|e]]]]]; try lia;
      cbn [lookup list_lookup] in Hc; injection Hc as <-;
      cbn [insert list_insert]; rewrite Hback, Parse_frame by done;
      rewrite ?Hv1, ?Hw1, ?Hv2, ?Hw2, ?HD1, ?HD2; try done;
      by destruct (AlpFrame.Decode _ _).
Qed.

Lemma replaced_data_byte p pos v :
  is_bytes p -> 4 <= pos < etx_offset p -> ~ is_nibble v ->
  (v = AlpFrame.ETX -> Nat.odd (pos - 4) = true) ->
  AlpFrame.Parse (<[pos := v]> (wire p))
  = Some (pos - (pos - 4) mod 2, true, None).
Proof.
  intros Hb Hpos Hv Hetx. unfold etx_offset in Hpos.
  pose proof (Nat.div_mod_eq (pos - 4) 2) as Hdm.
  pose proof (Nat.mod_upper_bound (pos - 4) 2 ltac:(lia)) as Hm.
  set (a := (pos - 4) / 2) in *. set (e := (pos - 4) mod 2) in *.
  destruct (lookup_lt_is_Some_2 p a ltac:(lia)) as [d Hd].
  pose proof (take_drop_middle p a d Hd) as Hsplit.
  set (q := take a p) in *. set (q2 := drop (S a) p) in *.
  assert (Hq : length q = a) by (unfold q; rewrite length_take; lia).
  assert (Hbq : is_bytes q /\ is_byte d /\ is_bytes q2).
  { rewrite <- Hsplit in Hb. apply Forall_app in Hb as [? Hb].
    apply Forall_cons in Hb as [? ?]. done. }
  destruct Hbq as (Hbq & Hbd & _).
  destruct (Encode_Decode d Hbd) as (h & l & HE & Hh & _ & _).
  unfold wire. rewrite <- Hsplit at 1.
  rewrite flat_map_app. cbn [flat_map]. rewrite HE.
  rewrite <- !app_assoc. cbn [app].
  set (rest := flat_map AlpFrame.Encode q2 ++ AlpFrame.ETX
                 :: AlpFrame.Encode (Z.land (sum_enc p 0) 255)
                 ++ AlpFrame.Encode (xor_enc p 0)).
  assert (Hrest : 3 <= length rest).
  { unfold rest. rewrite length_app. simpl. lia. }
  set (pre := header ++ flat_map AlpFrame.Encode q).
  assert (Hpre : length pre = 4 + 2 * a).
  { unfold pre. rewrite length_app, length_flat_Encode, Hq. done. }
  rewrite app_assoc. fold pre.
  replace pos with (length pre + e) at 1 by lia.
  rewrite insert_app_r.
  replace (pos - e) with (4 + 2 * length q) by lia.
  destruct e as [|[|e]]; [| |lia]; cbn [insert list_insert];
    unfold pre; rewrite <- app_assoc; apply Parse_bad_pair; try done.
  - intros ->. specialize (Hetx eq_refl).
    assert (Hev : Nat.even (pos - 4) = true)
      by (apply Nat.even_spec; exists a; lia).
    rewrite <- Nat.negb_even, Hev in Hetx. done.
  - by apply Decode_None_l.
  - unfold is_nibble, AlpFrame.ETX in *. lia.
  - by apply Decode_None_r.
Qed.

(** ETX written over the first byte of a pair ends the data field
    there: the outcome is decided by the four bytes that follow. *)
Lemma etx_over_pair p pos :
  is_bytes p -> 4 <= pos < etx_offset p -> Nat.odd (pos - 4) = false ->
  AlpFrame.Parse (<[pos := AlpFrame.ETX]> (wire p))
  = Some match check_after (wire p) pos with
         | Some (fcs, fcp) =>
             if negb (fcs =? Z.land (sum_enc (take ((pos - 4) / 2) p) 0) 0xff)%Z
                || negb (fcp =? xor_enc (take ((pos - 4) / 2) p) 0)%Z
             then (pos + 5, true, None)
             else (pos + 5, false, Some (take ((pos - 4) / 2) p))
         | None => (pos, true, None)
         end
  /\ (etx_offset p <= pos + 4 -> check_after (wire p) pos = None).
Proof.
  intros Hb Hpos Hodd. unfold etx_offset in *.
  rewrite <- Nat.negb_even in Hodd. apply negb_false_iff in Hodd.
  apply Nat.even_spec in Hodd as [m Hm].
  assert (Ha : (pos - 4) / 2 = m)
    by (rewrite Hm, Nat.mul_comm, Nat.div_mul; lia).
  rewrite Ha. clear Ha.
  destruct (lookup_lt_is_Some_2 p m ltac:(lia)) as [d Hd].
  pose proof (take_drop_middle p m d Hd) as Hsplit.
  assert (Hq : length (take m p) = m) by (rewrite length_take; lia).
  assert (Hn : length p = m + 1 + length (drop (S m) p))
    by (rewrite length_drop; lia).
  assert (Hbq : is_bytes (take m p)) by (by apply Forall_take).
  remember (take m p) as q eqn:Eq. remember (drop (S m) p) as q2 eqn:Eq2.
  clear Eq Eq2 Hd.
  set (pre := header ++ flat_map AlpFrame.Encode q).
  assert (Hpre : length pre = pos).
  { unfold pre. rewrite length_app, length_flat_Encode, Hq. simpl. lia. }
  assert (Hw : exists h l r1 r2 r3 rest,
            wire p = pre ++ h :: l :: r1 :: r2 :: r3 :: rest
            /\ (length q2 <= 1 ->
                AlpFrame.Decode l r1 = None \/ AlpFrame.Decode r2 r3 = None)).
  { assert (Hfm : flat_map AlpFrame.Encode p
                   = flat_map AlpFrame.Encode q ++ AlpFrame.Encode d
                       ++ flat_map AlpFrame.Encode q2).
    { rewrite <- Hsplit, flat_map_app. done. }
    unfold wire, pre. rewrite Hfm.
    destruct (Encode_shape d) as (h & l & ->).
    destruct (Encode_shape (Z.land (sum_enc p 0) 255)) as (h1 & l1 & ->).
    destruct (Encode_shape (xor_enc p 0)) as (h2 & l2 & ->).
    rewrite <- !app_assoc. cbn [app].
    assert (Hetx : ~ is_nibble AlpFrame.ETX)
      by (unfold is_nibble, AlpFrame.ETX; lia).
    destruct q2 as [|d1 [|d2 q3]]; cbn [flat_map app].
    - do 6 eexists. split; [reflexivity|]. intros _. left.
      by apply Decode_None_r.
    - destruct (Encode_shape d1) as (h' & l' & ->). cbn [app].
      do 6 eexists. split; [reflexivity|]. intros _. right.
      by apply Decode_None_r.
    - destruct (Encode_shape d1) as (h' & l' & ->).
      destruct (Encode_shape d2) as (h'' & l'' & ->). cbn [app].
      do 6 eexists. split; [reflexivity|]. simpl. lia. }
  destruct Hw as (h & l & r1 & r2 & r3 & rest & -> & Hend).
  assert (Hchk : check_after (pre ++ h :: l :: r1 :: r2 :: r3 :: rest) pos
                 = (fcs ← AlpFrame.Decode l r1; fcp ← AlpFrame.Decode r2 r3;
                    Some (fcs, fcp))).
  { unfold check_after. rewrite <- Hpre, !lookup_app_add. done. }
  rewrite Hchk. split.
  - rewrite <- Hpre at 1. replace (length pre) with (length pre + 0) by lia.
    rewrite insert_app_r. cbn [insert list_insert].
    unfold pre. rewrite <- app_assoc. rewrite Parse_frame by done.
    rewrite Hq. replace (4 + 2 * m) with pos by lia.
    destruct (AlpFrame.Decode l r1) as [fcs|]; [|done].
    destruct (AlpFrame.Decode r2 r3) as [fcp|]; done.
  - intros Hlast. destruct Hend as [-> | ->]; [lia|done|].
    by destruct (AlpFrame.Decode l r1).
Qed.

(** ** [Parse] on arbitrary input *)

Lemma find_start_spec n :
  forall data i dlen,
    i + n + 2 <= length data ->
    exists s,
      AlpFrame.find_start n data i dlen = Some s
      /\ (s = dlen
          \/ (i <= s < i + n
              /\ data !! s = Some AlpFrame.SOH
              /\ data !! (s + 1) = Some AlpFrame.PI1
              /\ data !! (s + 2) = Some AlpFrame.PI2)).
Proof.
  induction n as [|n IH]; intros data i dlen Hlen; [by eauto|].
  cbn [AlpFrame.find_start].
  destruct (lookup_lt_is_Some_2 data i ltac:(lia)) as [d0 H0].
  destruct (lookup_lt_is_Some_2 data (i + 1) ltac:(lia)) as [d1 H1].
  destruct (lookup_lt_is_Some_2 data (i + 2) ltac:(lia)) as [d2 H2].
  destruct (IH data (S i) dlen ltac:(lia)) as (s & Hs & Hcase).
  assert (Hnext : exists s, AlpFrame.find_start n data (S i) dlen = Some s
    /\ (s = dlen
        \/ (i <= s < i + S n
            /\ data !! s = Some AlpFrame.SOH
            /\ data !! (s + 1) = Some AlpFrame.PI1
            /\ data !! (s + 2) = Some AlpFrame.PI2))).
  { exists s. split; [done|]. destruct Hcase as [->|(? & ?)]; [by left|].
    right. split; [lia|done]. }
  rewrite H0. cbn [mbind option_bind].
  destruct (Z.eqb_spec d0 AlpFrame.SOH) as [->|]; [|done]. cbn [negb].
  rewrite H1. cbn [mbind option_bind].
  destruct (Z.eqb_spec d1 AlpFrame.PI1) as [->|]; [|done]. cbn [negb].
  rewrite H2. cbn [mbind option_bind].
  destruct (Z.eqb_spec d2 AlpFrame.PI2) as [->|]; [|done]. cbn [negb].
  exists i. split; [done|]. right. split; [lia|done].
Qed.

Lemma scan_spec n :
  forall data i j off cs cp sf,
    i + 2 * n + 1 <= length data -> j + n <= length sf ->
    exists r, AlpFrame.scan n data i j off cs cp sf = Some r
              /\ scan_post n data i j off r.
Proof.
  induction n as [|n IH]; intros data i j off cs cp sf Hd Hsf.
  - eexists. split; [done|]. left. by eauto.
  - cbn [AlpFrame.scan].
    destruct (lookup_lt_is_Some_2 data i ltac:(lia)) as [d0 H0].
    destruct (lookup_lt_is_Some_2 data (i + 1) ltac:(lia)) as [d1 H1].
    rewrite H0. cbn [mbind option_bind].
    destruct (Z.eqb_spec d0 AlpFrame.ETX) as [->|Hne].
    + eexists. split; [done|]. right. split; [done|].
      exists 0. rewrite length_take. split; [lia|]. split; lia.
    + rewrite H1. cbn [mbind option_bind].
      destruct (AlpFrame.Decode d0 d1) as [b|].
      * unfold setitem.
        destruct (j <? length sf) eqn:E; [clear E|apply Nat.ltb_ge in E; lia].
        cbn [mbind option_bind].
        destruct (IH data (i + 2) (j + 1) off (cs + (d0 + d1))%Z
                    (Z.lxor (Z.lxor cp d0) d1) (<[j:=b]> sf))
          as (r & Hr & Hpost); [lia|rewrite length_insert; lia|].
        exists r. split; [done|].
        destruct r as [[[c nack] fr]|off' cs' cp' sf']; cbn in Hpost |- *.
        -- destruct Hpost as (? & ? & ? & ?). repeat split; (lia || done).
        -- destruct Hpost as [[-> _]|(HE & k & Hk & -> & Hl)].
           ++ left. split; [done|]. right. by eauto.
           ++ right. split; [done|]. exists (S k).
              split; [lia|]. split; lia.
      * eexists. split; [done|]. cbn. repeat split; (lia || done).
Qed.

Lemma range2_len_bounds a hi :
  a < hi -> 1 <= range2_len a hi /\ a + 2 * range2_len a hi <= hi + 1.
Proof.
  intros H. unfold range2_len.
  pose proof (Nat.div_mod_eq (hi - a + 1) 2).
  pose proof (Nat.mod_upper_bound (hi - a + 1) 2). lia.
Qed.

(** [Parse] never raises, and its result is one of the five outcomes. *)
Lemma Parse_total data :
  exists r, AlpFrame.Parse data = Some r /\ Parse_outcome data r.
Proof.
  unfold AlpFrame.Parse. set (dlen := length data).
  destruct (Nat.ltb_spec dlen 9) as [Hshort|Hlong].
  { eexists. split; [done|]. by constructor. }
  destruct (find_start_spec (dlen - 9 + 1) data 0 dlen ltac:(lia))
    as (start & -> & Hstart).
  cbn [mbind option_bind].
  destruct (Nat.ltb_spec (dlen - 9) start) as [Hgarb|Hfound].
  { eexists. split; [done|]. by constructor. }
  destruct Hstart as [->|(_ & Hp0 & Hp1 & Hp2)]; [lia|].
  destruct (lookup_lt_is_Some_2 data (start + 3) ltac:(lia)) as [stx Hstx].
  rewrite Hstx. cbn [mbind option_bind].
  destruct (Z.eqb_spec stx AlpFrame.STX) as [->|Hne]; cbn [negb].
  2:{ eexists. split; [done|]. constructor. lia. }
  set (hi := dlen / 2 * 2 - 2).
  assert (Hhi : dlen - 3 <= hi <= dlen - 2).
  { unfold hi. pose proof (Nat.div_mod_eq dlen 2).
    pose proof (Nat.mod_upper_bound dlen 2). lia. }
  destruct (range2_len_bounds (start + 4) hi ltac:(lia)) as [Hn1 Hn2].
  set (n := range2_len (start + 4) hi) in *.
  destruct (scan_spec n data (start + 4) 0 (start + 4) 0%Z 0%Z
              (replicate ((dlen - start - 4) / 2) 0%Z))
    as (r & -> & Hpost).
  { fold dlen. lia. }
  { rewrite length_replicate.
    pose proof (Nat.div_mod_eq (dlen - start - 4) 2).
    pose proof (Nat.mod_upper_bound (dlen - start - 4) 2). lia. }
  cbn [mbind option_bind AlpFrame.Parse_tail].
  destruct r as [[[c nack] fr]|off cs cp sf]; cbn [scan_post] in Hpost.
  { destruct Hpost as (? & ? & -> & ->). eexists. split; [done|].
    constructor. fold dlen. lia. }
  assert (Hpartial : Parse_outcome data (start, false, None)).
  { constructor; (done || (fold dlen; lia)). }
  destruct Hpost as [[-> [?|(d & Hd & Hne)]]|(HE & k & Hk & -> & Hl)]; [lia| |].
  - cbn [AlpFrame.Parse_tail]. rewrite Hd. cbn [mbind option_bind].
    apply Z.eqb_neq in Hne. rewrite Hne. cbn [negb orb]. by eauto.
  - cbn [AlpFrame.Parse_tail]. rewrite HE. cbn [mbind option_bind].
    rewrite Z.eqb_refl. cbn [negb orb].
    destruct (Nat.ltb_spec (dlen - 5) (start + 4 + 2 * k)) as [?|Hroom];
      [by eauto|].
    destruct (lookup_lt_is_Some_2 data (start + 4 + 2 * k + 1) ltac:(fold dlen; lia)) as [c1 ->].
    destruct (lookup_lt_is_Some_2 data (start + 4 + 2 * k + 2) ltac:(fold dlen; lia)) as [c2 ->].
    destruct (lookup_lt_is_Some_2 data (start + 4 + 2 * k + 3) ltac:(fold dlen; lia)) as [c3 ->].
    destruct (lookup_lt_is_Some_2 data (start + 4 + 2 * k + 4) ltac:(fold dlen; lia)) as [c4 ->].
    cbn [mbind option_bind].
    assert (Hnack : forall c, c = start + 4 + 2 * k \/ c = start + 4 + 2 * k + 5 ->
      Parse_outcome data (c, true, None)).
    { intros c Hc. constructor. fold dlen. lia. }
    destruct (AlpFrame.Decode c1 c2) as [fcs|]; [|by eauto].
    destruct (AlpFrame.Decode c3 c4) as [fcp|]; [|by eauto].
    destruct (_ || _); [by eauto|].
    eexists. split; [done|].
    replace (start + 4 + 2 * k + 5) with (start + 9 + 2 * length sf) by lia.
    constructor. fold dlen. lia.
Qed.

(** C3 (as amended).  Corrupt detection on a frame written by [Write]:
    flipping one of the low four bits (0..3) of any of the four
    checksum/parity nibble bytes makes [Parse] return
    [(etx_offset + 5, true, None)]; flipping one of the high four bits
    (4..7) makes it return [(etx_offset, true, None)]; replacing a
    data-field nibble byte by a value outside 0x30..0x3F makes it return
    [(i, true, None)] with [i] the offset of that pair, unless the value
    is ETX and the byte is the first of its pair.  ETX written over the
    first byte of a pair, at offset [pos], ends the data field there, and
    the four bytes behind it are read as the check bytes: if one of their
    two pairs does not decode, as is always the case in the last two
    pairs of the data field, [Parse] returns [(pos, true, None)]; if they
    decode to anything but the checksum and parity of the pairs before
    [pos], it returns [(pos + 5, true, None)]; only if they decode to
    exactly that checksum and parity does it return a frame, the payload
    bytes before [pos], and no NAK.  So a data-field nibble byte replaced
    by a value outside 0x30..0x3F yields a NAK and no frame in every case
    but that one. *)
Theorem corrupt_detection (p frame : list Z) :
  is_bytes p -> AlpFrame.Write p = Some frame ->
  (forall pos k c,
      etx_offset p < pos <= etx_offset p + 4 -> k < 8 ->
      frame !! pos = Some c ->
      AlpFrame.Parse (<[pos := flip_bit c k]> frame)
      = Some (if k <? 4 then etx_offset p + 5 else etx_offset p, true, None))
  /\ (forall pos v,
         4 <= pos < etx_offset p -> ~ is_nibble v ->
         (v = AlpFrame.ETX -> Nat.odd (pos - 4) = true) ->
         AlpFrame.Parse (<[pos := v]> frame)
         = Some (pos - (pos - 4) mod 2, true, None))
  /\ (forall pos,
         4 <= pos < etx_offset p -> Nat.odd (pos - 4) = false ->
         AlpFrame.Parse (<[pos := AlpFrame.ETX]> frame)
         = Some match check_after frame pos with
                | Some (fcs, fcp) =>
                    if negb (fcs =? Z.land (sum_enc (take ((pos - 4) / 2) p) 0)
                                      0xff)%Z
                       || negb (fcp =? xor_enc (take ((pos - 4) / 2) p) 0)%Z
                    then (pos + 5, true, None)
                    else (pos + 5, false, Some (take ((pos - 4) / 2) p))
                | None => (pos, true, None)
                end
         /\ (etx_offset p <= pos + 4 -> check_after frame pos = None))
  /\ (forall pos v,
         4 <= pos < etx_offset p -> ~ is_nibble v ->
         (exists c, AlpFrame.Parse (<[pos := v]> frame) = Some (c, true, None))
         \/ (v = AlpFrame.ETX /\ Nat.odd (pos - 4) = false
             /\ check_after frame pos
                = Some (Z.land (sum_enc (take ((pos - 4) / 2) p) 0) 0xff,
                        xor_enc (take ((pos - 4) / 2) p) 0)
             /\ AlpFrame.Parse (<[pos := v]> frame)
                = Some (pos + 5, false, Some (take ((pos - 4) / 2) p)))).
Proof.
  intros Hb HW. rewrite Write_spec in HW. injection HW as <-.
  split; [|split; [|split]].
  - intros pos k c Hpos Hk Hc. by apply flipped_check_byte.
  - intros pos v Hpos Hv Hetx. by apply replaced_data_byte.
  - intros pos Hpos Hodd. by apply etx_over_pair.
  - intros pos v Hpos Hv.
    destruct (Nat.odd (pos - 4)) eqn:Hodd.
    { left. eexists. by apply replaced_data_byte. }
    destruct (decide (v = AlpFrame.ETX)) as [->|Hne].
    2:{ left. eexists. by apply replaced_data_byte. }
    destruct (etx_over_pair p pos Hb Hpos Hodd) as [HP _].
    rewrite HP. clear HP.
    destruct (check_after (wire p) pos) as [[fcs fcp]|]; [|left; by eexists].
    destruct (Z.eqb_spec fcs (Z.land (sum_enc (take ((pos - 4) / 2) p) 0) 255))
      as [E1|_]; cbn [negb orb]; [|left; by eexists].
    destruct (Z.eqb_spec fcp (xor_enc (take ((pos - 4) / 2) p) 0))
      as [E2|_]; cbn [negb orb]; [|left; by eexists].
    right. rewrite E1, E2. done.
Qed.

Lemma corrupt_detection_witness :
  AlpFrame.Parse
    (<[11 := flip_bit 0x33 2]>
       [0x01; 0x41; 0x32; 0x02; 0x31; 0x32; 0x33; 0x34; 0x35; 0x36; 0x03;
        0x33; 0x35; 0x30; 0x37]%Z)
  = Some (15, true, None)
  /\ AlpFrame.Parse
       (<[5 := 0x03%Z]>
          [0x01; 0x41; 0x32; 0x02; 0x31; 0x32; 0x33; 0x34; 0x35; 0x36; 0x03;
           0x33; 0x35; 0x30; 0x37]%Z)
     = Some (4, true, None)
  /\ AlpFrame.Parse
       (<[4 := 0x03%Z]>
          [0x01; 0x41; 0x32; 0x02; 0x31; 0x32; 0x33; 0x34; 0x35; 0x36; 0x03;
           0x33; 0x35; 0x30; 0x37]%Z)
     = Some (9, true, None)
  /\ AlpFrame.Parse
       (<[6 := 0x03%Z]>
          [0x01; 0x41; 0x32; 0x02; 0x31; 0x32; 0x33; 0x34; 0x35; 0x36; 0x03;
           0x33; 0x35; 0x30; 0x37]%Z)
     = Some (6, true, None)
  /\ AlpFrame.Parse
       (<[8 := 0x03%Z]>
          [0x01; 0x41; 0x32; 0x02; 0x31; 0x32; 0x33; 0x34; 0x35; 0x36; 0x03;
           0x33; 0x35; 0x30; 0x37]%Z)
     = Some (8, true, None).
Proof.
  destruct (corrupt_detection [0x12; 0x34; 0x56]%Z
              [0x01; 0x41; 0x32; 0x02; 0x31; 0x32; 0x33; 0x34; 0x35; 0x36; 0x03;
               0x33; 0x35; 0x30; 0x37]%Z)
    as (Hflip & Hrepl & Hetx & _).
  - repeat constructor; unfold is_byte; lia.
  - reflexivity.
  - split; [|split; [|split; [|split]]].
    + apply (Hflip 11 2 0x33%Z); [unfold etx_offset; simpl; lia|lia|reflexivity].
    + apply (Hrepl 5 0x03%Z);
        [unfold etx_offset; simpl; lia|unfold is_nibble; lia|reflexivity].
    + destruct (Hetx 4) as [H _];
        [unfold etx_offset; simpl; lia|reflexivity|].
      etransitivity; [exact H|]. vm_compute. reflexivity.
    + destruct (Hetx 6) as [H _];
        [unfold etx_offset; simpl; lia|reflexivity|].
      etransitivity; [exact H|]. vm_compute. reflexivity.
    + destruct (Hetx 8) as [H _];
        [unfold etx_offset; simpl; lia|reflexivity|].
      etransitivity; [exact H|]. vm_compute. reflexivity.
Defined.

(** C3 as stated fails twice on the frame written for [[0; 0; 0]]:
    flipping bit 4 of the first checksum byte (offset 11, 0x32) leaves a
    byte that does not decode, and [Parse] returns the ETX offset 10, not
    15; replacing the data byte at offset 4 by 0x03, a value outside
    0x30..0x3F, yields an accepted (empty) frame and no NAK. *)
Lemma corrupt_detection_counterexample :
  AlpFrame.Write [0; 0; 0]%Z
  = Some [0x01; 0x41; 0x32; 0x02; 0x30; 0x30; 0x30; 0x30; 0x30; 0x30; 0x03;
          0x32; 0x30; 0x30; 0x30]%Z
  /\ etx_offset [0; 0; 0]%Z = 10
  /\ AlpFrame.Parse
       (<[11 := flip_bit 0x32 4]>
          [0x01; 0x41; 0x32; 0x02; 0x30; 0x30; 0x30; 0x30; 0x30; 0x30; 0x03;
           0x32; 0x30; 0x30; 0x30]%Z)
     = Some (10, true, None)
  /\ ~ is_nibble 0x03
  /\ AlpFrame.Parse
       (<[4 := 0x03%Z]>
          [0x01; 0x41; 0x32; 0x02; 0x30; 0x30; 0x30; 0x30; 0x30; 0x30; 0x03;
           0x32; 0x30; 0x30; 0x30]%Z)
     = Some (9, false, Some []).
Proof.
  repeat split; try reflexivity. unfold is_nibble. lia.
Qed.

(** ** Frame length *)

Lemma Parse_Some_frame data c nack f :
  AlpFrame.Parse data = Some (c, nack, Some f) ->
  nack = false /\ 9 <= length data /\ 9 + 2 * length f <= c <= length data.
Proof.
  intros HP. destruct (Parse_total data) as (r & Hr & Ho).
  rewrite HP in Hr. injection Hr as <-. inversion Ho; subst. lia.
Qed.

(** C9 (as amended).  The minimum total length of a frame is 9 bytes,
    attained by the empty payload: [Write p] has [4 + 2 * len(p) + 5]
    bytes, [Write []] has exactly 9, and when [Parse] returns a frame the
    buffer holds, and the call consumes, at least 9 bytes plus two per
    payload byte. *)
Theorem frame_min_length :
  (forall p,
     exists frame, AlpFrame.Write p = Some frame
                   /\ length frame = 4 + 2 * length p + 5
                   /\ 9 <= length frame)
  /\ (exists frame, AlpFrame.Write [] = Some frame /\ length frame = 9)
  /\ (forall data consumed nack f,
        AlpFrame.Parse data = Some (consumed, nack, Some f) ->
        9 <= length data /\ 9 + 2 * length f <= consumed).
Proof.
  split; [|split].
  - intros p. exists (wire p). rewrite Write_spec, length_wire. split; [done|]. split; lia.
  - eexists. split; reflexivity.
  - intros data c nack f HP.
    destruct (Parse_Some_frame _ _ _ _ HP) as (_ & ? & ? & _). done.
Qed.

(** C9 as stated fails on the empty payload: the written frame has 9
    bytes, not 10 or more, and [Parse] returns a complete frame from that
    9-byte buffer. *)
Lemma frame_min_length_counterexample :
  AlpFrame.Write []
  = Some [0x01; 0x41; 0x32; 0x02; 0x03; 0x30; 0x30; 0x30; 0x30]%Z
  /\ length [0x01; 0x41; 0x32; 0x02; 0x03; 0x30; 0x30; 0x30; 0x30]%Z = 9
  /\ ~ 10 <= 9
  /\ AlpFrame.Parse [0x01; 0x41; 0x32; 0x02; 0x03; 0x30; 0x30; 0x30; 0x30]%Z
     = Some (9, false, Some []).
Proof. repeat split; try reflexivity. lia. Qed.

(** ** Consumption *)

Lemma Parse_le data c nack fr :
  AlpFrame.Parse data = Some (c, nack, fr) -> c <= length data.
Proof.
  intros HP. destruct (Parse_total data) as (r & Hr & Ho).
  rewrite HP in Hr. injection Hr as <-. inversion Ho; subst; lia.
Qed.

(** Nothing consumed: no NAK, no frame, and the buffer is either too
    short to hold a frame or starts with the header of one. *)
Lemma Parse_zero data nack fr :
  AlpFrame.Parse data = Some (0, nack, fr) ->
  nack = false /\ fr = None
  /\ (length data < 9 \/ exists rest, data = header ++ rest).
Proof.
  intros HP. destruct (Parse_total data) as (r & Hr & Ho).
  rewrite HP in Hr. injection Hr as <-.
  inversion Ho as [Hs|Hg Hc|c Hc|start Hlen H0 H1 H2 H3 Hc|start f Hlen Hc];
    subst; try lia.
  - by eauto.
  - repeat split; try done. right.
    destruct data as [|b0 [|b1 [|b2 [|b3 rest]]]]; try (simpl in Hlen; lia).
    cbn in H0, H1, H2, H3.
    injection H0 as ->. injection H1 as ->. injection H2 as ->.
    injection H3 as ->. by exists rest.
Qed.

Lemma drain_add n m b : drain (n + m) b = drain m (drain n b).
Proof. revert b. induction n as [|n IH]; intros b; [done|]. apply IH. Qed.

Lemma drain_stuck n b : parse_drop b = b -> drain n b = b.
Proof.
  intros H. induction n as [|n IH]; [done|]. cbn [drain]. by rewrite H.
Qed.

(** Repeated parsing comes to rest within [length b] attempts, on a
    suffix of the buffer from which [Parse] consumes nothing. *)
Lemma drain_reaches b :
  exists n k,
    n <= length b /\ drain n b = drop k b
    /\ AlpFrame.Parse (drop k b) = Some (0, false, None)
    /\ (length (drop k b) < 9 \/ exists rest, drop k b = header ++ rest).
Proof.
  remember (length b) as m eqn:Hm. revert b Hm.
  induction m as [m IH] using lt_wf_ind. intros b Hm.
  destruct (Parse_total b) as ([[c nack] fr] & HP & _).
  destruct c as [|c].
  - destruct (Parse_zero _ _ _ HP) as (-> & -> & Hshape).
    exists 0, 0. rewrite drop_0. split; [lia|]. done.
  - pose proof (Parse_le _ _ _ _ HP) as Hle.
    destruct (IH (length (drop (S c) b))) with (b := drop (S c) b)
      as (n & k & Hn & Hd & Hp & Hshape);
      [rewrite length_drop; lia|done|].
    rewrite length_drop in Hn. rewrite drop_drop in Hd, Hp, Hshape.
    exists (S n), (S c + k). split; [lia|].
    cbn [drain]. unfold parse_drop at 1. rewrite HP. done.
Qed.

Lemma feed_rest buf chunk :
  AlpFrame.Parse (feed buf chunk) = Some (0, false, None)
  /\ (length (feed buf chunk) < 9 \/ exists rest, feed buf chunk = header ++ rest)
  /\ exists k, feed buf chunk = drop k (buf ++ chunk).
Proof.
  unfold feed. set (b := buf ++ chunk).
  destruct (drain_reaches b) as (n & k & Hn & Hd & Hp & Hshape).
  replace (length b) with (n + (length b - n)) by lia.
  rewrite drain_add, Hd, drain_stuck.
  - by eauto.
  - unfold parse_drop. rewrite Hp. apply drop_0.
Qed.

(** C8 (as amended).  For every buffer [b], [Parse] returns without
    raising and [0 <= consumed <= len(b)].  Iterating [Parse], dropping
    the consumed bytes after each call, comes to rest within [len(b)]
    calls on a suffix of [b] from which [Parse] consumes nothing, asks
    for no NAK and returns no frame: a remainder shorter than 9 bytes, or
    one that starts with SOH 'A' '2' STX (a frame not yet complete).  The
    remainder need not be empty; the same holds after each chunk
    appended to what was left ([feed]). *)
Theorem Parse_consumes (b : list Z) :
  (exists consumed nack frame,
     AlpFrame.Parse b = Some (consumed, nack, frame)
     /\ 0 <= consumed <= length b)
  /\ (exists n k,
        n <= length b /\ drain n b = drop k b
        /\ AlpFrame.Parse (drain n b) = Some (0, false, None)
        /\ (length (drain n b) < 9 \/ exists rest, drain n b = header ++ rest))
  /\ (forall chunk,
        AlpFrame.Parse (feed b chunk) = Some (0, false, None)
        /\ (length (feed b chunk) < 9
            \/ exists rest, feed b chunk = header ++ rest)
        /\ exists k, feed b chunk = drop k (b ++ chunk)).
Proof.
  split; [|split].
  - destruct (Parse_total b) as ([[c nack] fr] & HP & _).
    exists c, nack, fr. split; [done|]. split; [lia|]. by eapply Parse_le.
  - destruct (drain_reaches b) as (n & k & Hn & Hd & Hp & Hshape).
    exists n, k. rewrite Hd. done.
  - intros chunk. apply feed_rest.
Qed.

(** C8 as stated fails on the one-byte stream [[0x61]]: [Parse] consumes
    nothing of it, so no number of attempts empties the buffer, whether
    the byte is there from the start or arrives as a chunk. *)
Lemma Parse_consumes_counterexample :
  AlpFrame.Parse [0x61%Z] = Some (0, false, None)
  /\ ~ (exists n, drain n [0x61%Z] = [])
  /\ feed [] [0x61%Z] = [0x61%Z].
Proof.
  split; [reflexivity|]. split; [|reflexivity].
  intros [n Hn]. rewrite drain_stuck in Hn by reflexivity. discriminate.
Qed.

(** * Properties of the session *)

(** ** Python list membership and removal *)

Lemma list_in_app x l1 l2 :
  Alp.list_in x (l1 ++ l2) = Alp.list_in x l1 || Alp.list_in x l2.
Proof. unfold Alp.list_in. apply existsb_app. Qed.

Lemma list_in_self x : Alp.list_in x [x] = true.
Proof. unfold Alp.list_in. cbn [existsb]. by rewrite String.eqb_refl. Qed.


Lemma list_remove_app_notin x l :
  Alp.list_in x l = false -> Alp.list_remove x (l ++ [x]) = l.
Proof.
  induction l as [|y l IH].
  - intros _. cbn [app Alp.list_remove]. by rewrite String.eqb_refl.
  - unfold Alp.list_in. cbn [existsb Alp.list_remove app]. intros H.
    apply orb_false_iff in H as [-> H]. f_equal. by apply IH.
Qed.

#[local] Arguments String.eqb : simpl never.
#[local] Arguments Alp.list_in : simpl never.
#[local] Arguments Alp.list_remove : simpl never.

(** ** Re-transmission *)

Lemma re_transmit_below cause s :
  (s.(Alp.downlink_retransmit_count) < resend_limit cause)%Z ->
  Alp.re_transmit cause s
  = Alp.write (s.(Alp.downlink_buffer)) false
      (Alp.set_latest_downlink_event_time (s.(Alp.clock) (s.(Alp.clock_reads)))
         (Alp.set_clock_reads (S (s.(Alp.clock_reads)))
            (Alp.set_downlink_retransmit_count
               (s.(Alp.downlink_retransmit_count) + 1)%Z s))).
Proof.
  intros H. unfold Alp.re_transmit. fold (resend_limit cause).
  apply Z.ltb_lt in H. by rewrite H.
Qed.

Lemma re_transmit_at_limit cause s :
  s.(Alp.downlink_retransmit_count) = resend_limit cause ->
  Alp.re_transmit cause s
  = if Alp.list_in linefault (s.(Alp.active_faults))
    then Alp.session_finish s
    else Alp.send_fault_detected "linefault" "No reply within retransmit count limit"
           (Alp.set_active_faults (s.(Alp.active_faults) ++ [linefault])
              (Alp.session_finish s)).
Proof.
  intros H. unfold Alp.re_transmit. fold (resend_limit cause).
  rewrite H, Z.ltb_irrefl, Z.eqb_refl. cbv zeta.
  change (Alp.active_faults (Alp.session_finish s)) with (Alp.active_faults s).
  by destruct (Alp.list_in _ _).
Qed.

Lemma re_transmit_above cause s :
  (resend_limit cause < s.(Alp.downlink_retransmit_count))%Z ->
  Alp.re_transmit cause s = s.
Proof.
  intros H. unfold Alp.re_transmit. fold (resend_limit cause).
  destruct (Z.ltb_spec (Alp.downlink_retransmit_count s) (resend_limit cause));
    [lia|].
  destruct (Z.eqb_spec (Alp.downlink_retransmit_count s) (resend_limit cause));
    [lia|done].
Qed.

(** The call at the limit: the session is finished, "linefault" is in
    [active_faults], and the fault is reported unless it was there. *)
Lemma re_transmit_limit_effect cause s :
  s.(Alp.downlink_retransmit_count) = resend_limit cause ->
  let s1 := Alp.re_transmit cause s in
  s1.(Alp.session_state) = Alp.SESSION_FINISHED
  /\ s1.(Alp.downlink_retransmit_count) = 0%Z
  /\ s1.(Alp.downlink_buffer) = []
  /\ Alp.list_in linefault (s1.(Alp.active_faults)) = true
  /\ s1.(Alp.written) = s.(Alp.written)
  /\ s1.(Alp.upstream)
     = s.(Alp.upstream)
       ++ (if Alp.list_in linefault (s.(Alp.active_faults)) then []
           else [fault_detected])
  /\ s1.(Alp.active_faults)
     = s.(Alp.active_faults)
       ++ (if Alp.list_in linefault (s.(Alp.active_faults)) then []
           else [linefault]).
Proof.
  intros H s1. subst s1. rewrite re_transmit_at_limit by done.
  destruct (Alp.list_in linefault (Alp.active_faults s)) eqn:E.
  - cbn. rewrite !app_nil_r. done.
  - cbn. rewrite list_in_app, E, list_in_self. done.
Qed.

(** C7 (as amended).  The Re-transmit call at which [retransmit_count]
    equals the applicable limit finishes the session (state FINISHED,
    count reset to 0, downlink slot emptied) and leaves "linefault" in
    [active_faults].  A subsequent Re-transmit call in that state is not a
    no-op: it leaves the session state, the downlink slot and the
    active-faults set unchanged and reports nothing upward, but it
    increments [retransmit_count] from 0 to 1, updates
    [latest_downlink_event_time], and issues one write of the (empty)
    downlink slot to the port. *)
Theorem re_transmit_after_limit (cause cause' : Alp.MessageState) (s : Alp.AlpPort) :
  s.(Alp.downlink_retransmit_count) = resend_limit cause ->
  (Alp.session_state (Alp.re_transmit cause s) = Alp.SESSION_FINISHED
   /\ Alp.downlink_retransmit_count (Alp.re_transmit cause s) = 0%Z
   /\ Alp.downlink_buffer (Alp.re_transmit cause s) = []
   /\ Alp.list_in linefault (Alp.active_faults (Alp.re_transmit cause s)) = true)
  /\ Alp.session_state (Alp.re_transmit cause' (Alp.re_transmit cause s))
     = Alp.SESSION_FINISHED
  /\ Alp.downlink_buffer (Alp.re_transmit cause' (Alp.re_transmit cause s)) = []
  /\ Alp.active_faults (Alp.re_transmit cause' (Alp.re_transmit cause s))
     = Alp.active_faults (Alp.re_transmit cause s)
  /\ Alp.upstream (Alp.re_transmit cause' (Alp.re_transmit cause s))
     = Alp.upstream (Alp.re_transmit cause s)
  /\ Alp.downlink_retransmit_count (Alp.re_transmit cause' (Alp.re_transmit cause s))
     = 1%Z
  /\ Alp.written (Alp.re_transmit cause' (Alp.re_transmit cause s))
     = Alp.written (Alp.re_transmit cause s) ++ [([], false)]
  /\ Alp.latest_downlink_event_time (Alp.re_transmit cause' (Alp.re_transmit cause s))
     = Alp.clock (Alp.re_transmit cause s) (Alp.clock_reads (Alp.re_transmit cause s)).
Proof.
  intros H.
  destruct (re_transmit_limit_effect cause s H) as (Hst & Hc & Hb & Hin & _).
  set (s1 := Alp.re_transmit cause s) in *.
  split; [done|].
  rewrite (re_transmit_below cause' s1)
    by (rewrite Hc; destruct cause'; reflexivity).
  cbn. rewrite Hst, Hb, Hc. done.
Qed.

Lemma re_transmit_after_limit_witness :
  Alp.downlink_retransmit_count (ticks 10 demo_sent) = 10%Z
  /\ Alp.downlink_retransmit_count
       (Alp.re_transmit Alp.MESSAGE_STATE_NACKED
          (Alp.re_transmit Alp.MESSAGE_STATE_NO_REPLY (ticks 10 demo_sent)))
     = 1%Z.
Proof.
  split; [by vm_compute|].
  destruct (re_transmit_after_limit Alp.MESSAGE_STATE_NO_REPLY
              Alp.MESSAGE_STATE_NACKED (ticks 10 demo_sent))
    as (_ & _ & _ & _ & _ & H & _); [by vm_compute|exact H].
Defined.

(** C7 as stated fails on the port that sent one message and then saw
    ten silent ticks: the Re-transmit call at the limit finishes the
    session with count 0, and the next call raises the count to 1 and
    writes the empty slot. *)
Lemma re_transmit_after_limit_counterexample :
  Alp.downlink_retransmit_count (ticks 10 demo_sent) = Alp.RESEND_LIMIT
  /\ Alp.downlink_retransmit_count
       (Alp.re_transmit Alp.MESSAGE_STATE_NO_REPLY (ticks 10 demo_sent)) = 0%Z
  /\ Alp.downlink_retransmit_count
       (Alp.re_transmit Alp.MESSAGE_STATE_NO_REPLY
          (Alp.re_transmit Alp.MESSAGE_STATE_NO_REPLY (ticks 10 demo_sent)))
     = 1%Z
  /\ Alp.written
       (Alp.re_transmit Alp.MESSAGE_STATE_NO_REPLY
          (Alp.re_transmit Alp.MESSAGE_STATE_NO_REPLY (ticks 10 demo_sent)))
     = Alp.written
         (Alp.re_transmit Alp.MESSAGE_STATE_NO_REPLY (ticks 10 demo_sent))
       ++ [([], false)].
Proof. split; [|split; [|split]]; by vm_compute. Qed.

(** ** Silence after a transmission *)

(** A due tick of an open port in an active session, below the limit:
    one retransmission. *)
Lemma tick_retransmit s :
  s.(Alp.port) = true -> Alp.session_is_active s = true ->
  (s.(Alp.downlink_retransmit_count) < Alp.RESEND_LIMIT)%Z ->
  due s = true ->
  Alp.session_diagnostics s
  = (true,
     Alp.write (s.(Alp.downlink_buffer)) false
       (Alp.set_latest_downlink_event_time
          (s.(Alp.clock) (S (s.(Alp.clock_reads))))
          (Alp.set_clock_reads (S (S (s.(Alp.clock_reads))))
             (Alp.set_downlink_retransmit_count
                (s.(Alp.downlink_retransmit_count) + 1)%Z s)))).
Proof.
  destruct s. unfold due, Alp.session_is_active. cbn.
  intros -> Hact Hlt Hdue.
  unfold Alp.session_diagnostics, Alp.session_is_active, Alp.time_time. cbn.
  rewrite Hact, Hdue.
  rewrite (re_transmit_below Alp.MESSAGE_STATE_NO_REPLY) by done. done.
Qed.

(** A due tick at the limit: the session is finished. *)
Lemma tick_limit s :
  s.(Alp.port) = true -> Alp.session_is_active s = true ->
  s.(Alp.downlink_retransmit_count) = Alp.RESEND_LIMIT ->
  due s = true ->
  Alp.session_diagnostics s
  = (true,
     Alp.re_transmit Alp.MESSAGE_STATE_NO_REPLY
       (Alp.set_clock_reads (S (s.(Alp.clock_reads))) s)).
Proof.
  destruct s. unfold due, Alp.session_is_active. cbn.
  intros -> Hact Hlim Hdue.
  unfold Alp.session_diagnostics, Alp.session_is_active, Alp.time_time. cbn.
  by rewrite Hact, Hdue.
Qed.

Lemma all_due_add n m s :
  all_due (n + m) s = all_due n s && all_due m (ticks n s).
Proof.
  revert s. induction n as [|n IH]; intros s; [done|].
  cbn [Nat.add all_due ticks]. by rewrite IH, andb_assoc.
Qed.

(** [k] due ticks that stay below the limit: [k] retransmissions of the
    same downlink slot, and nothing else changes in the session. *)
Lemma ticks_silent k :
  forall s,
    s.(Alp.port) = true -> Alp.session_is_active s = true ->
    (s.(Alp.downlink_retransmit_count) + Z.of_nat k <= Alp.RESEND_LIMIT)%Z ->
    all_due k s = true ->
    (ticks k s).(Alp.port) = true
    /\ (ticks k s).(Alp.session_state) = s.(Alp.session_state)
    /\ (ticks k s).(Alp.downlink_retransmit_count)
       = (s.(Alp.downlink_retransmit_count) + Z.of_nat k)%Z
    /\ (ticks k s).(Alp.written)
       = s.(Alp.written) ++ replicate k (s.(Alp.downlink_buffer), false)
    /\ (ticks k s).(Alp.downlink_buffer) = s.(Alp.downlink_buffer)
    /\ (ticks k s).(Alp.active_faults) = s.(Alp.active_faults)
    /\ (ticks k s).(Alp.upstream) = s.(Alp.upstream).
Proof.
  induction k as [|k IH]; intros s Hport Hact Hc Hdue.
  - cbn [ticks replicate]. rewrite Z.add_0_r, app_nil_r. done.
  - cbn [all_due] in Hdue. apply andb_true_iff in Hdue as [Hd Hdue].
    cbn [ticks].
    assert (Hs1 : tick s
      = Alp.write (s.(Alp.downlink_buffer)) false
          (Alp.set_latest_downlink_event_time
             (s.(Alp.clock) (S (s.(Alp.clock_reads))))
             (Alp.set_clock_reads (S (S (s.(Alp.clock_reads))))
                (Alp.set_downlink_retransmit_count
                   (s.(Alp.downlink_retransmit_count) + 1)%Z s)))).
    { unfold tick. rewrite tick_retransmit by (done || lia). done. }
    rewrite Hs1 in *.
    set (s1 := Alp.write _ _ _) in *.
    destruct (IH s1) as (H1 & H2 & H3 & H4 & H5 & H6 & H7);
      [done|done|subst s1; cbn; lia|done|].
    rewrite H1, H2, H3, H4, H5, H6, H7. subst s1. cbn.
    rewrite <- app_assoc. cbn [app].
    repeat split; try done. lia.
Qed.

(** C2 (as amended).  Starting from a port that is open, in an active
    session with a downlink in flight, retransmit count 0 and no
    linefault, with no ACK received: each of the first ten diagnostic
    ticks that occur at least 4.5 s after the latest downlink event
    rewrites the downlink slot once and increments [retransmit_count] by
    one, leaving the session active, so that after ten such ticks the
    count is RESEND_LIMIT = 10 and the slot has been rewritten ten times;
    the eleventh such tick writes nothing, leaves the session FINISHED,
    puts "linefault" in [active_faults] and emits the one fault-detected
    notification. *)
Theorem retransmit_bound (s : Alp.AlpPort) :
  s.(Alp.port) = true -> Alp.session_is_active s = true ->
  s.(Alp.downlink_retransmit_count) = 0%Z ->
  Alp.list_in linefault (s.(Alp.active_faults)) = false ->
  all_due 11 s = true ->
  (forall k, k <= 10 ->
     (ticks k s).(Alp.downlink_retransmit_count) = Z.of_nat k
     /\ (ticks k s).(Alp.written)
        = s.(Alp.written) ++ replicate k (s.(Alp.downlink_buffer), false)
     /\ (ticks k s).(Alp.session_state) = s.(Alp.session_state)
     /\ (ticks k s).(Alp.active_faults) = s.(Alp.active_faults)
     /\ (ticks k s).(Alp.upstream) = s.(Alp.upstream))
  /\ (ticks 11 s).(Alp.session_state) = Alp.SESSION_FINISHED
  /\ Alp.list_in linefault ((ticks 11 s).(Alp.active_faults)) = true
  /\ (ticks 11 s).(Alp.upstream) = s.(Alp.upstream) ++ [fault_detected]
  /\ (ticks 11 s).(Alp.written)
     = s.(Alp.written) ++ replicate 10 (s.(Alp.downlink_buffer), false).
Proof.
  intros Hport Hact Hc Hlf Hdue.
  assert (Hk : forall k, k <= 10 -> all_due k s = true).
  { intros k Hk. replace 11 with (k + (11 - k)) in Hdue by lia.
    rewrite all_due_add in Hdue. by apply andb_true_iff in Hdue as [? _]. }
  split.
  - intros k Hle.
    destruct (ticks_silent k s Hport Hact) as (_ & H2 & H3 & H4 & _ & H6 & H7);
      [rewrite Hc; unfold Alp.RESEND_LIMIT; lia|by apply Hk|].
    rewrite H3, Hc. done.
  - destruct (ticks_silent 10 s Hport Hact) as (H1 & H2 & H3 & H4 & H5 & H6 & H7);
      [rewrite Hc; done|by apply Hk|].
    change 11 with (10 + 1) in Hdue |- *.
    rewrite all_due_add in Hdue. apply andb_true_iff in Hdue as [_ Hlast].
    cbn [all_due] in Hlast. rewrite andb_true_r in Hlast.
    assert (Hticks : forall s, ticks (10 + 1) s = tick (ticks 10 s)).
    { intros s'. clear. change (10 + 1) with 11. cbn [ticks]. done. }
    rewrite Hticks. set (s10 := ticks 10 s) in *. clearbody s10.
    unfold tick. rewrite tick_limit; cycle 1.
    + done.
    + unfold Alp.session_is_active in *. by rewrite H2.
    + rewrite H3, Hc. done.
    + done.
    + cbn [snd].
      set (s10' := Alp.set_clock_reads _ s10).
      destruct (re_transmit_limit_effect Alp.MESSAGE_STATE_NO_REPLY s10')
        as (E1 & _ & _ & E4 & E5 & E6 & _).
      { subst s10'. cbn. rewrite H3, Hc. done. }
      rewrite E1, E4, E5, E6. subst s10'. cbn.
      rewrite H6, H7, H4, Hlf. done.
Qed.

Lemma retransmit_bound_witness :
  Alp.downlink_retransmit_count (ticks 1 demo_sent) = 1%Z
  /\ Alp.session_state (ticks 11 demo_sent) = Alp.SESSION_FINISHED
  /\ Alp.list_in linefault (Alp.active_faults (ticks 11 demo_sent)) = true
  /\ Alp.upstream (ticks 11 demo_sent) = Alp.upstream demo_sent ++ [fault_detected].
Proof.
  destruct (retransmit_bound demo_sent) as (Hk & Hst & Hlf & Hup & _).
  - vm_compute. reflexivity.
  - vm_compute. reflexivity.
  - vm_compute. reflexivity.
  - vm_compute. reflexivity.
  - vm_compute. reflexivity.
  - destruct (Hk 1) as [H1 _]; [repeat constructor|].
    split; [exact H1|]. split; [exact Hst|]. split; [exact Hlf|exact Hup].
Defined.

(** C2 as stated fails in its own scenario.  A new port transmits one
    message and hears nothing; the clock advances 5 s between readings,
    so every tick is due.  After ten ticks the count is 10, the slot has
    been rewritten ten times, but the session is still ACTIVE_MASTER,
    there is no linefault and nothing went upstream. *)
Lemma retransmit_bound_counterexample :
  Alp.downlink_retransmit_count demo_sent = 0%Z
  /\ Alp.session_state demo_sent = Alp.SESSION_ACTIVE_MASTER
  /\ all_due 10 demo_sent = true
  /\ Alp.downlink_retransmit_count (ticks 10 demo_sent) = 10%Z
  /\ Alp.session_state (ticks 10 demo_sent) = Alp.SESSION_ACTIVE_MASTER
  /\ Alp.active_faults (ticks 10 demo_sent) = []
  /\ Alp.upstream (ticks 10 demo_sent) = [].
Proof.
  split; [|split; [|split; [|split; [|split; [|split]]]]];
    vm_compute; reflexivity.
Qed.

(** ** Control bytes *)

(** [check_control_char] by the value of the first byte. *)
Lemma check_control_char_cases data s :
  Alp.check_control_char data s
  = match data with
    | [] => (false, s)
    | b :: _ =>
        if (b =? 0x06)%Z then (true, Alp.session_finish s)
        else if (b =? 0x15)%Z then (true, Alp.re_transmit Alp.MESSAGE_STATE_NACKED s)
        else if (b =? 0x04)%Z then (true, Alp.session_finish s)
        else if (b =? 0x05)%Z then (true, Alp.session_finish (Alp.send_eot s))
        else (false, s)
    end.
Proof.
  unfold Alp.check_control_char, Alp.ACK, Alp.NAK, Alp.EOT, Alp.ENQ.
  destruct data as [|b rest]; [done|].
  repeat lazymatch goal with
  | |- context [(b =? ?c)%Z] =>
      destruct (Z.eqb_spec b c) as [->|?];
        [done|rewrite (bool_decide_eq_false_2 (Some [b] = Some [c])) by congruence]
  end.
  done.
Qed.

Lemma check_control_char_false data s s' :
  Alp.check_control_char data s = (false, s') -> s' = s.
Proof.
  rewrite check_control_char_cases. destruct data as [|b rest]; [congruence|].
  repeat destruct (_ =? _)%Z; congruence.
Qed.

(** A turn of the loop whose buffer starts with a control byte consumes
    that byte and does not look at the rest. *)
Lemma on_receive_iter_control SNAPMsg_Parse s s' data valid :
  Alp.check_control_char data s = (true, s') ->
  Alp.on_receive_iter SNAPMsg_Parse s data valid
  = Some (Alp.consume_rx_buffer 1 s', drop 1 (s'.(Alp.rx_buffer)), 1, true).
Proof. intros H. unfold Alp.on_receive_iter. rewrite H. done. Qed.

(** A turn of the loop whose buffer does not start with a control byte
    is decided by [Parse]. *)
Lemma on_receive_iter_parse SNAPMsg_Parse s data valid :
  fst (Alp.check_control_char data s) = false ->
  Alp.on_receive_iter SNAPMsg_Parse s data valid
  = ('(consumed, nack, snap_frame) ← AlpFrame.Parse data;
     let '(s, data) :=
       if negb (consumed =? 0)
       then (Alp.consume_rx_buffer consumed s, drop consumed (s.(Alp.rx_buffer)))
       else (s, data) in
     '(s, valid) ←
       (if nack : bool then Some (Alp.send_nak s, valid)
        else
          match snap_frame with
          | None | Some [] =>
              if (consumed =? 0) && (Alp.RX_BUFFER_MAX_LEN <=? length data)
              then Some (Alp.session_finish
                           (Alp.send_nak (Alp.clear_rx_buffer s)), valid)
              else Some (s, valid)
          | Some snap_frame =>
              let s := if negb (Alp.session_is_active s)
                       then Alp.session_begin Alp.SESSION_ACTIVE_CLIENT s else s in
              let msg := SNAPMsg_Parse snap_frame in
              '(s, valid) ←
                (if negb (msg.(empty)) then
                   s ← Alp.dispatch msg s; Some (s, true)
                 else Some (s, valid));
              Some (Alp.send_ack s, valid)
          end);
     Some (s, data, consumed, valid)).
Proof.
  intros H. unfold Alp.on_receive_iter.
  destruct (Alp.check_control_char data s) as [c s'] eqn:E. cbn in H. subst c.
  apply check_control_char_false in E as ->.
  destruct (AlpFrame.Parse data) as [[[c nack] fr]|]; [|done].
  cbn [mbind option_bind]. done.
Qed.

Lemma re_transmit_rx_buffer cause s :
  (Alp.re_transmit cause s).(Alp.rx_buffer) = s.(Alp.rx_buffer).
Proof. unfold Alp.re_transmit. by_cases. Qed.

Lemma transmit_control_char_rx_buffer char s :
  (Alp.transmit_control_char char s).(Alp.rx_buffer) = s.(Alp.rx_buffer).
Proof. unfold Alp.transmit_control_char, Alp.time_time. by_cases. Qed.

Lemma session_finish_rx_buffer s :
  (Alp.session_finish s).(Alp.rx_buffer) = s.(Alp.rx_buffer).
Proof. done. Qed.

Lemma on_receive_loop_stop SNAPMsg_Parse fuel s data consumed valid :
  consumed = 0 \/ data = [] ->
  Alp.on_receive_loop SNAPMsg_Parse fuel s data consumed valid
  = Some (s, data, valid).
Proof.
  intros [->| ->]; destruct fuel; cbn [Alp.on_receive_loop]; try done;
    by rewrite andb_false_r.
Qed.

Lemma on_receive_loop_step SNAPMsg_Parse fuel s data consumed valid :
  consumed <> 0 -> data <> [] ->
  Alp.on_receive_loop SNAPMsg_Parse (S fuel) s data consumed valid
  = ('(s, data, consumed, valid) ← Alp.on_receive_iter SNAPMsg_Parse s data valid;
     Alp.on_receive_loop SNAPMsg_Parse fuel s data consumed valid).
Proof.
  intros Hc Hd. cbn [Alp.on_receive_loop].
  destruct consumed; [done|]. destruct data; [done|]. done.
Qed.

Lemma on_receive_end_frame s data valid :
  (Alp.on_receive_end s data valid).(Alp.session_state)
  = (if length data =? 0 then Alp.SESSION_FINISHED else s.(Alp.session_state))
  /\ (Alp.on_receive_end s data valid).(Alp.written) = s.(Alp.written)
  /\ (Alp.on_receive_end s data valid).(Alp.rx_buffer) = s.(Alp.rx_buffer).
Proof. unfold Alp.on_receive_end, Alp.time_time. cbv zeta. by_cases. Qed.

(** C4.  A receive buffer whose first byte is ACK (0x06), NAK (0x15),
    EOT (0x04) or ENQ (0x05) is handled as a control event: the turn of
    the receive loop is decided without parsing the buffer and consumes
    exactly one byte.  ACK and EOT finish the session (downlink slot
    cleared, retransmit count 0, state FINISHED); NAK re-transmits the
    downlink slot as a NACKED resend, under the limit RESEND_LIMIT_NAK =
    5: below the limit the downlink slot is written to the port once
    more, the retransmit count goes up by one and the downlink timestamp
    is taken anew, with the slot and the session as they were; at the
    limit nothing is written, the session is finished and the line fault
    raised; above it the call changes nothing.  ENQ writes EOT to the
    port and then finishes the session.  From IDLE, receiving the single
    byte 0x05 leaves the session FINISHED with EOT (0x04) written to the
    port. *)
Theorem control_bytes (SNAPMsg_Parse : list Z -> SNAPMsg) (s : Alp.AlpPort)
    (rest : list Z) (valid : bool) :
  Alp.on_receive_iter SNAPMsg_Parse s (0x06%Z :: rest) valid
  = Some (Alp.consume_rx_buffer 1 (Alp.session_finish s),
          drop 1 (s.(Alp.rx_buffer)), 1, true)
  /\ Alp.on_receive_iter SNAPMsg_Parse s (0x15%Z :: rest) valid
     = Some (Alp.consume_rx_buffer 1 (Alp.re_transmit Alp.MESSAGE_STATE_NACKED s),
             drop 1 (s.(Alp.rx_buffer)), 1, true)
  /\ Alp.on_receive_iter SNAPMsg_Parse s (0x04%Z :: rest) valid
     = Some (Alp.consume_rx_buffer 1 (Alp.session_finish s),
             drop 1 (s.(Alp.rx_buffer)), 1, true)
  /\ Alp.on_receive_iter SNAPMsg_Parse s (0x05%Z :: rest) valid
     = Some (Alp.consume_rx_buffer 1 (Alp.session_finish (Alp.send_eot s)),
             drop 1 (s.(Alp.rx_buffer)), 1, true)
  /\ ((Alp.session_finish s).(Alp.downlink_buffer) = []
      /\ (Alp.session_finish s).(Alp.downlink_retransmit_count) = 0%Z
      /\ (Alp.session_finish s).(Alp.session_state) = Alp.SESSION_FINISHED
      /\ (Alp.session_finish s).(Alp.written) = s.(Alp.written))
  /\ ((s.(Alp.downlink_retransmit_count) < Alp.RESEND_LIMIT_NAK)%Z ->
      (Alp.re_transmit Alp.MESSAGE_STATE_NACKED s).(Alp.written)
      = s.(Alp.written) ++ [(s.(Alp.downlink_buffer), false)]
      /\ (Alp.re_transmit Alp.MESSAGE_STATE_NACKED s).(Alp.downlink_retransmit_count)
         = (s.(Alp.downlink_retransmit_count) + 1)%Z
      /\ (Alp.re_transmit Alp.MESSAGE_STATE_NACKED s).(Alp.latest_downlink_event_time)
         = s.(Alp.clock) (s.(Alp.clock_reads))
      /\ (Alp.re_transmit Alp.MESSAGE_STATE_NACKED s).(Alp.downlink_buffer)
         = s.(Alp.downlink_buffer)
      /\ (Alp.re_transmit Alp.MESSAGE_STATE_NACKED s).(Alp.session_state)
         = s.(Alp.session_state)
      /\ (Alp.re_transmit Alp.MESSAGE_STATE_NACKED s).(Alp.upstream)
         = s.(Alp.upstream)
      /\ (Alp.re_transmit Alp.MESSAGE_STATE_NACKED s).(Alp.active_faults)
         = s.(Alp.active_faults))
  /\ (s.(Alp.downlink_retransmit_count) = Alp.RESEND_LIMIT_NAK ->
      (Alp.re_transmit Alp.MESSAGE_STATE_NACKED s).(Alp.written) = s.(Alp.written)
      /\ (Alp.re_transmit Alp.MESSAGE_STATE_NACKED s).(Alp.session_state)
         = Alp.SESSION_FINISHED
      /\ (Alp.re_transmit Alp.MESSAGE_STATE_NACKED s).(Alp.downlink_retransmit_count)
         = 0%Z
      /\ (Alp.re_transmit Alp.MESSAGE_STATE_NACKED s).(Alp.downlink_buffer) = []
      /\ Alp.list_in linefault
           ((Alp.re_transmit Alp.MESSAGE_STATE_NACKED s).(Alp.active_faults))
         = true
      /\ (Alp.re_transmit Alp.MESSAGE_STATE_NACKED s).(Alp.upstream)
         = s.(Alp.upstream)
           ++ (if Alp.list_in linefault (s.(Alp.active_faults)) then []
               else [fault_detected]))
  /\ ((Alp.RESEND_LIMIT_NAK < s.(Alp.downlink_retransmit_count))%Z ->
      Alp.re_transmit Alp.MESSAGE_STATE_NACKED s = s)
  /\ ((Alp.session_finish (Alp.send_eot s)).(Alp.written)
      = s.(Alp.written) ++ [([0x04%Z], true)]
      /\ (Alp.session_finish (Alp.send_eot s)).(Alp.session_state)
         = Alp.SESSION_FINISHED)
  /\ (s.(Alp.session_state) = Alp.SESSION_IDLE ->
      s.(Alp.rx_buffer) = [0x05%Z] ->
      exists s',
        Alp.on_receive SNAPMsg_Parse [0x05%Z] s = Some s'
        /\ s'.(Alp.session_state) = Alp.SESSION_FINISHED
        /\ s'.(Alp.written) = s.(Alp.written) ++ [([0x04%Z], true)]
        /\ s'.(Alp.rx_buffer) = []).
Proof.
  assert (Heot : (Alp.session_finish (Alp.send_eot s)).(Alp.written)
                 = s.(Alp.written) ++ [([0x04%Z], true)]).
  { unfold Alp.send_eot, Alp.transmit_control_char, Alp.time_time. by_cases. }
  repeat lazymatch goal with
  | |- Alp.on_receive_iter _ _ _ _ = _ /\ _ =>
      split;
      [erewrite on_receive_iter_control
         by (rewrite check_control_char_cases; reflexivity);
       rewrite ?session_finish_rx_buffer, ?re_transmit_rx_buffer;
       unfold Alp.send_eot; rewrite ?transmit_control_char_rx_buffer;
       reflexivity|]
  end.
  split; [done|].
  split.
  { intros Hlt.
    rewrite (re_transmit_below Alp.MESSAGE_STATE_NACKED s) by exact Hlt.
    done. }
  split.
  { intros Heq.
    destruct (re_transmit_limit_effect Alp.MESSAGE_STATE_NACKED s Heq)
      as (E1 & E2 & E3 & E4 & E5 & E6 & _).
    done. }
  split.
  { intros Hgt. by apply (re_transmit_above Alp.MESSAGE_STATE_NACKED). }
  split; [done|].
  intros Hidle Hrx. unfold Alp.on_receive. rewrite Hrx.
  rewrite on_receive_loop_step by done.
  erewrite on_receive_iter_control
    by (rewrite check_control_char_cases; reflexivity).
  cbn [mbind option_bind].
  rewrite session_finish_rx_buffer. unfold Alp.send_eot at 2.
  rewrite transmit_control_char_rx_buffer, Hrx. cbn [drop].
  rewrite on_receive_loop_stop by (by right). cbn [mbind option_bind].
  eexists. split; [reflexivity|].
  destruct (on_receive_end_frame
              (Alp.consume_rx_buffer 1 (Alp.session_finish (Alp.send_eot s)))
              [] true) as (-> & -> & ->).
  split; [done|]. split; [exact Heot|].
  change (Alp.rx_buffer (Alp.consume_rx_buffer 1 (Alp.session_finish (Alp.send_eot s))))
    with (drop 1 (Alp.rx_buffer (Alp.send_eot s))).
  unfold Alp.send_eot. by rewrite transmit_control_char_rx_buffer, Hrx.
Qed.

Lemma control_bytes_witness :
  (exists s',
     Alp.on_receive demo_SNAPMsg_Parse [0x05%Z]
       (Alp.set_rx_buffer [0x05%Z] demo_port) = Some s'
     /\ s'.(Alp.session_state) = Alp.SESSION_FINISHED
     /\ s'.(Alp.written) = [([0x04%Z], true)]
     /\ s'.(Alp.rx_buffer) = [])
  /\ Alp.on_receive_iter demo_SNAPMsg_Parse demo_sent [0x15%Z] false
     = Some (Alp.consume_rx_buffer 1
               (Alp.re_transmit Alp.MESSAGE_STATE_NACKED demo_sent),
             drop 1 (demo_sent.(Alp.rx_buffer)), 1, true)
  /\ (Alp.re_transmit Alp.MESSAGE_STATE_NACKED demo_sent).(Alp.written)
     = demo_sent.(Alp.written) ++ [(demo_sent.(Alp.downlink_buffer), false)]
  /\ (Alp.re_transmit Alp.MESSAGE_STATE_NACKED demo_sent).(Alp.downlink_retransmit_count)
     = 1%Z.
Proof.
  split.
  - destruct (control_bytes demo_SNAPMsg_Parse
                (Alp.set_rx_buffer [0x05%Z] demo_port) [] false)
      as (_ & _ & _ & _ & _ & _ & _ & _ & _ & H).
    apply H; reflexivity.
  - destruct (control_bytes demo_SNAPMsg_Parse demo_sent [] false)
      as (_ & Hnak & _ & _ & _ & Hbelow & _).
    split; [exact Hnak|].
    destruct Hbelow as (Hw & Hc & _); [vm_compute; reflexivity|].
    split; [exact Hw|]. rewrite Hc. vm_compute. reflexivity.
Defined.

(** ** What a turn of the receive loop writes *)

Lemma transmit_control_char_written char s :
  (Alp.transmit_control_char char s).(Alp.written)
  = s.(Alp.written) ++ [(char, true)].
Proof. unfold Alp.transmit_control_char, Alp.time_time. by_cases. Qed.

Lemma on_message_hhl_cases msg s s' :
  Alp.on_message_hhl msg s = Some s' ->
  s' = s \/ exists alarm content, s' = Alp.send_cloud_alarm alarm content s.
Proof.
  unfold Alp.on_message_hhl, Alp.log_discarded_msg, Alp.VERBOSE_DEBUG.
  destruct (Alp.hhl_content msg); intros [= <-]; by eauto.
Qed.

Lemma on_message_prodex_cases msg s s' :
  Alp.on_message_prodex msg s = Some s' ->
  s' = s \/ exists alarm content, s' = Alp.send_cloud_alarm alarm content s.
Proof.
  unfold Alp.on_message_prodex, Alp.log_discarded_msg, Alp.VERBOSE_DEBUG.
  destruct (Alp.prodex_rewrite msg) as [[? ?]|]; intros [= <-]; by eauto.
Qed.

(** A message dispatched to its handler either raises, or is dropped, or
    goes to the alarm sink; the port is otherwise untouched. *)
Lemma dispatch_cases msg s s' :
  Alp.dispatch msg s = Some s' ->
  s' = s \/ exists alarm content, s' = Alp.send_cloud_alarm alarm content s.
Proof.
  unfold Alp.dispatch.
  destruct (String.eqb _ "hhl"); [apply on_message_hhl_cases|].
  destruct (String.eqb _ "prodex"); [apply on_message_prodex_cases|].
  intros [= <-]. by left.
Qed.

Lemma hhl_content_Discarded msg :
  Alp.hhl_content msg = Alp.Discarded <-> hhl_raises msg = true.
Proof.
  unfold Alp.hhl_content, hhl_raises. cbv zeta.
  z_cases; split; congruence.
Qed.

Lemma prodex_rewrite_None msg :
  Alp.prodex_rewrite msg = None <-> prodex_forwards msg = false.
Proof.
  unfold Alp.prodex_rewrite, prodex_forwards. cbv zeta.
  z_cases; split; congruence.
Qed.

(** The handlers raise on exactly the messages they log as discarded. *)
Lemma dispatch_None msg s :
  Alp.dispatch msg s = None
  <-> dispatch_raises (s.(Alp.serial_snap_proto)) msg = true.
Proof.
  unfold Alp.dispatch, dispatch_raises.
  destruct (String.eqb _ "hhl").
  - rewrite <- hhl_content_Discarded.
    unfold Alp.on_message_hhl, Alp.log_discarded_msg, Alp.VERBOSE_DEBUG.
    destruct (Alp.hhl_content msg); split; done.
  - destruct (String.eqb _ "prodex"); [|done].
    rewrite negb_true_iff, <- prodex_rewrite_None.
    unfold Alp.on_message_prodex, Alp.log_discarded_msg, Alp.VERBOSE_DEBUG.
    destruct (Alp.prodex_rewrite msg) as [[? ?]|]; split; done.
Qed.

Lemma dispatch_Some msg s :
  dispatch_raises (s.(Alp.serial_snap_proto)) msg = false ->
  exists s', Alp.dispatch msg s = Some s'.
Proof.
  intros H. destruct (Alp.dispatch msg s) as [s'|] eqn:E; [by eauto|].
  apply dispatch_None in E. congruence.
Qed.

Lemma dispatch_written msg s s' :
  Alp.dispatch msg s = Some s' ->
  s'.(Alp.written) = s.(Alp.written)
  /\ s'.(Alp.rx_buffer) = s.(Alp.rx_buffer)
  /\ s'.(Alp.serial_snap_proto) = s.(Alp.serial_snap_proto)
  /\ s'.(Alp.session_state) = s.(Alp.session_state)
  /\ s'.(Alp.clock) = s.(Alp.clock)
  /\ s'.(Alp.clock_reads) = s.(Alp.clock_reads)
  /\ s'.(Alp.message_counter) = s.(Alp.message_counter)
  /\ s'.(Alp.latest_uplink_event_time) = s.(Alp.latest_uplink_event_time).
Proof. intros H. by destruct (dispatch_cases msg s s' H) as [->|(al & ct & ->)]. Qed.

(** C6.  When [Parse] returns [consumed = 0] on a receive buffer of at
    least RX_BUFFER_MAX_LEN = 1024 bytes, that turn of [on_receive]
    clears the whole receive buffer, writes NAK to the port and finishes
    the session, and the loop ends there.  On a buffer of fewer than 1024
    bytes a [consumed = 0] result changes nothing: the loop ends and the
    buffer is kept for the next chunk. *)
Theorem buffer_overrun (SNAPMsg_Parse : list Z -> SNAPMsg) (s : Alp.AlpPort)
    (data : list Z) (valid nack : bool) (fr : option (list Z)) :
  fst (Alp.check_control_char data s) = false ->
  AlpFrame.Parse data = Some (0, nack, fr) ->
  (Alp.RX_BUFFER_MAX_LEN <= length data ->
   exists s',
     Alp.on_receive_iter SNAPMsg_Parse s data valid = Some (s', data, 0, valid)
     /\ s'.(Alp.rx_buffer) = []
     /\ s'.(Alp.written) = s.(Alp.written) ++ [(Alp.NAK, true)]
     /\ s'.(Alp.session_state) = Alp.SESSION_FINISHED
     /\ s'.(Alp.downlink_buffer) = []
     /\ s'.(Alp.downlink_retransmit_count) = 0%Z
     /\ (forall fuel consumed, consumed <> 0 ->
           Alp.on_receive_loop SNAPMsg_Parse (S fuel) s data consumed valid
           = Some (s', data, valid))
     /\ (Alp.on_receive_end s' data valid).(Alp.session_state)
        = Alp.SESSION_FINISHED
     /\ (Alp.on_receive_end s' data valid).(Alp.rx_buffer) = [])
  /\ (length data < Alp.RX_BUFFER_MAX_LEN ->
      Alp.on_receive_iter SNAPMsg_Parse s data valid = Some (s, data, 0, valid)
      /\ (forall fuel consumed, consumed <> 0 -> data <> [] ->
            Alp.on_receive_loop SNAPMsg_Parse (S fuel) s data consumed valid
            = Some (s, data, valid))
      /\ (Alp.on_receive_end s data valid).(Alp.rx_buffer) = s.(Alp.rx_buffer)).
Proof.
  intros Hcc HP.
  destruct (Parse_zero _ _ _ HP) as (-> & -> & _).
  pose proof (on_receive_iter_parse SNAPMsg_Parse s data valid Hcc) as Hiter.
  rewrite HP in Hiter. cbn [mbind option_bind Nat.eqb negb andb] in Hiter.
  split.
  - intros Hbig. apply Nat.leb_le in Hbig. rewrite Hbig in Hiter.
    set (s' := Alp.session_finish (Alp.send_nak (Alp.clear_rx_buffer s))) in *.
    exists s'. split; [done|].
    assert (Hrx : s'.(Alp.rx_buffer) = []).
    { unfold s', Alp.send_nak.
      by rewrite session_finish_rx_buffer, transmit_control_char_rx_buffer. }
    assert (Hst : s'.(Alp.session_state) = Alp.SESSION_FINISHED) by done.
    split; [done|]. split.
    { unfold s', Alp.send_nak.
      change (Alp.written (Alp.session_finish ?x)) with (Alp.written x).
      by rewrite transmit_control_char_written. }
    split; [done|]. split; [done|]. split; [done|]. split.
    { intros fuel c Hc. rewrite on_receive_loop_step; [|done|].
      - rewrite Hiter. cbn [mbind option_bind].
        apply on_receive_loop_stop. by left.
      - intros ->. apply Nat.leb_le in Hbig. cbn in Hbig.
        unfold Alp.RX_BUFFER_MAX_LEN in Hbig. lia. }
    destruct (on_receive_end_frame s' data valid) as (-> & _ & ->).
    rewrite Hst. split; [by destruct (_ =? _)|done].
  - intros Hsmall. apply Nat.leb_gt in Hsmall. rewrite Hsmall in Hiter.
    split; [done|]. split.
    + intros fuel c Hc Hd. rewrite on_receive_loop_step by done.
      rewrite Hiter. cbn [mbind option_bind].
      apply on_receive_loop_stop. by left.
    + by destruct (on_receive_end_frame s data valid) as (_ & _ & ->).
Qed.

Lemma buffer_overrun_witness :
  exists s',
    Alp.on_receive_iter demo_SNAPMsg_Parse
      (Alp.set_rx_buffer demo_overrun demo_port) demo_overrun false
    = Some (s', demo_overrun, 0, false)
    /\ s'.(Alp.rx_buffer) = []
    /\ s'.(Alp.written) = [(Alp.NAK, true)]
    /\ s'.(Alp.session_state) = Alp.SESSION_FINISHED.
Proof.
  destruct (buffer_overrun demo_SNAPMsg_Parse
              (Alp.set_rx_buffer demo_overrun demo_port) demo_overrun
              false false None) as [Hbig _].
  - vm_compute. reflexivity.
  - vm_compute. reflexivity.
  - destruct Hbig as (s' & Hiter & Hrx & Hw & Hst & _).
    + apply Nat.leb_le. vm_compute. reflexivity.
    + exists s'. split; [exact Hiter|]. split; [exact Hrx|].
      split; [exact Hw|exact Hst].
Defined.

(** C10.  For every input buffer [Parse] returns, and the NAK flag and
    the decoded frame exclude each other: with a frame the flag is false,
    with the flag set there is no frame.  Hence a turn of [on_receive]
    that parses the buffer and returns has written nothing, or NAK alone,
    or ACK alone: never both for one parse result.  The turn does return,
    except that it raises exactly when the parse result is a frame, so
    with the flag false and no NAK, whose payload and SNAP message are not
    empty and whose message the protocol's handler logs as discarded. *)
Theorem nack_frame_exclusive (SNAPMsg_Parse : list Z -> SNAPMsg) :
  (forall data,
     exists consumed nack frame,
       AlpFrame.Parse data = Some (consumed, nack, frame)
       /\ (nack = true -> frame = None)
       /\ (forall f, frame = Some f -> nack = false))
  /\ (forall s data valid,
        fst (Alp.check_control_char data s) = false ->
        (forall s' data' consumed valid',
           Alp.on_receive_iter SNAPMsg_Parse s data valid
           = Some (s', data', consumed, valid') ->
           s'.(Alp.written) = s.(Alp.written)
           \/ s'.(Alp.written) = s.(Alp.written) ++ [(Alp.NAK, true)]
           \/ s'.(Alp.written) = s.(Alp.written) ++ [(Alp.ACK, true)])
        /\ (Alp.on_receive_iter SNAPMsg_Parse s data valid = None
            <-> exists c b f,
                  AlpFrame.Parse data = Some (c, false, Some (b :: f))
                  /\ (SNAPMsg_Parse (b :: f)).(empty) = false
                  /\ dispatch_raises (s.(Alp.serial_snap_proto))
                        (SNAPMsg_Parse (b :: f)) = true)).
Proof.
  split.
  - intros data. destruct (Parse_total data) as ([[c nack] fr] & HP & Ho).
    exists c, nack, fr. split; [done|].
    inversion Ho; subst; split; congruence.
  - intros s data valid Hcc.
    rewrite (on_receive_iter_parse SNAPMsg_Parse s data valid Hcc).
    destruct (Parse_total data) as ([[c nack] fr] & -> & Ho).
    cbn [mbind option_bind].
    set (s1 := if negb (c =? 0) then _ else _).
    assert (Hs1 : (fst s1).(Alp.written) = s.(Alp.written)
                  /\ (fst s1).(Alp.serial_snap_proto) = s.(Alp.serial_snap_proto)).
    { unfold s1. by destruct (negb _). }
    destruct s1 as [s1 data1]. cbn [fst] in Hs1. destruct Hs1 as [Hs1 Hp1].
    assert (Hnak : forall x, (Alp.send_nak x).(Alp.written)
                             = x.(Alp.written) ++ [(Alp.NAK, true)])
      by (intros; apply transmit_control_char_written).
    assert (Hack : forall x, (Alp.send_ack x).(Alp.written)
                             = x.(Alp.written) ++ [(Alp.ACK, true)])
      by (intros; apply transmit_control_char_written).
    assert (Hover : (Alp.session_finish (Alp.send_nak (Alp.clear_rx_buffer s1))).(Alp.written)
                    = s.(Alp.written) ++ [(Alp.NAK, true)]).
    { change (Alp.written (Alp.session_finish ?x)) with (Alp.written x).
      rewrite Hnak. by rewrite <- Hs1. }
    assert (Hnone : forall r,
      r = (if (c =? 0) && (Alp.RX_BUFFER_MAX_LEN <=? length data1)
           then Some (Alp.session_finish (Alp.send_nak (Alp.clear_rx_buffer s1)),
                      valid)
           else Some (s1, valid)) ->
      (forall s' data' consumed valid',
         ('(s2, valid2) ← r; Some (s2, data1, c, valid2))
         = Some (s', data', consumed, valid') ->
         s'.(Alp.written) = s.(Alp.written)
         \/ s'.(Alp.written) = s.(Alp.written) ++ [(Alp.NAK, true)]
         \/ s'.(Alp.written) = s.(Alp.written) ++ [(Alp.ACK, true)])
      /\ ('(s2, valid2) ← r; Some (s2, data1, c, valid2)) <> None).
    { intros r ->. destruct (_ && _); cbn [mbind option_bind];
        (split; [intros ? ? ? ? [= <- _ _ _]; by auto|done]). }
    destruct nack.
    { cbn [mbind option_bind]. split.
      - intros ? ? ? ? [= <- _ _ _]. right. left. by rewrite Hnak, Hs1.
      - split; [done|]. by intros (? & ? & ? & [= ] & _). }
    destruct fr as [[|b f]|].
    + destruct (Hnone _ eq_refl) as [Hw Hsome]. split; [exact Hw|].
      split; [done|]. by intros (? & ? & ? & [= ] & _).
    + set (s2 := if negb (Alp.session_is_active s1) then _ else s1).
      assert (Hs2 : s2.(Alp.written) = s.(Alp.written)
                    /\ s2.(Alp.serial_snap_proto) = s.(Alp.serial_snap_proto)).
      { unfold s2. by destruct (negb _). }
      destruct Hs2 as [Hs2 Hp2].
      destruct (empty (SNAPMsg_Parse (b :: f))) eqn:He; cbn [negb].
      * cbn [mbind option_bind]. split.
        -- intros ? ? ? ? [= <- _ _ _]. right. right. by rewrite Hack, Hs2.
        -- split; [done|]. intros (? & ? & ? & [= _ <- <-] & He' & _). congruence.
      * destruct (Alp.dispatch (SNAPMsg_Parse (b :: f)) s2) as [s3|] eqn:Hd;
          cbn [mbind option_bind].
        -- destruct (dispatch_written _ _ _ Hd) as (Hw3 & _).
           split.
           ++ intros ? ? ? ? [= <- _ _ _]. right. right.
              by rewrite Hack, Hw3, Hs2.
           ++ split; [done|]. intros (? & ? & ? & [= _ <- <-] & _ & Hr).
              rewrite <- Hp2 in Hr. apply dispatch_None in Hr. congruence.
        -- split; [done|]. split; [|done]. intros _.
           exists c, b, f. split; [done|]. split; [done|].
           rewrite <- Hp2. by apply dispatch_None.
    + destruct (Hnone _ eq_refl) as [Hw Hsome]. split; [exact Hw|].
      split; [done|]. by intros (? & ? & ? & [= ] & _).
Qed.

(** ** What the receive loop leaves alone *)

Lemma loop_frame_refl s : loop_frame s s.
Proof. unfold loop_frame. tauto. Qed.

Lemma loop_frame_trans s1 s2 s3 :
  loop_frame s1 s2 -> loop_frame s2 s3 -> loop_frame s1 s3.
Proof.
  unfold loop_frame. intros (A1 & A2 & A3 & A4 & A5) (B1 & B2 & B3 & B4 & B5).
  repeat split; [congruence..|tauto|tauto].
Qed.

(** Enough for [loop_frame]: the flag, the timestamp, the faults and the
    notifications are the same. *)
Lemma loop_frame_quiet s s' :
  s'.(Alp.line_fault_over_msg_sent) = s.(Alp.line_fault_over_msg_sent) ->
  s'.(Alp.latest_uplink_event_time) = s.(Alp.latest_uplink_event_time) ->
  s'.(Alp.active_faults) = s.(Alp.active_faults) ->
  fault_overs s' = fault_overs s ->
  loop_frame s s'.
Proof.
  unfold loop_frame, linefault_once. intros H1 H2 H3 H4. rewrite H3. tauto.
Qed.

Lemma fault_overs_notify n s :
  fault_overs (Alp.notify n s)
  = fault_overs s + (if is_fault_over n then 1 else 0).
Proof.
  unfold fault_overs, Alp.notify. cbn [Alp.upstream Alp.set_upstream].
  rewrite filter_app, length_app. f_equal. by destruct n.
Qed.

Lemma loop_frame_session_finish s : loop_frame s (Alp.session_finish s).
Proof. by apply loop_frame_quiet. Qed.

Lemma loop_frame_session_begin st s : loop_frame s (Alp.session_begin st s).
Proof. by apply loop_frame_quiet. Qed.

Lemma loop_frame_set_rx_buffer v s : loop_frame s (Alp.set_rx_buffer v s).
Proof. by apply loop_frame_quiet. Qed.

Lemma loop_frame_transmit_control_char char s :
  loop_frame s (Alp.transmit_control_char char s).
Proof.
  apply loop_frame_quiet;
    unfold Alp.transmit_control_char, Alp.time_time; by_cases.
Qed.

Lemma loop_frame_send_cloud_alarm alarm content s :
  loop_frame s (Alp.send_cloud_alarm alarm content s).
Proof.
  apply loop_frame_quiet; try done.
  unfold Alp.send_cloud_alarm. rewrite fault_overs_notify. cbn. lia.
Qed.

Lemma loop_frame_re_transmit cause s : loop_frame s (Alp.re_transmit cause s).
Proof.
  destruct (Z.lt_trichotomy (s.(Alp.downlink_retransmit_count)) (resend_limit cause))
    as [Hlt|[Heq|Hgt]].
  - rewrite re_transmit_below by done. by apply loop_frame_quiet.
  - rewrite re_transmit_at_limit by done.
    destruct (Alp.list_in linefault (Alp.active_faults s)) eqn:E.
    + apply loop_frame_session_finish.
    + unfold loop_frame, linefault_once. unfold Alp.send_fault_detected.
      rewrite fault_overs_notify. cbn.
      rewrite list_remove_app_notin by done. rewrite list_in_app, E, list_in_self.
      repeat split; (done || lia).
  - unfold Alp.re_transmit. fold (resend_limit cause).
    destruct (Z.ltb_spec (Alp.downlink_retransmit_count s) (resend_limit cause));
      [lia|].
    destruct (Z.eqb_spec (Alp.downlink_retransmit_count s) (resend_limit cause));
      [lia|].
    apply loop_frame_refl.
Qed.

Lemma loop_frame_check_control_char data s :
  loop_frame s (snd (Alp.check_control_char data s)).
Proof.
  rewrite check_control_char_cases. destruct data as [|b rest];
    [apply loop_frame_refl|].
  repeat destruct (_ =? _)%Z; cbn [snd].
  - apply loop_frame_session_finish.
  - apply loop_frame_re_transmit.
  - apply loop_frame_session_finish.
  - eapply loop_frame_trans; [apply loop_frame_transmit_control_char|].
    apply loop_frame_session_finish.
  - apply loop_frame_refl.
Qed.

Lemma loop_frame_dispatch msg s s' :
  Alp.dispatch msg s = Some s' -> loop_frame s s'.
Proof.
  intros H. destruct (dispatch_cases msg s s' H) as [->|(al & ct & ->)];
    [apply loop_frame_refl|apply loop_frame_send_cloud_alarm].
Qed.

Lemma dispatch_rx_buffer msg s s' :
  Alp.dispatch msg s = Some s' -> s'.(Alp.rx_buffer) = s.(Alp.rx_buffer).
Proof. intros H. by destruct (dispatch_written _ _ _ H) as (_ & ? & _). Qed.

Lemma check_control_char_rx_buffer data s :
  (snd (Alp.check_control_char data s)).(Alp.rx_buffer) = s.(Alp.rx_buffer).
Proof.
  rewrite check_control_char_cases. destruct data as [|b rest]; [done|].
  repeat match goal with
         | |- context [(?a =? ?c)%Z] => destruct (a =? c)%Z
         end;
    cbn [snd];
    rewrite ?session_finish_rx_buffer, ?re_transmit_rx_buffer;
    unfold Alp.send_eot; rewrite ?transmit_control_char_rx_buffer; done.
Qed.

Lemma check_control_char_starts data s :
  fst (Alp.check_control_char data s) = starts_with_control data.
Proof.
  rewrite check_control_char_cases. destruct data as [|b rest]; [done|].
  unfold starts_with_control.
  repeat match goal with
         | |- context [(?a =? ?c)%Z] => destruct (a =? c)%Z
         end; done.
Qed.

Lemma re_transmit_proto cause s :
  (Alp.re_transmit cause s).(Alp.serial_snap_proto) = s.(Alp.serial_snap_proto).
Proof. unfold Alp.re_transmit, Alp.time_time. by_cases. Qed.

Lemma transmit_control_char_proto char s :
  (Alp.transmit_control_char char s).(Alp.serial_snap_proto)
  = s.(Alp.serial_snap_proto).
Proof. unfold Alp.transmit_control_char, Alp.time_time. by_cases. Qed.

Lemma check_control_char_proto data s :
  (snd (Alp.check_control_char data s)).(Alp.serial_snap_proto)
  = s.(Alp.serial_snap_proto).
Proof.
  rewrite check_control_char_cases. destruct data as [|b rest]; [done|].
  repeat match goal with
         | |- context [(?a =? ?c)%Z] => destruct (a =? c)%Z
         end;
    cbn [snd]; try done.
  - apply re_transmit_proto.
  - unfold Alp.send_eot.
    change (Alp.serial_snap_proto (Alp.session_finish ?x))
      with (Alp.serial_snap_proto x).
    apply transmit_control_char_proto.
Qed.

(** ** The receive loop, turn by turn *)

(** A turn that parses the buffer raises exactly when [Parse] returns a
    frame whose payload and SNAP message are not empty and whose message
    the handler logs as discarded. *)
Lemma on_receive_iter_raises SNAPMsg_Parse s data valid :
  fst (Alp.check_control_char data s) = false ->
  Alp.on_receive_iter SNAPMsg_Parse s data valid = None
  <-> exists c b f,
        AlpFrame.Parse data = Some (c, false, Some (b :: f))
        /\ (SNAPMsg_Parse (b :: f)).(empty) = false
        /\ dispatch_raises (s.(Alp.serial_snap_proto))
             (SNAPMsg_Parse (b :: f)) = true.
Proof.
  intros Hcc.
  rewrite (on_receive_iter_parse SNAPMsg_Parse s data valid Hcc).
  destruct (Parse_total data) as ([[c nack] fr] & -> & Ho).
  cbn [mbind option_bind].
  set (s1 := if negb (c =? 0) then _ else _).
  assert (Hp1 : (fst s1).(Alp.serial_snap_proto) = s.(Alp.serial_snap_proto)).
  { unfold s1. by destruct (negb _). }
  destruct s1 as [s1 data1]. cbn [fst] in Hp1.
  destruct nack.
  { cbn [mbind option_bind]. split; [done|]. by intros (? & ? & ? & [= ] & _). }
  destruct fr as [[|b f]|].
  - destruct (_ && _); cbn [mbind option_bind];
      (split; [done|]); by intros (? & ? & ? & [= ] & _).
  - set (s2 := if negb (Alp.session_is_active s1) then _ else s1).
    assert (Hp2 : s2.(Alp.serial_snap_proto) = s.(Alp.serial_snap_proto)).
    { unfold s2. by destruct (negb _). }
    destruct (empty (SNAPMsg_Parse (b :: f))) eqn:He; cbn [negb].
    + cbn [mbind option_bind]. split; [done|].
      intros (? & ? & ? & [= _ <- <-] & He' & _). congruence.
    + destruct (Alp.dispatch (SNAPMsg_Parse (b :: f)) s2) as [s3|] eqn:Hd;
        cbn [mbind option_bind].
      * split; [done|]. intros (? & ? & ? & [= _ <- <-] & _ & Hr).
        rewrite <- Hp2 in Hr. apply dispatch_None in Hr. congruence.
      * split; [|done]. intros _.
        exists c, b, f. split; [done|]. split; [done|].
        rewrite <- Hp2. by apply dispatch_None.
  - destruct (_ && _); cbn [mbind option_bind];
      (split; [done|]); by intros (? & ? & ? & [= ] & _).
Qed.

(** What a turn that returns has done, when the loop's [data] is the
    receive buffer.  On a control byte: one byte consumed, the flag set.
    Otherwise by the result of [Parse]: the flag set if the result carries
    a message; what was consumed dropped from the buffer; with nothing
    consumed the buffer kept, or cleared at 1024 bytes or more. *)
Lemma on_receive_iter_turn SNAPMsg_Parse s valid s' data' c' valid' :
  Alp.on_receive_iter SNAPMsg_Parse s (s.(Alp.rx_buffer)) valid
  = Some (s', data', c', valid') ->
  loop_frame s s'
  /\ s'.(Alp.serial_snap_proto) = s.(Alp.serial_snap_proto)
  /\ ((starts_with_control (s.(Alp.rx_buffer)) = true
       /\ c' = 1 /\ valid' = true
       /\ data' = s'.(Alp.rx_buffer) /\ data' = drop 1 (s.(Alp.rx_buffer)))
      \/ (starts_with_control (s.(Alp.rx_buffer)) = false
          /\ exists nack fr,
               AlpFrame.Parse (s.(Alp.rx_buffer)) = Some (c', nack, fr)
               /\ valid' = (if frame_is_message SNAPMsg_Parse nack fr
                            then true else valid)
               /\ ((c' <> 0 /\ data' = s'.(Alp.rx_buffer)
                    /\ data' = drop c' (s.(Alp.rx_buffer)))
                   \/ (c' = 0 /\ data' = s.(Alp.rx_buffer)
                       /\ ((length (s.(Alp.rx_buffer)) < Alp.RX_BUFFER_MAX_LEN
                            /\ s'.(Alp.rx_buffer) = s.(Alp.rx_buffer))
                           \/ (Alp.RX_BUFFER_MAX_LEN <= length (s.(Alp.rx_buffer))
                               /\ s'.(Alp.rx_buffer) = [])))))).
Proof.
  intros Hit. set (data := s.(Alp.rx_buffer)) in *.
  destruct (Alp.check_control_char data s) as [[|] sc] eqn:Hcc.
  - rewrite (on_receive_iter_control _ _ _ _ _ Hcc) in Hit.
    injection Hit as <- <- <- <-.
    pose proof (loop_frame_check_control_char data s) as Hlf.
    pose proof (check_control_char_rx_buffer data s) as Hrx.
    pose proof (check_control_char_proto data s) as Hpr.
    pose proof (check_control_char_starts data s) as Hst.
    rewrite Hcc in Hlf, Hrx, Hpr, Hst. cbn [fst snd] in Hlf, Hrx, Hpr, Hst.
    split; [eapply loop_frame_trans; [exact Hlf|apply loop_frame_set_rx_buffer]|].
    split; [exact Hpr|]. left.
    split; [done|]. split; [done|]. split; [done|]. split; [done|].
    by rewrite Hrx.
  - assert (Hf : fst (Alp.check_control_char data s) = false) by by rewrite Hcc.
    rewrite (on_receive_iter_parse SNAPMsg_Parse s data valid Hf) in Hit.
    rewrite check_control_char_starts in Hf.
    destruct (Parse_total data) as ([[c nack] fr] & HP & _).
    rewrite HP in Hit. cbn [mbind option_bind] in Hit.
    assert (Hnak : forall x, loop_frame s x ->
              loop_frame s (Alp.send_nak x)
              /\ (Alp.send_nak x).(Alp.serial_snap_proto) = x.(Alp.serial_snap_proto)
              /\ (Alp.send_nak x).(Alp.rx_buffer) = x.(Alp.rx_buffer)).
    { intros x Hx. unfold Alp.send_nak.
      split; [eapply loop_frame_trans;
              [exact Hx|apply loop_frame_transmit_control_char]|].
      split; [apply transmit_control_char_proto
             |apply transmit_control_char_rx_buffer]. }
    assert (Hack : forall x, loop_frame s x ->
              loop_frame s (Alp.send_ack x)
              /\ (Alp.send_ack x).(Alp.serial_snap_proto) = x.(Alp.serial_snap_proto)
              /\ (Alp.send_ack x).(Alp.rx_buffer) = x.(Alp.rx_buffer)).
    { intros x Hx. unfold Alp.send_ack.
      split; [eapply loop_frame_trans;
              [exact Hx|apply loop_frame_transmit_control_char]|].
      split; [apply transmit_control_char_proto
             |apply transmit_control_char_rx_buffer]. }
    destruct c as [|c].
    + destruct (Parse_zero data nack fr HP) as (-> & -> & _).
      cbn [Nat.eqb negb andb] in Hit.
      destruct (Nat.leb_spec Alp.RX_BUFFER_MAX_LEN (length data)) as [Hbig|Hsmall];
        cbn [mbind option_bind] in Hit; injection Hit as <- <- <- <-.
      * destruct (Hnak (Alp.clear_rx_buffer s)) as (L1 & L2 & L3);
          [apply loop_frame_set_rx_buffer|].
        split; [eapply loop_frame_trans;
                [exact L1|apply loop_frame_session_finish]|].
        split; [exact L2|]. right. split; [done|].
        exists false, None. split; [done|]. split; [done|]. right.
        split; [done|]. split; [done|]. right. split; [done|].
        rewrite session_finish_rx_buffer. exact L3.
      * split; [apply loop_frame_refl|]. split; [done|]. right. split; [done|].
        exists false, None. split; [done|]. split; [done|]. right.
        split; [done|]. split; [done|]. left. done.
    + cbn [Nat.eqb negb andb] in Hit.
      set (s1 := Alp.consume_rx_buffer (S c) s) in *.
      assert (Hs1 : loop_frame s s1
                    /\ s1.(Alp.serial_snap_proto) = s.(Alp.serial_snap_proto)
                    /\ s1.(Alp.rx_buffer) = drop (S c) data).
      { split; [apply loop_frame_set_rx_buffer|done]. }
      destruct Hs1 as (M1 & M2 & M3). change (Alp.rx_buffer s) with data in Hit.
      assert (Hfin :
                loop_frame s s' ->
                s'.(Alp.serial_snap_proto) = s.(Alp.serial_snap_proto) ->
                s'.(Alp.rx_buffer) = drop (S c) data ->
                data' = drop (S c) data -> c' = S c ->
                valid' = (if frame_is_message SNAPMsg_Parse nack fr
                          then true else valid) ->
                loop_frame s s'
                /\ s'.(Alp.serial_snap_proto) = s.(Alp.serial_snap_proto)
                /\ ((starts_with_control data = true
                     /\ c' = 1 /\ valid' = true
                     /\ data' = s'.(Alp.rx_buffer) /\ data' = drop 1 data)
                    \/ (starts_with_control data = false
                        /\ exists nack' fr',
                             AlpFrame.Parse data = Some (c', nack', fr')
                             /\ valid' = (if frame_is_message SNAPMsg_Parse nack' fr'
                                          then true else valid)
                             /\ ((c' <> 0 /\ data' = s'.(Alp.rx_buffer)
                                  /\ data' = drop c' data)
                                 \/ (c' = 0 /\ data' = data
                                     /\ ((length data < Alp.RX_BUFFER_MAX_LEN
                                          /\ s'.(Alp.rx_buffer) = data)
                                         \/ (Alp.RX_BUFFER_MAX_LEN <= length data
                                             /\ s'.(Alp.rx_buffer) = []))))))).
      { intros X1 X2 X3 -> -> X6. split; [done|]. split; [done|]. right.
        split; [done|]. exists nack, fr. split; [done|]. split; [done|].
        left. done. }
      destruct nack.
      { cbn [mbind option_bind] in Hit. injection Hit as <- <- <- <-.
        destruct (Hnak s1 M1) as (L1 & L2 & L3).
        apply Hfin; [done|by rewrite L2|by rewrite L3|done|done|done]. }
      destruct fr as [[|b f]|].
      * cbn [mbind option_bind] in Hit. injection Hit as <- <- <- <-.
        by apply Hfin.
      * set (s2 := if negb (Alp.session_is_active s1) then _ else s1) in *.
        assert (Hs2 : loop_frame s s2
                      /\ s2.(Alp.serial_snap_proto) = s.(Alp.serial_snap_proto)
                      /\ s2.(Alp.rx_buffer) = drop (S c) data).
        { unfold s2. destruct (negb _); [|done].
          split; [|done].
          eapply loop_frame_trans; [exact M1|apply loop_frame_session_begin]. }
        destruct Hs2 as (N1 & N2 & N3). clearbody s2.
        cbn [frame_is_message] in Hfin.
        destruct (empty (SNAPMsg_Parse (b :: f))); cbn [negb] in *.
        -- cbn [mbind option_bind] in Hit. injection Hit as <- <- <- <-.
           destruct (Hack s2 N1) as (L1 & L2 & L3).
           apply Hfin; [done|by rewrite L2|by rewrite L3|done|done|done].
        -- destruct (Alp.dispatch (SNAPMsg_Parse (b :: f)) s2) as [s3|] eqn:Hd;
             cbn [mbind option_bind] in Hit; [|done].
           injection Hit as <- <- <- <-.
           destruct (dispatch_written _ _ _ Hd) as (_ & D2 & D3 & _).
           destruct (Hack s3) as (L1 & L2 & L3).
           { eapply loop_frame_trans; [exact N1|by eapply loop_frame_dispatch]. }
           apply Hfin; [done|by rewrite L2, D3|by rewrite L3, D2|done|done|done].
      * cbn [mbind option_bind] in Hit. injection Hit as <- <- <- <-.
        by apply Hfin.
Qed.

Lemma uplink_seen_nil p : ~ uplink_seen p [].
Proof.
  intros H. inversion H as [d Hc|d c b f Hc HP|d c nack fr Hc HP Hne]; subst.
  - done.
  - vm_compute in HP. congruence.
  - vm_compute in HP. congruence.
Qed.

(** An uplink is seen in a buffer on which [Parse] works and whose head
    carries no message if and only if one is seen in what [Parse] leaves. *)
Lemma uplink_seen_step p data c nack fr :
  starts_with_control data = false ->
  AlpFrame.Parse data = Some (c, nack, fr) ->
  frame_is_message p nack fr = false ->
  uplink_seen p data <-> c <> 0 /\ uplink_seen p (drop c data).
Proof.
  intros Hctl HP Hmsg. split.
  - intros H.
    inversion H as [d Hc|d c0 b f Hc HP0 He|d c0 nack0 fr0 Hc HP0 Hne Hrest];
      subst.
    + congruence.
    + rewrite HP in HP0. injection HP0 as <- -> ->.
      cbn [frame_is_message] in Hmsg. rewrite He in Hmsg. done.
    + rewrite HP in HP0. injection HP0 as <- <- <-. done.
  - intros [Hne Hrest]. by eapply seen_later.
Qed.

Lemma uplink_seen_message p data c nack fr :
  starts_with_control data = false ->
  AlpFrame.Parse data = Some (c, nack, fr) ->
  frame_is_message p nack fr = true ->
  uplink_seen p data.
Proof.
  intros Hctl HP Hmsg. destruct nack; [done|].
  destruct fr as [[|b f]|]; try done.
  cbn [frame_is_message] in Hmsg. apply negb_true_iff in Hmsg.
  by eapply seen_message.
Qed.

Lemma raise_reached_nil p proto : ~ raise_reached p proto [].
Proof.
  intros H.
  inversion H as [d c b f Hc HP|d Hc|d c nack fr Hc HP Hne]; subst.
  - vm_compute in HP. congruence.
  - done.
  - vm_compute in HP. congruence.
Qed.

Lemma raise_reached_control p proto data :
  starts_with_control data = true ->
  raise_reached p proto data <-> raise_reached p proto (drop 1 data).
Proof.
  intros Hctl. split.
  - intros H.
    inversion H as [d c b f Hc HP|d Hc Hrest|d c nack fr Hc HP Hne]; subst;
      [congruence|done|congruence].
  - by apply raise_after_control.
Qed.

(** Behind a head on which no handler raises, the loop comes to a raise
    if and only if it does in what [Parse] leaves. *)
Lemma raise_reached_step p proto data c nack fr :
  starts_with_control data = false ->
  AlpFrame.Parse data = Some (c, nack, fr) ->
  ~ (exists c b f,
       AlpFrame.Parse data = Some (c, false, Some (b :: f))
       /\ (p (b :: f)).(empty) = false
       /\ dispatch_raises proto (p (b :: f)) = true) ->
  raise_reached p proto data <-> c <> 0 /\ raise_reached p proto (drop c data).
Proof.
  intros Hctl HP Hhead. split.
  - intros H.
    inversion H as [d c0 b f Hc HP0 He Hr|d Hc Hrest
                   |d c0 nack0 fr0 Hc HP0 Hne Hrest]; subst.
    + destruct Hhead. by exists c0, b, f.
    + congruence.
    + rewrite HP in HP0. injection HP0 as <- <- <-. done.
  - intros [Hne Hrest]. by eapply raise_later.
Qed.

(** The receive loop, from a state whose receive buffer it is handed,
    with fuel for the buffer.  If it returns: what it leaves alone; the
    flag is set if and only if it was set or an uplink is seen in the
    buffer; the buffer left is a suffix of the buffer, shorter than 1024
    bytes, and empty or data of which [Parse] consumes nothing.  It fails
    to return exactly when it comes to a message on which the handler
    raises. *)
Lemma on_receive_loop_spec SNAPMsg_Parse fuel :
  forall s c valid,
    c <> 0 -> length (s.(Alp.rx_buffer)) <= fuel ->
    (forall sl dl vl,
       Alp.on_receive_loop SNAPMsg_Parse fuel s (s.(Alp.rx_buffer)) c valid
       = Some (sl, dl, vl) ->
       loop_frame s sl
       /\ (vl = true <-> valid = true \/ uplink_seen SNAPMsg_Parse (s.(Alp.rx_buffer)))
       /\ (exists k, sl.(Alp.rx_buffer) = drop k (s.(Alp.rx_buffer)))
       /\ length (sl.(Alp.rx_buffer)) < Alp.RX_BUFFER_MAX_LEN
       /\ (sl.(Alp.rx_buffer) = []
           \/ (starts_with_control (sl.(Alp.rx_buffer)) = false
               /\ AlpFrame.Parse (sl.(Alp.rx_buffer)) = Some (0, false, None))))
    /\ (Alp.on_receive_loop SNAPMsg_Parse fuel s (s.(Alp.rx_buffer)) c valid = None
        <-> raise_reached SNAPMsg_Parse (s.(Alp.serial_snap_proto))
              (s.(Alp.rx_buffer))).
Proof.
  assert (Hstop : forall s c valid,
    s.(Alp.rx_buffer) = [] ->
    forall fuel0,
    (forall sl dl vl,
       Alp.on_receive_loop SNAPMsg_Parse fuel0 s (s.(Alp.rx_buffer)) c valid
       = Some (sl, dl, vl) ->
       loop_frame s sl
       /\ (vl = true <-> valid = true \/ uplink_seen SNAPMsg_Parse (s.(Alp.rx_buffer)))
       /\ (exists k, sl.(Alp.rx_buffer) = drop k (s.(Alp.rx_buffer)))
       /\ length (sl.(Alp.rx_buffer)) < Alp.RX_BUFFER_MAX_LEN
       /\ (sl.(Alp.rx_buffer) = []
           \/ (starts_with_control (sl.(Alp.rx_buffer)) = false
               /\ AlpFrame.Parse (sl.(Alp.rx_buffer)) = Some (0, false, None))))
    /\ (Alp.on_receive_loop SNAPMsg_Parse fuel0 s (s.(Alp.rx_buffer)) c valid = None
        <-> raise_reached SNAPMsg_Parse (s.(Alp.serial_snap_proto))
              (s.(Alp.rx_buffer)))).
  { intros s c valid Hnil fuel0.
    rewrite on_receive_loop_stop by (right; exact Hnil).
    split.
    - intros sl dl vl [= <- _ <-].
      split; [apply loop_frame_refl|]. rewrite Hnil. split.
      + split; [by left|]. intros [?|H]; [done|]. by apply uplink_seen_nil in H.
      + split; [by exists 0|].
        split; [unfold Alp.RX_BUFFER_MAX_LEN; simpl; lia|by left].
    - rewrite Hnil. split; [done|]. by intros ?%raise_reached_nil. }
  induction fuel as [|fuel IH]; intros s c valid Hc Hlen.
  - apply Hstop. destruct (Alp.rx_buffer s); [done|simpl in Hlen; lia].
  - destruct (decide (Alp.rx_buffer s = [])) as [Hnil|Hnn]; [by apply Hstop|].
    destruct (Alp.rx_buffer s) as [|b0 rest] eqn:Hdata; [done|]. clear Hnn.
    rewrite on_receive_loop_step by done.
    destruct (Alp.on_receive_iter SNAPMsg_Parse s (b0 :: rest) valid)
      as [[[[s' data'] c'] valid']|] eqn:Hit; cbn [mbind option_bind].
    + assert (Hhead : starts_with_control (b0 :: rest) = false ->
                ~ (exists c b f,
                     AlpFrame.Parse (b0 :: rest) = Some (c, false, Some (b :: f))
                     /\ (SNAPMsg_Parse (b :: f)).(empty) = false
                     /\ dispatch_raises (s.(Alp.serial_snap_proto))
                          (SNAPMsg_Parse (b :: f)) = true)).
      { intros Hctl Hex.
        apply (on_receive_iter_raises SNAPMsg_Parse s (b0 :: rest) valid) in Hex;
          [congruence|by rewrite check_control_char_starts]. }
      rewrite <- Hdata in Hit.
      destruct (on_receive_iter_turn _ _ _ _ _ _ _ Hit) as (Hlf & Hpr & Hcase).
      rewrite Hdata in Hcase.
      destruct Hcase as [(Hctl & -> & -> & Hd1 & Hd2)
                        |(Hctl & nack & fr & HP & Hv & Hcons)].
      * (* a control byte *)
        rewrite Hd1.
        destruct (IH s' 1 true) as [IHs IHn]; [done| |].
        { rewrite <- Hd1, Hd2. simpl in Hlen |- *. rewrite length_drop. lia. }
        split.
        -- intros sl dl vl HL.
           destruct (IHs sl dl vl HL) as (I1 & I2 & (k & I3) & I4 & I5).
           split; [by eapply loop_frame_trans|].
           split; [split; [intros _; right; by apply seen_control
                          |intros _; apply I2; by left]|].
           split; [|done]. exists (1 + k).
           by rewrite I3, <- Hd1, Hd2, drop_drop.
        -- rewrite IHn, Hpr, <- Hd1, Hd2.
           symmetry. by apply raise_reached_control.
      * specialize (Hhead Hctl).
        destruct Hcons as [(Hne & Hd1 & Hd2)|(-> & -> & Hrx)].
        -- (* something consumed *)
           rewrite Hd1.
           destruct (IH s' c' valid') as [IHs IHn]; [done| |].
           { rewrite <- Hd1, Hd2, length_drop. simpl in Hlen |- *. lia. }
           split.
           ++ intros sl dl vl HL.
              destruct (IHs sl dl vl HL) as (I1 & I2 & (k & I3) & I4 & I5).
              split; [by eapply loop_frame_trans|].
              split; [|split; [|done]].
              ** rewrite I2, <- Hd1, Hd2, Hv.
                 destruct (frame_is_message SNAPMsg_Parse nack fr) eqn:Hm.
                 --- split; [intros _; right;
                             by eapply uplink_seen_message|by left].
                 --- rewrite (uplink_seen_step _ _ _ _ _ Hctl HP Hm). tauto.
              ** exists (c' + k). by rewrite I3, <- Hd1, Hd2, drop_drop.
           ++ rewrite IHn, Hpr, <- Hd1, Hd2.
              rewrite (raise_reached_step _ _ _ _ _ _ Hctl HP Hhead). tauto.
        -- (* nothing consumed: the loop ends *)
           rewrite on_receive_loop_stop by (by left).
           split.
           ++ intros sl dl vl [= <- _ <-].
              destruct (Parse_zero _ _ _ HP) as (-> & -> & _).
              cbn [frame_is_message] in Hv. subst valid'.
              split; [done|]. split.
              ** rewrite (uplink_seen_step SNAPMsg_Parse _ _ _ _ Hctl HP eq_refl).
                 split; [by left|]. intros [?|[? _]]; done.
              ** destruct Hrx as [[Hsmall Hrx]|[Hbig Hrx]]; rewrite Hrx.
                 --- split; [by exists 0|]. split; [done|]. by right.
                 --- split; [exists (length (b0 :: rest)); by rewrite drop_all|].
                     split; [unfold Alp.RX_BUFFER_MAX_LEN; simpl; lia|by left].
           ++ rewrite (raise_reached_step _ _ _ _ _ _ Hctl HP Hhead).
              split; [done|]. by intros [? _].
    + split; [done|]. split; [|done]. intros _.
      destruct (Alp.check_control_char (b0 :: rest) s) as [[|] sc] eqn:Hcc.
      { by rewrite (on_receive_iter_control _ _ _ _ _ Hcc) in Hit. }
      assert (Hf : fst (Alp.check_control_char (b0 :: rest) s) = false)
        by (by rewrite Hcc).
      apply on_receive_iter_raises in Hit; [|exact Hf].
      destruct Hit as (c0 & b & f & HP & He & Hr).
      rewrite check_control_char_starts in Hf.
      by eapply raise_here.
Qed.

(** [on_receive] handed the receive buffer: what it returns, and that it
    returns unless the loop comes to a message on which the handler
    raises. *)
Lemma on_receive_spec SNAPMsg_Parse s :
  (forall s',
     Alp.on_receive SNAPMsg_Parse (s.(Alp.rx_buffer)) s = Some s' ->
     exists sl dl vl,
       Alp.on_receive_loop SNAPMsg_Parse (S (length (s.(Alp.rx_buffer)))) s
         (s.(Alp.rx_buffer)) 1 false = Some (sl, dl, vl)
       /\ s' = Alp.on_receive_end sl dl vl
       /\ loop_frame s sl
       /\ (vl = true <-> uplink_seen SNAPMsg_Parse (s.(Alp.rx_buffer)))
       /\ (exists k, sl.(Alp.rx_buffer) = drop k (s.(Alp.rx_buffer)))
       /\ length (sl.(Alp.rx_buffer)) < Alp.RX_BUFFER_MAX_LEN
       /\ (sl.(Alp.rx_buffer) = []
           \/ (starts_with_control (sl.(Alp.rx_buffer)) = false
               /\ AlpFrame.Parse (sl.(Alp.rx_buffer)) = Some (0, false, None))))
  /\ (Alp.on_receive SNAPMsg_Parse (s.(Alp.rx_buffer)) s = None
      <-> raise_reached SNAPMsg_Parse (s.(Alp.serial_snap_proto))
            (s.(Alp.rx_buffer))).
Proof.
  destruct (on_receive_loop_spec SNAPMsg_Parse (S (length (s.(Alp.rx_buffer))))
              s 1 false) as [Hs Hn]; [done|lia|].
  unfold Alp.on_receive.
  destruct (Alp.on_receive_loop _ _ _ _ _ _) as [[[sl dl] vl]|];
    cbn [mbind option_bind].
  - split.
    + intros s' [= <-].
      destruct (Hs sl dl vl eq_refl) as (H1 & H2 & H3 & H4 & H5).
      exists sl, dl, vl. repeat (split; [done|]).
      split; [|done]. rewrite H2. split; [intros [?|?]; done|by right].
    + rewrite <- Hn. done.
  - split; [done|]. rewrite <- Hn. done.
Qed.

(** ** After the receive loop *)


Lemma on_receive_end_invalid s data :
  (Alp.on_receive_end s data false).(Alp.latest_uplink_event_time)
  = s.(Alp.latest_uplink_event_time)
  /\ fault_overs (Alp.on_receive_end s data false) = fault_overs s
  /\ (Alp.on_receive_end s data false).(Alp.line_fault_over_msg_sent)
     = s.(Alp.line_fault_over_msg_sent)
  /\ (Alp.on_receive_end s data false).(Alp.active_faults) = s.(Alp.active_faults).
Proof. unfold Alp.on_receive_end. by destruct (_ =? _). Qed.

(** The one-shot flag is false on a new port, and the timer, the
    retransmissions and [transmit] leave it alone: only the code after
    the receive loop sets it. *)
Lemma line_fault_over_msg_sent_elsewhere SNAPMsg_write clk opened proto msg s :
  (Alp.init clk opened proto).(Alp.line_fault_over_msg_sent) = false
  /\ (tick s).(Alp.line_fault_over_msg_sent) = s.(Alp.line_fault_over_msg_sent)
  /\ (forall s', Alp.transmit SNAPMsg_write msg s = Some s' ->
        s'.(Alp.line_fault_over_msg_sent) = s.(Alp.line_fault_over_msg_sent)).
Proof.
  split; [done|]. split.
  - unfold tick, Alp.session_diagnostics, Alp.time_time.
    destruct (negb (Alp.port s)); [done|]. cbv zeta. cbn [snd].
    destruct (Alp.session_is_active _).
    + destruct (_ <=? _)%float; [|done].
      by destruct (loop_frame_re_transmit Alp.MESSAGE_STATE_NO_REPLY
                     (Alp.set_clock_reads (S (Alp.clock_reads s)) s)) as [-> _].
    + destruct (_ <=? _)%float; [|done]. unfold Alp.send_enq.
      by destruct (loop_frame_transmit_control_char Alp.ENQ
                     (Alp.set_session_state Alp.SESSION_IDLE
                        (Alp.set_clock_reads (S (Alp.clock_reads s)) s)))
        as [-> _].
  - intros s'. unfold Alp.transmit, Alp.time_time.
    rewrite Write_spec. cbn [mbind option_bind].
    by_cases; intros [= <-]; done.
Qed.



(** * Further properties of the codec *)

(** ** Nibble coding *)

Lemma Encode_mask b : AlpFrame.Encode (Z.land b 0xff) = AlpFrame.Encode b.
Proof.
  unfold AlpFrame.Encode. cbv zeta.
  by rewrite <- Z.land_assoc.
Qed.

Lemma nibble_is_byte c : is_nibble c -> is_byte c.
Proof. unfold is_nibble, is_byte. lia. Qed.

Lemma decode_pair_spec h l :
  is_nibble h -> is_nibble l -> decode_pair_ok h l = true.
Proof.
  intros Hh Hl.
  pose proof (byte_forall (fun h => forallb (decode_pair_ok h) all_bytes)) as H.
  specialize (H ltac:(by vm_compute) h (nibble_is_byte h Hh)). cbv beta in H.
  rewrite forallb_forall in H. apply H.
  by apply all_bytes_complete, nibble_is_byte.
Qed.

(** X1.  [Encode] and [Decode] are inverse to each other.  For every
    integer [b], [Encode b] is a pair of nibble bytes (0x30..0x3F) that
    [Decode] maps to [b & 0xff]; every pair of nibble bytes decodes to an
    octet whose encoding is that pair; any other pair decodes to [None]. *)
Theorem Encode_Decode_inverse :
  (forall b,
     exists h l, AlpFrame.Encode b = [h; l] /\ is_nibble h /\ is_nibble l
                 /\ AlpFrame.Decode h l = Some (Z.land b 0xff))
  /\ (forall h l, is_nibble h -> is_nibble l ->
        exists v, AlpFrame.Decode h l = Some v /\ is_byte v
                  /\ AlpFrame.Encode v = [h; l])
  /\ (forall h l, ~ (is_nibble h /\ is_nibble l) -> AlpFrame.Decode h l = None).
Proof.
  split; [|split].
  - intros b. rewrite <- Encode_mask.
    destruct (Encode_Decode _ (land_255_byte b)) as (h & l & HE & Hh & Hl & HD).
    by exists h, l.
  - intros h l Hh Hl. pose proof (decode_pair_spec h l Hh Hl) as H.
    unfold decode_pair_ok in H.
    apply nibble_ok_spec in Hh, Hl. rewrite Hh, Hl in H. cbn [andb implb] in H.
    destruct (AlpFrame.Decode h l) as [v|]; [|done].
    apply andb_true_iff in H as [Hv HE]. exists v. split; [done|].
    split; [unfold is_byte; lia|].
    destruct (AlpFrame.Encode v) as [|a [|b [|? ?]]]; try done.
    apply andb_true_iff in HE as [->%Z.eqb_eq ->%Z.eqb_eq]. done.
  - intros h l Hn.
    destruct (Z_le_dec 0x30 h) as [H1|H1]; [|apply Decode_None_l; unfold is_nibble; lia].
    destruct (Z_le_dec h 0x3f) as [H2|H2]; [|apply Decode_None_l; unfold is_nibble; lia].
    apply Decode_None_r. unfold is_nibble in *. lia.
Qed.

(** ** [Checksum] *)

Lemma Checksum_loop_pairs p :
  forall pre suf cs cp,
    AlpFrame.Checksum_loop (2 * length p)
      (pre ++ flat_map AlpFrame.Encode p ++ suf) (length pre) cs cp
    = Some (sum_enc p cs, xor_enc p cp).
Proof.
  induction p as [|d p IH]; intros pre suf cs cp; [done|].
  destruct (Encode_shape d) as (h & l & HE).
  cbn [flat_map sum_enc xor_enc length]. rewrite HE.
  replace (2 * S (length p)) with (S (S (2 * length p))) by lia.
  cbn [AlpFrame.Checksum_loop app].
  rewrite lookup_at_length. cbn [mbind option_bind].
  replace (S (length pre)) with (length pre + 1) by lia.
  rewrite lookup_at_length_1. cbn [mbind option_bind].
  specialize (IH (pre ++ [h; l]) suf (cs + (h + l))%Z (Z.lxor (Z.lxor cp h) l)).
  rewrite <- app_assoc, length_app in IH. cbn [app length] in IH.
  replace (S (length pre + 1)) with (length pre + 2) by lia.
  rewrite <- (Z.add_assoc cs h l). exact IH.
Qed.

Lemma Checksum_loop_total n :
  forall frame i cs cp,
    i + n <= length frame ->
    exists r, AlpFrame.Checksum_loop n frame i cs cp = Some r.
Proof.
  induction n as [|n IH]; intros frame i cs cp Hlen; [by eauto|].
  cbn [AlpFrame.Checksum_loop].
  destruct (lookup_lt_is_Some_2 frame i ltac:(lia)) as [b ->].
  cbn [mbind option_bind]. apply IH. lia.
Qed.

(** X2.  [Checksum] never raises, and on a frame written by [Write] it
    recomputes the two values whose encodings [Write] stored in the last
    four bytes of the frame: the sum modulo 256 and the XOR of the
    encoded data field. *)
Theorem Checksum_of_Write :
  (forall frame, exists r, AlpFrame.Checksum frame = Some r)
  /\ (forall p,
        exists frame chksum chkpar,
          AlpFrame.Write p = Some frame
          /\ AlpFrame.Checksum frame = Some (chksum, chkpar)
          /\ drop (length frame - 4) frame
             = AlpFrame.Encode chksum ++ AlpFrame.Encode chkpar).
Proof.
  split.
  - intros frame. unfold AlpFrame.Checksum.
    destruct (Nat.ltb_spec (length frame) 10) as [?|Hlen]; [by eauto|].
    destruct (lookup_lt_is_Some_2 frame 3 ltac:(lia)) as [b3 ->].
    cbn [mbind option_bind]. destruct (negb _); [by eauto|].
    destruct (lookup_lt_is_Some_2 frame (length frame - 5) ltac:(lia)) as [e ->].
    cbn [mbind option_bind]. destruct (negb _); [by eauto|].
    destruct (Checksum_loop_total (length frame - 5 - 4) frame 4 0%Z 0%Z)
      as ([cs cp] & ->); [lia|].
    cbn [mbind option_bind]. by eauto.
  - intros p. exists (wire p), (Z.land (sum_enc p 0) 0xff), (xor_enc p 0).
    split; [apply Write_spec|].
    assert (Htail : drop (length (wire p) - 4) (wire p)
                    = AlpFrame.Encode (Z.land (sum_enc p 0) 255)
                      ++ AlpFrame.Encode (xor_enc p 0)).
    { rewrite length_wire. unfold wire.
      replace (header ++ flat_map AlpFrame.Encode p ++ [AlpFrame.ETX]
                 ++ AlpFrame.Encode (Z.land (sum_enc p 0) 255)
                 ++ AlpFrame.Encode (xor_enc p 0))
        with ((header ++ flat_map AlpFrame.Encode p ++ [AlpFrame.ETX])
                ++ AlpFrame.Encode (Z.land (sum_enc p 0) 255)
                ++ AlpFrame.Encode (xor_enc p 0))
        by (by rewrite <- !app_assoc).
      apply drop_app_length'.
      rewrite !length_app, length_flat_Encode. simpl. lia. }
    split; [|exact Htail].
    unfold AlpFrame.Checksum. rewrite length_wire.
    destruct p as [|d p]; [reflexivity|].
    destruct (Nat.ltb_spec (4 + 2 * length (d :: p) + 5) 10) as [Hs|_];
      [simpl in Hs; lia|].
    assert (H3 : wire (d :: p) !! 3 = Some AlpFrame.STX) by done.
    rewrite H3. cbn [mbind option_bind]. rewrite Z.eqb_refl. cbn [negb].
    assert (He : wire (d :: p) !! (4 + 2 * length (d :: p) + 5 - 5)
                 = Some AlpFrame.ETX).
    { unfold wire. rewrite app_assoc.
      apply list_lookup_middle. rewrite length_app, length_flat_Encode.
      simpl. lia. }
    rewrite He. cbn [mbind option_bind]. rewrite Z.eqb_refl. cbn [negb].
    replace (4 + 2 * length (d :: p) + 5 - 5 - 4) with (2 * length (d :: p)) by lia.
    unfold wire.
    change 4 with (length header) at 1.
    rewrite Checksum_loop_pairs. done.
Qed.

(** ** Frames in a noisy stream *)

Lemma find_start_garbage g :
  forall pre n rest dlen,
    no_SOH g ->
    AlpFrame.find_start (length g + S n) (pre ++ g ++ header ++ rest)
      (length pre) dlen
    = Some (length pre + length g).
Proof.
  induction g as [|x g IH]; intros pre n rest dlen Hg.
  - cbn [length Nat.add app AlpFrame.find_start]. unfold header. cbn [app].
    rewrite lookup_at_length. cbn [mbind option_bind].
    rewrite lookup_at_length_1. cbn [mbind option_bind].
    replace (pre ++ AlpFrame.SOH :: AlpFrame.PI1 :: AlpFrame.PI2 :: AlpFrame.STX :: rest)
      with ((pre ++ [AlpFrame.SOH; AlpFrame.PI1]) ++ AlpFrame.PI2 :: AlpFrame.STX :: rest)
      by (by rewrite <- app_assoc).
    replace (length pre + 2) with (length (pre ++ [AlpFrame.SOH; AlpFrame.PI1]))
      by (rewrite length_app; simpl; lia).
    rewrite lookup_at_length. cbn [mbind option_bind].
    rewrite !Z.eqb_refl. cbn [negb]. f_equal. lia.
  - apply Forall_cons in Hg as [Hx Hg].
    cbn [length Nat.add app AlpFrame.find_start].
    rewrite lookup_at_length. cbn [mbind option_bind].
    apply Z.eqb_neq in Hx. rewrite Hx. cbn [negb].
    specialize (IH (pre ++ [x]) n rest dlen Hg).
    rewrite <- app_assoc, length_app in IH. cbn [app length] in IH.
    replace (S (length pre)) with (length pre + 1) by lia.
    rewrite IH. f_equal. lia.
Qed.

Lemma flat_Encode_take_drop k q :
  flat_map AlpFrame.Encode q
  = flat_map AlpFrame.Encode (take k q) ++ flat_map AlpFrame.Encode (drop k q).
Proof. by rewrite <- flat_map_app, take_drop. Qed.

(** After noise without SOH, a header and the pairs of [q]: [Parse] finds
    the preamble behind the noise and its second loop walks over the
    first [k] pairs, for any [k] within its range. *)
Lemma Parse_at g q suf k :
  no_SOH g -> is_bytes q -> 9 <= 4 + 2 * length q + length suf ->
  k <= length q ->
  k <= range2_len (length g + 4)
         (length (g ++ header ++ flat_map AlpFrame.Encode q ++ suf) / 2 * 2 - 2) ->
  exists sf',
    take k sf' = take k q
    /\ AlpFrame.Parse (g ++ header ++ flat_map AlpFrame.Encode q ++ suf)
       = (r ← AlpFrame.scan
                (range2_len (length g + 4)
                   (length (g ++ header ++ flat_map AlpFrame.Encode q ++ suf)
                    / 2 * 2 - 2) - k)
                (g ++ header ++ flat_map AlpFrame.Encode q ++ suf)
                (length g + 4 + 2 * k) k (length g + 4)
                (sum_enc (take k q) 0) (xor_enc (take k q) 0) sf';
          AlpFrame.Parse_tail (g ++ header ++ flat_map AlpFrame.Encode q ++ suf)
            (length (g ++ header ++ flat_map AlpFrame.Encode q ++ suf))
            (length g) r).
Proof.
  intros Hg Hb Hlen Hk Hfuel.
  set (data := g ++ header ++ flat_map AlpFrame.Encode q ++ suf) in *.
  assert (Hdlen : length data = length g + 4 + 2 * length q + length suf).
  { unfold data. rewrite !length_app, length_flat_Encode. simpl. lia. }
  set (fuel := range2_len _ _) in *.
  assert (Hsf : fuel <= (length data - length g - 4) / 2).
  { unfold fuel, range2_len.
    pose proof (Nat.div_mod_eq (length data) 2).
    pose proof (Nat.mod_upper_bound (length data) 2).
    set (x := length data / 2) in *.
    apply Nat.Div0.div_le_mono. lia. }
  unfold AlpFrame.Parse. fold data.
  destruct (Nat.ltb_spec (length data) 9) as [?|_]; [lia|].
  replace (length data - 9 + 1)
    with (length g + S (length data - 9 - length g)) by lia.
  pose proof (find_start_garbage g [] (length data - 9 - length g)
                (flat_map AlpFrame.Encode q ++ suf) (length data) Hg) as Hfs.
  cbn [app length Nat.add] in Hfs. fold data in Hfs. rewrite Hfs.
  cbn [mbind option_bind].
  destruct (Nat.ltb_spec (length data - 9) (length g)) as [?|_]; [lia|].
  assert (Hstx : data !! (length g + 3) = Some AlpFrame.STX).
  { unfold data. by rewrite lookup_app_add. }
  rewrite Hstx. cbn [mbind option_bind]. rewrite Z.eqb_refl. cbn [negb].
  fold fuel.
  destruct (scan_pairs (take k q) (fuel - k) (g ++ header)
              (flat_map AlpFrame.Encode (drop k q) ++ suf) 0 (length g + 4)
              0%Z 0%Z (replicate ((length data - length g - 4) / 2) 0%Z))
    as (sf' & _ & Htake & Heq).
  { eapply Forall_take. exact Hb. }
  { rewrite length_replicate, length_take. lia. }
  rewrite length_take, Nat.min_l in Htake, Heq by lia.
  assert (Hdata : (g ++ header) ++ flat_map AlpFrame.Encode (take k q)
                    ++ flat_map AlpFrame.Encode (drop k q) ++ suf = data).
  { unfold data. rewrite (flat_Encode_take_drop k q), <- !app_assoc. done. }
  rewrite Hdata in Heq.
  replace (length (g ++ header)) with (length g + 4) in Heq
    by (rewrite length_app; done).
  replace (k + (fuel - k)) with fuel in Heq by lia.
  rewrite Heq. exists sf'. split; [|done].
  exact Htake.
Qed.

(** Behind noise without SOH: a header, the pairs of [q], ETX and four
    more bytes; the outcome is decided by the four bytes as in
    [Parse_frame], and what is consumed includes the noise. *)
Lemma Parse_frame_at g q c1 c2 c3 c4 rest :
  no_SOH g -> is_bytes q ->
  AlpFrame.Parse (g ++ header ++ flat_map AlpFrame.Encode q
                    ++ AlpFrame.ETX :: c1 :: c2 :: c3 :: c4 :: rest)
  = Some match AlpFrame.Decode c1 c2, AlpFrame.Decode c3 c4 with
         | Some fcs, Some fcp =>
             if negb (fcs =? Z.land (sum_enc q 0) 0xff)%Z
                || negb (fcp =? xor_enc q 0)%Z
             then (length g + 4 + 2 * length q + 5, true, None)
             else (length g + 4 + 2 * length q + 5, false, Some q)
         | _, _ => (length g + 4 + 2 * length q, true, None)
         end.
Proof.
  intros Hg Hb.
  set (suf := AlpFrame.ETX :: c1 :: c2 :: c3 :: c4 :: rest).
  set (data := g ++ header ++ flat_map AlpFrame.Encode q ++ suf).
  assert (Hdlen : length data = length g + 4 + 2 * length q + (5 + length rest)).
  { unfold data. rewrite !length_app, length_flat_Encode. simpl. lia. }
  assert (Hfuel : exists m,
             range2_len (length g + 4) (length data / 2 * 2 - 2) - length q = S m).
  { exists (range2_len (length g + 4) (length data / 2 * 2 - 2) - length q - 1).
    unfold range2_len. rewrite Hdlen.
    set (L := length g + 4 + 2 * length q + (5 + length rest)).
    pose proof (Nat.div_mod_eq L 2). pose proof (Nat.mod_upper_bound L 2).
    set (x := L / 2) in *.
    set (y := x * 2 - 2 - (length g + 4) + 1).
    pose proof (Nat.div_mod_eq y 2). pose proof (Nat.mod_upper_bound y 2).
    unfold y, L in *. lia. }
  destruct Hfuel as [m Hm].
  destruct (Parse_at g q suf (length q) Hg Hb) as (sf' & Htake & HP);
    [simpl; lia|lia|fold data; lia|].
  fold data in HP. rewrite HP, Hm. rewrite !firstn_all in *.
  assert (Hpre : length (g ++ header ++ flat_map AlpFrame.Encode q)
                 = length g + 4 + 2 * length q).
  { rewrite !length_app, length_flat_Encode. simpl. lia. }
  assert (Hlk : forall k, data !! (length g + 4 + 2 * length q + k) = suf !! k).
  { intros k. unfold data.
    replace (g ++ header ++ flat_map AlpFrame.Encode q ++ suf)
      with ((g ++ header ++ flat_map AlpFrame.Encode q) ++ suf)
      by (by rewrite <- !app_assoc).
    rewrite <- Hpre. apply lookup_app_add. }
  pose proof (Hlk 0) as H0. rewrite Nat.add_0_r in H0.
  cbn [AlpFrame.scan]. rewrite H0. cbn [suf lookup list_lookup mbind option_bind].
  rewrite Z.eqb_refl. cbn [mbind option_bind AlpFrame.Parse_tail].
  rewrite H0. cbn [suf lookup list_lookup mbind option_bind].
  rewrite Z.eqb_refl. cbn [negb orb].
  destruct (_ <? _) eqn:E; [apply Nat.ltb_lt in E; lia|clear E].
  rewrite !Hlk. cbn [suf lookup list_lookup mbind option_bind].
  rewrite Htake.
  destruct (AlpFrame.Decode c1 c2), (AlpFrame.Decode c3 c4); try done.
  by destruct (_ || _).
Qed.

Lemma Parse_noise_wire g p rest :
  no_SOH g -> is_bytes p ->
  AlpFrame.Parse (g ++ wire p ++ rest)
  = Some (length g + length (wire p), false, Some p).
Proof.
  intros Hg Hb. rewrite length_wire. unfold wire.
  destruct (Encode_Decode _ (land_255_byte (sum_enc p 0)))
    as (h1 & l1 & -> & _ & _ & HD1).
  destruct (Encode_Decode (xor_enc p 0)) as (h2 & l2 & -> & _ & _ & HD2).
  { apply xor_enc_byte; [done|]. unfold is_byte. lia. }
  rewrite <- !app_assoc. cbn [app].
  rewrite Parse_frame_at by done.
  rewrite HD1, HD2, !Z.eqb_refl. cbn [negb orb]. do 3 f_equal. lia.
Qed.

(** Behind noise without SOH: a header and pairs, cut off before the
    frame is complete.  The second loop runs out of data, or finds ETX
    with fewer than four bytes behind it; either way nothing is consumed
    beyond the noise and no NAK is asked for. *)
Lemma Parse_incomplete g q suf :
  no_SOH g -> is_bytes q -> q <> [] ->
  9 <= 4 + 2 * length q + length suf -> length suf <= 4 ->
  (3 <= length suf -> suf !! 0 = Some AlpFrame.ETX) ->
  AlpFrame.Parse (g ++ header ++ flat_map AlpFrame.Encode q ++ suf)
  = Some (length g, false, None).
Proof.
  intros Hg Hb Hq Hlen Hsuf Hetx.
  set (data := g ++ header ++ flat_map AlpFrame.Encode q ++ suf).
  assert (Hdlen : length data = length g + 4 + 2 * length q + length suf).
  { unfold data. rewrite !length_app, length_flat_Encode. simpl. lia. }
  set (fuel := range2_len (length g + 4) (length data / 2 * 2 - 2)).
  assert (Hfuel : fuel <= length q + 1 /\ (length suf <= 2 -> fuel <= length q)).
  { unfold fuel, range2_len. rewrite Hdlen.
    set (L := length g + 4 + 2 * length q + length suf).
    pose proof (Nat.div_mod_eq L 2). pose proof (Nat.mod_upper_bound L 2).
    set (x := L / 2) in *.
    set (y := x * 2 - 2 - (length g + 4) + 1).
    pose proof (Nat.div_mod_eq y 2). pose proof (Nat.mod_upper_bound y 2).
    unfold y, L in *. lia. }
  assert (Hpre : length (g ++ header) = length g + 4).
  { rewrite length_app. done. }
  destruct (le_lt_dec fuel (length q)) as [Hle|Hgt].
  - destruct (Parse_at g q suf fuel Hg Hb Hlen Hle) as (sf' & _ & HP);
      [fold data; fold fuel; lia|].
    fold data in HP. fold fuel in HP. rewrite HP, Nat.sub_diag.
    cbn [AlpFrame.scan mbind option_bind AlpFrame.Parse_tail].
    destruct q as [|d q']; [done|].
    apply Forall_cons in Hb as [Hd _].
    destruct (Encode_Decode d Hd) as (h & l & HE & Hh & _).
    assert (H0 : data !! (length g + 4) = Some h).
    { unfold data. cbn [flat_map]. rewrite HE. cbn [app].
      rewrite app_assoc, <- Hpre. apply lookup_at_length. }
    rewrite H0. cbn [mbind option_bind].
    by rewrite (nibble_not_ETX h Hh).
  - assert (Hf : fuel - length q = 1) by lia.
    destruct (Parse_at g q suf (length q) Hg Hb Hlen) as (sf' & _ & HP);
      [lia|fold data; fold fuel; lia|].
    fold data in HP. fold fuel in HP. rewrite HP, Hf.
    assert (H0 : data !! (length g + 4 + 2 * length q) = Some AlpFrame.ETX).
    { rewrite <- Hetx by lia. unfold data.
      replace (g ++ header ++ flat_map AlpFrame.Encode q ++ suf)
        with ((g ++ header ++ flat_map AlpFrame.Encode q) ++ suf)
        by (by rewrite <- !app_assoc).
      rewrite lookup_app_r; rewrite !length_app, length_flat_Encode;
        [|simpl; lia].
      f_equal. simpl. lia. }
    cbn [AlpFrame.scan]. rewrite H0. cbn [mbind option_bind].
    rewrite Z.eqb_refl. cbn [mbind option_bind AlpFrame.Parse_tail].
    rewrite H0. cbn [mbind option_bind]. rewrite Z.eqb_refl. cbn [negb orb].
    destruct (Nat.ltb_spec (length data - 5) (length g + 4 + 2 * length q));
      [done|lia].
Qed.

(** The first [L] bytes of a frame, for [L] from 9 up to one short of
    the whole: a header, complete pairs, and a remainder that is a half
    pair, or ETX and up to three bytes. *)
Lemma take_frame_shape p tail L :
  is_bytes p -> length tail = 5 -> tail !! 0 = Some AlpFrame.ETX ->
  9 <= L < 4 + 2 * length p + 5 ->
  exists q suf,
    take L (header ++ flat_map AlpFrame.Encode p ++ tail)
    = header ++ flat_map AlpFrame.Encode q ++ suf
    /\ is_bytes q /\ q <> [] /\ L = 4 + 2 * length q + length suf
    /\ length suf <= 4 /\ (3 <= length suf -> suf !! 0 = Some AlpFrame.ETX).
Proof.
  intros Hb Ht Hetx HL.
  rewrite take_app_ge by (simpl; lia). change (length header) with 4.
  destruct (le_lt_dec (2 * length p) (L - 4)) as [Hfull|Hcut].
  - rewrite take_app_ge by (rewrite length_flat_Encode; lia).
    rewrite length_flat_Encode.
    exists p, (take (L - 4 - 2 * length p) tail).
    rewrite length_take.
    split; [done|]. split; [done|].
    split; [intros ->; simpl in *; lia|].
    split; [lia|]. split; [lia|].
    intros H3. destruct tail as [|x t]; [done|].
    destruct (L - 4 - 2 * length p) as [|j] eqn:E; [lia|]. exact Hetx.
  - pose proof (Nat.div_mod_eq (L - 4) 2) as Hdm.
    pose proof (Nat.mod_upper_bound (L - 4) 2 ltac:(lia)) as Hmod.
    set (m := (L - 4) / 2) in *.
    assert (Hm : length (take m p) = m) by (rewrite length_take; lia).
    rewrite (flat_Encode_take_drop m p), <- app_assoc.
    rewrite take_app_ge by (rewrite length_flat_Encode; lia).
    rewrite length_flat_Encode, Hm.
    exists (take m p),
      (take (L - 4 - 2 * m) (flat_map AlpFrame.Encode (drop m p) ++ tail)).
    rewrite !length_take, length_app, Ht.
    split; [done|]. split; [by apply Forall_take|].
    split; [intros Hnil; rewrite Hnil in Hm; simpl in Hm; lia|].
    split; [lia|]. split; lia.
Qed.

Lemma find_start_none n :
  forall data i dlen,
    i + n + 2 <= length data ->
    (forall k, i <= k < i + n -> ~ preamble_at data k) ->
    AlpFrame.find_start n data i dlen = Some dlen.
Proof.
  induction n as [|n IH]; intros data i dlen Hlen Hno; [done|].
  cbn [AlpFrame.find_start].
  destruct (lookup_lt_is_Some_2 data i ltac:(lia)) as [d0 H0].
  destruct (lookup_lt_is_Some_2 data (i + 1) ltac:(lia)) as [d1 H1].
  destruct (lookup_lt_is_Some_2 data (i + 2) ltac:(lia)) as [d2 H2].
  assert (Hnext : AlpFrame.find_start n data (S i) dlen = Some dlen).
  { apply IH; [lia|]. intros k Hk. apply Hno. lia. }
  rewrite H0. cbn [mbind option_bind].
  destruct (Z.eqb_spec d0 AlpFrame.SOH) as [->|_]; [|done]. cbn [negb].
  rewrite H1. cbn [mbind option_bind].
  destruct (Z.eqb_spec d1 AlpFrame.PI1) as [->|_]; [|done]. cbn [negb].
  rewrite H2. cbn [mbind option_bind].
  destruct (Z.eqb_spec d2 AlpFrame.PI2) as [->|_]; [|done].
  exfalso. apply (Hno i); [lia|]. by repeat split.
Qed.

(** X3. Noise before a frame is skipped: for noise [g] without an SOH
    byte, an octet payload [p] and anything [rest] behind the frame,
    [Parse] of [g ++ Write p ++ rest] returns the payload with no NAK and
    consumes exactly the noise and the frame, so that a caller dropping
    the consumed bytes is left with [rest]. *)
Theorem Parse_skips_noise (g p rest frame : list Z) :
  no_SOH g -> is_bytes p -> AlpFrame.Write p = Some frame ->
  AlpFrame.Parse (g ++ frame ++ rest)
  = Some (length g + length frame, false, Some p)
  /\ drop (length g + length frame) (g ++ frame ++ rest) = rest.
Proof.
  intros Hg Hb HW. rewrite Write_spec in HW. injection HW as <-.
  split; [by apply Parse_noise_wire|].
  rewrite app_assoc, <- length_app. apply drop_app_length.
Qed.

Lemma Parse_skips_noise_witness :
  AlpFrame.Parse ([0x61; 0x62] ++ wire [0x01; 0xff] ++ [0x15])%Z
  = Some (2 + length (wire [0x01; 0xff]%Z), false, Some [0x01; 0xff]%Z)
  /\ drop (2 + length (wire [0x01; 0xff]%Z))
       ([0x61; 0x62] ++ wire [0x01; 0xff] ++ [0x15])%Z = [0x15]%Z.
Proof.
  apply (Parse_skips_noise [0x61; 0x62]%Z [0x01; 0xff]%Z [0x15]%Z
           (wire [0x01; 0xff]%Z)).
  - repeat constructor; unfold AlpFrame.SOH; lia.
  - repeat constructor; unfold is_byte; lia.
  - vm_compute. reflexivity.
Defined.

(** X4. Several frames in one buffer come out one per call, in order:
    for chunks each made of SOH-free noise followed by the frame written
    for an octet payload, as many parse attempts as there are chunks, each
    dropping what [Parse] consumed, return exactly the payloads, oldest
    first, and leave what followed the last frame. *)
Theorem parse_frames_stream (items : list (list Z * list Z))
    (chunks : list (list Z)) (tail : list Z) :
  Forall2 (fun it chunk =>
             no_SOH it.1 /\ is_bytes it.2
             /\ exists frame, AlpFrame.Write it.2 = Some frame
                              /\ chunk = it.1 ++ frame) items chunks ->
  parse_frames (length items) (concat chunks ++ tail) = (map snd items, tail).
Proof.
  induction 1 as [|[g p] chunk items chunks (Hg & Hb & frame & HW & ->) _ IH];
    [done|].
  rewrite Write_spec in HW. injection HW as <-.
  cbn [length parse_frames concat map fst snd] in *.
  rewrite <- !app_assoc, Parse_noise_wire by done.
  rewrite (app_assoc g), <- length_app, drop_app_length, IH. done.
Qed.

Lemma parse_frames_stream_witness :
  parse_frames 2
    (concat [[0x61] ++ wire [0x01; 0x02]; wire []] ++ [0x05])%Z
  = ([[0x01; 0x02]; []]%Z, [0x05]%Z).
Proof.
  apply (parse_frames_stream [([0x61], [0x01; 0x02]); ([], [])]%Z
           [[0x61] ++ wire [0x01; 0x02]; wire []]%Z [0x05]%Z).
  constructor; [|constructor; [|constructor]].
  - split; [repeat constructor; unfold AlpFrame.SOH; simpl; lia|].
    split; [repeat constructor; unfold is_byte; simpl; lia|].
    exists (wire [0x01; 0x02]%Z). split; [vm_compute; reflexivity|reflexivity].
  - split; [constructor|]. split; [constructor|].
    exists (wire []). split; [vm_compute; reflexivity|reflexivity].
Defined.

(** X5. A frame that has not arrived completely is kept: with SOH-free
    noise [g] in front, the first [L] bytes of the frame written for an
    octet payload, for any [L] from 9 up to one short of the frame, make
    [Parse] consume the noise only, with no NAK and no frame; and once the
    remaining bytes are appended to what was kept, [Parse] returns the
    payload. *)
Theorem Parse_partial_frame (g p frame : list Z) (L : nat) :
  no_SOH g -> is_bytes p -> AlpFrame.Write p = Some frame ->
  9 <= L < length frame ->
  AlpFrame.Parse (g ++ take L frame) = Some (length g, false, None)
  /\ AlpFrame.Parse (drop (length g) (g ++ take L frame) ++ drop L frame)
     = Some (length frame, false, Some p).
Proof.
  intros Hg Hb HW HL. rewrite Write_spec in HW. injection HW as <-.
  split.
  - rewrite length_wire in HL. unfold wire.
    destruct (Encode_shape (Z.land (sum_enc p 0) 255)) as (h1 & l1 & ->).
    destruct (Encode_shape (xor_enc p 0)) as (h2 & l2 & ->).
    destruct (take_frame_shape p ([AlpFrame.ETX] ++ [h1; l1] ++ [h2; l2]) L Hb)
      as (q & suf & -> & Hq & Hne & HLq & Hsuf & Hetx); [done|done|lia|].
    apply Parse_incomplete; try done. lia.
  - rewrite drop_app_length, take_drop. by apply Parse_wire.
Qed.

Lemma Parse_partial_frame_witness :
  AlpFrame.Parse ([0x61] ++ take 11 (wire [0x01; 0x02]))%Z
  = Some (1, false, None)
  /\ AlpFrame.Parse
       (drop 1 ([0x61] ++ take 11 (wire [0x01; 0x02]))
          ++ drop 11 (wire [0x01; 0x02]))%Z
     = Some (length (wire [0x01; 0x02]%Z), false, Some [0x01; 0x02]%Z).
Proof.
  apply (Parse_partial_frame [0x61]%Z [0x01; 0x02]%Z (wire [0x01; 0x02]%Z) 11).
  - repeat constructor; unfold AlpFrame.SOH; lia.
  - repeat constructor; unfold is_byte; lia.
  - vm_compute. reflexivity.
  - vm_compute. lia.
Defined.

(** X6. A buffer of nine bytes or more in which no preamble SOH 'A' '2'
    starts at any offset up to [len - 9] is consumed whole, with no NAK
    and no frame; the last eight bytes are not searched, so the head of a
    frame lying there is discarded with the rest. *)
Theorem Parse_no_preamble (data : list Z) :
  9 <= length data ->
  (forall i, i + 9 <= length data -> ~ preamble_at data i) ->
  AlpFrame.Parse data = Some (length data, false, None).
Proof.
  intros Hlen Hno. unfold AlpFrame.Parse.
  destruct (Nat.ltb_spec (length data) 9) as [?|_]; [lia|].
  rewrite find_start_none; [|lia|intros k Hk; apply Hno; lia].
  cbn [mbind option_bind].
  destruct (Nat.ltb_spec (length data - 9) (length data)) as [_|?]; [done|lia].
Qed.

Lemma Parse_no_preamble_witness :
  AlpFrame.Parse
    [0x61; 0x62; 0x63; 0x64; 0x65; 0x66; 0x67; 0x68; 0x69; 0x6a; 0x01; 0x41]%Z
  = Some (12, false, None).
Proof.
  apply (Parse_no_preamble
    [0x61; 0x62; 0x63; 0x64; 0x65; 0x66; 0x67; 0x68; 0x69; 0x6a; 0x01; 0x41]%Z).
  - simpl. lia.
  - intros i Hi [H0 _]. simpl in Hi.
    destruct i as [|[|[|[|i]]]]; try (simpl in Hi; lia); discriminate H0.
Defined.

(** ** Where a NAK leaves the buffer *)

Lemma find_start_noise g :
  forall pre n rest dlen,
    no_SOH g ->
    AlpFrame.find_start (length g + S n)
      (pre ++ g ++ AlpFrame.SOH :: AlpFrame.PI1 :: AlpFrame.PI2 :: rest)
      (length pre) dlen
    = Some (length pre + length g).
Proof.
  induction g as [|x g IH]; intros pre n rest dlen Hg.
  - cbn [length Nat.add app AlpFrame.find_start].
    rewrite lookup_at_length. cbn [mbind option_bind].
    rewrite lookup_at_length_1. cbn [mbind option_bind].
    replace (pre ++ AlpFrame.SOH :: AlpFrame.PI1 :: AlpFrame.PI2 :: rest)
      with ((pre ++ [AlpFrame.SOH; AlpFrame.PI1]) ++ AlpFrame.PI2 :: rest)
      by (by rewrite <- app_assoc).
    replace (length pre + 2) with (length (pre ++ [AlpFrame.SOH; AlpFrame.PI1]))
      by (rewrite length_app; simpl; lia).
    rewrite lookup_at_length. cbn [mbind option_bind].
    rewrite !Z.eqb_refl. cbn [negb]. f_equal. lia.
  - apply Forall_cons in Hg as [Hx Hg].
    cbn [length Nat.add app AlpFrame.find_start].
    rewrite lookup_at_length. cbn [mbind option_bind].
    apply Z.eqb_neq in Hx. rewrite Hx. cbn [negb].
    specialize (IH (pre ++ [x]) n rest dlen Hg).
    rewrite <- app_assoc, length_app in IH. cbn [app length] in IH.
    replace (S (length pre)) with (length pre + 1) by lia.
    rewrite IH. f_equal. lia.
Qed.

Lemma Decode_not_nibbles h l :
  ~ (is_nibble h /\ is_nibble l) -> AlpFrame.Decode h l = None.
Proof.
  intros Hn.
  destruct (Z_le_dec 0x30 h) as [H1|H1];
    [|apply Decode_None_l; unfold is_nibble; lia].
  destruct (Z_le_dec h 0x3f) as [H2|H2];
    [|apply Decode_None_l; unfold is_nibble; lia].
  apply Decode_None_r. unfold is_nibble in *. lia.
Qed.

(** X7. A preamble that is not followed by STX is answered with a NAK:
    behind SOH-free noise [g], the bytes SOH 'A' '2' and a fourth byte
    other than STX, with at least five more bytes behind them, make
    [Parse] ask for a NAK and consume the noise and these four bytes, no
    more: what followed them stays in the buffer. *)
Theorem Parse_bad_header (g rest : list Z) (x : Z) :
  no_SOH g -> x <> AlpFrame.STX -> 5 <= length rest ->
  AlpFrame.Parse (g ++ [AlpFrame.SOH; AlpFrame.PI1; AlpFrame.PI2; x] ++ rest)
  = Some (length g + 4, true, None)
  /\ drop (length g + 4)
       (g ++ [AlpFrame.SOH; AlpFrame.PI1; AlpFrame.PI2; x] ++ rest) = rest.
Proof.
  intros Hg Hx Hrest. split.
  - set (data := g ++ _ ++ rest).
    assert (Hdlen : length data = length g + 4 + length rest).
    { unfold data. rewrite !length_app. simpl. lia. }
    unfold AlpFrame.Parse.
    destruct (Nat.ltb_spec (length data) 9) as [?|_]; [lia|].
    replace (length data - 9 + 1)
      with (length g + S (length data - 9 - length g)) by lia.
    pose proof (find_start_noise g [] (length data - 9 - length g)
                  (x :: rest) (length data) Hg) as Hfs.
    cbn [app length Nat.add] in Hfs.
    change (AlpFrame.find_start (length g + S (length data - 9 - length g))
              data 0 (length data) = Some (length g)) in Hfs.
    rewrite Hfs. cbn [mbind option_bind].
    destruct (Nat.ltb_spec (length data - 9) (length g)) as [?|_]; [lia|].
    assert (Hstx : data !! (length g + 3) = Some x).
    { unfold data. by rewrite lookup_app_add. }
    rewrite Hstx. cbn [mbind option_bind].
    apply Z.eqb_neq in Hx. by rewrite Hx.
  - rewrite app_assoc.
    replace (length g + 4)
      with (length (g ++ [AlpFrame.SOH; AlpFrame.PI1; AlpFrame.PI2; x]))
      by (rewrite length_app; done).
    apply drop_app_length.
Qed.

Lemma Parse_bad_header_witness :
  AlpFrame.Parse ([0x61] ++ [AlpFrame.SOH; AlpFrame.PI1; AlpFrame.PI2; 0x03]
                    ++ [0x30; 0x31; 0x03; 0x30; 0x30])%Z
  = Some (1 + 4, true, None)
  /\ drop (1 + 4)
       ([0x61] ++ [AlpFrame.SOH; AlpFrame.PI1; AlpFrame.PI2; 0x03]
          ++ [0x30; 0x31; 0x03; 0x30; 0x30])%Z
     = [0x30; 0x31; 0x03; 0x30; 0x30]%Z.
Proof.
  apply (Parse_bad_header [0x61]%Z [0x30; 0x31; 0x03; 0x30; 0x30]%Z 0x03%Z).
  - repeat constructor; unfold AlpFrame.SOH; lia.
  - unfold AlpFrame.STX. lia.
  - simpl. lia.
Defined.

(** X8. A pair of payload bytes that cannot be decoded is answered with
    a NAK that leaves the pair in the buffer: behind SOH-free noise, a
    header and the pairs of octets [q], a pair [x y] that does not start
    with ETX and is not made of two nibble bytes, with at least three
    bytes behind it, makes [Parse] ask for a NAK and consume everything
    before the pair; the pair and what follows stay. *)
Theorem Parse_nack_keeps_bad_pair (g q rest : list Z) (x y : Z) :
  no_SOH g -> is_bytes q -> x <> AlpFrame.ETX ->
  ~ (is_nibble x /\ is_nibble y) -> 3 <= length rest ->
  AlpFrame.Parse (g ++ header ++ flat_map AlpFrame.Encode q ++ x :: y :: rest)
  = Some (length g + 4 + 2 * length q, true, None)
  /\ drop (length g + 4 + 2 * length q)
       (g ++ header ++ flat_map AlpFrame.Encode q ++ x :: y :: rest)
     = x :: y :: rest.
Proof.
  intros Hg Hb Hx Hn Hrest.
  assert (Hpre : length (g ++ header ++ flat_map AlpFrame.Encode q)
                 = length g + 4 + 2 * length q).
  { rewrite !length_app, length_flat_Encode. simpl. lia. }
  assert (Hassoc : g ++ header ++ flat_map AlpFrame.Encode q ++ x :: y :: rest
                   = (g ++ header ++ flat_map AlpFrame.Encode q) ++ x :: y :: rest).
  { by rewrite <- !app_assoc. }
  split; [|rewrite Hassoc, <- Hpre; apply drop_app_length].
  set (suf := x :: y :: rest).
  set (data := g ++ header ++ flat_map AlpFrame.Encode q ++ suf).
  assert (Hdlen : length data = length g + 4 + 2 * length q + (2 + length rest)).
  { unfold data. rewrite !length_app, length_flat_Encode. simpl. lia. }
  assert (Hfuel : exists m,
             range2_len (length g + 4) (length data / 2 * 2 - 2) - length q = S m).
  { exists (range2_len (length g + 4) (length data / 2 * 2 - 2) - length q - 1).
    unfold range2_len. rewrite Hdlen.
    set (L := length g + 4 + 2 * length q + (2 + length rest)).
    pose proof (Nat.div_mod_eq L 2). pose proof (Nat.mod_upper_bound L 2).
    set (z := L / 2) in *.
    set (w := z * 2 - 2 - (length g + 4) + 1).
    pose proof (Nat.div_mod_eq w 2). pose proof (Nat.mod_upper_bound w 2).
    unfold w, L in *. lia. }
  destruct Hfuel as [m Hm].
  destruct (Parse_at g q suf (length q) Hg Hb) as (sf' & _ & HP);
    [simpl; lia|lia|fold data; lia|].
  fold data in HP. rewrite HP, Hm.
  assert (Hlk : forall k, data !! (length g + 4 + 2 * length q + k) = suf !! k).
  { intros k. unfold data. fold suf in Hassoc. rewrite Hassoc, <- Hpre.
    apply lookup_app_add. }
  pose proof (Hlk 0) as H0. rewrite Nat.add_0_r in H0.
  cbn [AlpFrame.scan]. rewrite H0, Hlk.
  cbn [suf lookup list_lookup mbind option_bind].
  apply Z.eqb_neq in Hx. rewrite Hx. cbn [mbind option_bind].
  by rewrite (Decode_not_nibbles x y Hn).
Qed.

Lemma Parse_nack_keeps_bad_pair_witness :
  AlpFrame.Parse
    ([0x61] ++ header ++ flat_map AlpFrame.Encode [0x12]
       ++ 0x41 :: 0x42 :: [0x03; 0x30; 0x30])%Z
  = Some (1 + 4 + 2 * 1, true, None)
  /\ drop (1 + 4 + 2 * 1)
       ([0x61] ++ header ++ flat_map AlpFrame.Encode [0x12]
          ++ 0x41 :: 0x42 :: [0x03; 0x30; 0x30])%Z
     = (0x41 :: 0x42 :: [0x03; 0x30; 0x30])%Z.
Proof.
  apply (Parse_nack_keeps_bad_pair [0x61]%Z [0x12]%Z [0x03; 0x30; 0x30]%Z
           0x41%Z 0x42%Z).
  - repeat constructor; unfold AlpFrame.SOH; lia.
  - repeat constructor; unfold is_byte; lia.
  - unfold AlpFrame.ETX. lia.
  - unfold is_nibble. lia.
  - simpl. lia.
Defined.

(** * Further properties of the session *)

(** ** Downlink transmission *)

(** X9. [transmit] never raises.  On a closed port it changes nothing.
    On an open port it writes once, unflushed, the frame [Write] makes of
    the serialized message, which [Parse] reads back as that serialized
    message; the frame replaces whatever was in the downlink slot, the
    message counter grows by one, the downlink timestamp is the clock
    reading taken, an inactive session becomes ACTIVE_MASTER and an
    active one stays as it is; the retransmit count is not reset, and
    receive buffer, faults and notifications are untouched. *)
Theorem transmit_effect (SNAPMsg_write : SNAPMsg -> list Z) (msg : SNAPMsg)
    (s : Alp.AlpPort) :
  is_bytes (SNAPMsg_write msg) ->
  exists s',
    Alp.transmit SNAPMsg_write msg s = Some s'
    /\ (s.(Alp.port) = false -> s' = s)
    /\ (s.(Alp.port) = true ->
        exists frame,
          AlpFrame.Write (SNAPMsg_write msg) = Some frame
          /\ AlpFrame.Parse frame
             = Some (length frame, false, Some (SNAPMsg_write msg))
          /\ s'.(Alp.downlink_buffer) = frame
          /\ s'.(Alp.written) = s.(Alp.written) ++ [(frame, false)]
          /\ s'.(Alp.message_counter) = (s.(Alp.message_counter) + 1)%Z
          /\ s'.(Alp.latest_downlink_event_time)
             = s.(Alp.clock) (s.(Alp.clock_reads))
          /\ s'.(Alp.clock_reads) = S (s.(Alp.clock_reads))
          /\ s'.(Alp.session_state)
             = (if Alp.session_is_active s then s.(Alp.session_state)
                else Alp.SESSION_ACTIVE_MASTER)
          /\ s'.(Alp.downlink_retransmit_count) = s.(Alp.downlink_retransmit_count)
          /\ s'.(Alp.rx_buffer) = s.(Alp.rx_buffer)
          /\ s'.(Alp.active_faults) = s.(Alp.active_faults)
          /\ s'.(Alp.upstream) = s.(Alp.upstream)).
Proof.
  intros Hb. unfold Alp.transmit, Alp.time_time.
  rewrite Write_spec. cbn [mbind option_bind].
  destruct (Alp.port s) eqn:Hport; cbn [negb].
  - eexists. split; [reflexivity|]. split; [done|]. intros _.
    exists (wire (SNAPMsg_write msg)).
    split; [done|]. split; [by apply Parse_wire|].
    unfold Alp.session_is_active.
    destruct (Alp.session_state s) eqn:Hst; cbn [negb]; state_simpl;
      unfold Alp.session_begin, Alp.write; state_simpl; rewrite ?Hst; done.
  - eexists. split; [reflexivity|]. split; [done|]. done.
Qed.

Lemma transmit_effect_witness :
  exists s',
    Alp.transmit demo_SNAPMsg_write demo_msg demo_port = Some s'
    /\ s'.(Alp.written) = [(wire [0x01%Z], false)]
    /\ s'.(Alp.session_state) = Alp.SESSION_ACTIVE_MASTER.
Proof.
  destruct (transmit_effect demo_SNAPMsg_write demo_msg demo_port)
    as (s' & Ht & _ & Hopen).
  - repeat constructor; unfold is_byte; lia.
  - exists s'. split; [exact Ht|].
    destruct Hopen as (frame & HW & _ & _ & Hw & _ & _ & _ & Hst & _);
      [reflexivity|].
    assert (Hf : frame = wire [0x01%Z]).
    { vm_compute in HW. injection HW as <-. vm_compute. reflexivity. }
    rewrite Hw, Hst, Hf. split; [vm_compute; reflexivity|vm_compute; reflexivity].
Defined.

(** ** Uplink frames *)

Lemma wire_not_control payload s :
  fst (Alp.check_control_char (wire payload) s) = false.
Proof. by rewrite check_control_char_cases. Qed.

Lemma length_wire_nonzero payload : (length (wire payload) =? 0) = false.
Proof. by rewrite length_wire. Qed.

(** The turn of the receive loop on a buffer that holds exactly one
    written frame with a payload. *)
Lemma on_receive_iter_wire SNAPMsg_Parse s b f valid :
  s.(Alp.rx_buffer) = wire (b :: f) -> is_bytes (b :: f) ->
  Alp.on_receive_iter SNAPMsg_Parse s (wire (b :: f)) valid
  = (let s := Alp.set_rx_buffer [] s in
     let s := if negb (Alp.session_is_active s)
              then Alp.session_begin Alp.SESSION_ACTIVE_CLIENT s else s in
     let msg := SNAPMsg_Parse (b :: f) in
     '(s, valid) ←
       (if negb (msg.(empty)) then s ← Alp.dispatch msg s; Some (s, true)
        else Some (s, valid));
     Some (Alp.send_ack s, [], length (wire (b :: f)), valid)).
Proof.
  intros Hrx Hb.
  rewrite on_receive_iter_parse by apply wire_not_control.
  rewrite Parse_wire by done. cbn [mbind option_bind].
  rewrite length_wire_nonzero. cbn [negb].
  unfold Alp.consume_rx_buffer. rewrite Hrx, drop_all. cbv zeta.
  destruct (negb (empty (SNAPMsg_Parse (b :: f)))); [|done].
  by destruct (Alp.dispatch _ _).
Qed.

Lemma on_receive_end_session s valid :
  (Alp.on_receive_end s [] valid).(Alp.downlink_buffer) = []
  /\ (Alp.on_receive_end s [] valid).(Alp.downlink_retransmit_count) = 0%Z
  /\ (Alp.on_receive_end s [] valid).(Alp.message_counter) = s.(Alp.message_counter).
Proof. unfold Alp.on_receive_end, Alp.time_time. cbv zeta. by_cases. Qed.

Lemma on_receive_end_quiet s data :
  (Alp.on_receive_end s data false).(Alp.upstream) = s.(Alp.upstream)
  /\ (Alp.on_receive_end s data false).(Alp.clock_reads) = s.(Alp.clock_reads).
Proof. unfold Alp.on_receive_end. by destruct (_ =? _). Qed.

Lemma on_receive_end_uplink s data :
  (Alp.on_receive_end s data true).(Alp.latest_uplink_event_time)
  = s.(Alp.clock) (s.(Alp.clock_reads))
  /\ (Alp.on_receive_end s data true).(Alp.line_fault_over_msg_sent) = true.
Proof.
  unfold Alp.on_receive_end, Alp.time_time. cbv zeta.
  destruct (length data =? 0);
    destruct (Alp.line_fault_over_msg_sent s) eqn:Hs;
    destruct (Alp.list_in "linefault" (Alp.active_faults s)) eqn:Hin;
    state_simpl; rewrite ?Hin, ?Hs; state_simpl; rewrite ?Hs; state_simpl;
    rewrite ?Hs; done.
Qed.

(** X10. A complete frame with a payload, arriving in one chunk on an
    empty receive buffer.  If the SNAP parser finds the message empty, or
    the protocol's handler does not log it as discarded, the frame is
    acknowledged: [receive] returns, the buffer is empty again, exactly
    one buffer was written, ACK, flushed, and the session is left FINISHED
    with the downlink slot empty and the retransmit count 0, whatever
    downlink was in flight before; for an empty message nothing goes
    upstream and the uplink timestamp stays, otherwise the uplink
    timestamp is the clock reading taken after the one for the ACK, and
    the one-shot flag is set.  If the message is not empty and the handler
    logs it as discarded, [receive] raises: the frame is not
    acknowledged. *)
Theorem receive_frame_acked (SNAPMsg_Parse : list Z -> SNAPMsg)
    (payload frame : list Z) (s : Alp.AlpPort) :
  s.(Alp.rx_buffer) = [] -> is_bytes payload -> payload <> [] ->
  AlpFrame.Write payload = Some frame ->
  ((SNAPMsg_Parse payload).(empty) = true
   \/ dispatch_raises (s.(Alp.serial_snap_proto)) (SNAPMsg_Parse payload) = false ->
   exists s',
     Alp.receive SNAPMsg_Parse frame s = Some s'
     /\ s'.(Alp.rx_buffer) = []
     /\ s'.(Alp.written) = s.(Alp.written) ++ [(Alp.ACK, true)]
     /\ s'.(Alp.session_state) = Alp.SESSION_FINISHED
     /\ s'.(Alp.downlink_buffer) = []
     /\ s'.(Alp.downlink_retransmit_count) = 0%Z
     /\ s'.(Alp.message_counter) = s.(Alp.message_counter)
     /\ ((SNAPMsg_Parse payload).(empty) = true ->
         s'.(Alp.upstream) = s.(Alp.upstream)
         /\ s'.(Alp.latest_uplink_event_time) = s.(Alp.latest_uplink_event_time))
     /\ ((SNAPMsg_Parse payload).(empty) = false ->
         s'.(Alp.latest_uplink_event_time)
         = s.(Alp.clock) (S (s.(Alp.clock_reads)))
         /\ s'.(Alp.line_fault_over_msg_sent) = true))
  /\ ((SNAPMsg_Parse payload).(empty) = false ->
      dispatch_raises (s.(Alp.serial_snap_proto)) (SNAPMsg_Parse payload) = true ->
      Alp.receive SNAPMsg_Parse frame s = None).
Proof.
  intros Hrx Hb Hne HW. rewrite Write_spec in HW. injection HW as <-.
  destruct payload as [|b f]; [done|]. clear Hne.
  unfold Alp.receive. cbv zeta. rewrite Hrx. cbn [app].
  set (s0 := Alp.set_rx_buffer (wire (b :: f)) s).
  change (Alp.rx_buffer s0) with (wire (b :: f)).
  unfold Alp.on_receive. change (Alp.rx_buffer s0) with (wire (b :: f)).
  rewrite on_receive_loop_step; [|done|by unfold wire].
  rewrite on_receive_iter_wire by done. cbv zeta.
  set (m := SNAPMsg_Parse (b :: f)).
  set (s1 := Alp.set_rx_buffer [] s0).
  set (s2 := if negb (Alp.session_is_active s1) then _ else s1).
  assert (Hs2 : s2.(Alp.rx_buffer) = [] /\ s2.(Alp.written) = s.(Alp.written)
                /\ s2.(Alp.message_counter) = s.(Alp.message_counter)
                /\ s2.(Alp.upstream) = s.(Alp.upstream)
                /\ s2.(Alp.latest_uplink_event_time) = s.(Alp.latest_uplink_event_time)
                /\ s2.(Alp.clock) = s.(Alp.clock)
                /\ s2.(Alp.clock_reads) = s.(Alp.clock_reads)
                /\ s2.(Alp.serial_snap_proto) = s.(Alp.serial_snap_proto)).
  { unfold s2. by destruct (negb _). }
  clearbody s2. clear s1 s0.
  destruct Hs2 as (R1 & R2 & R3 & R4 & R5 & R6 & R7 & R8).
  split.
  - intros Hok.
    assert (Hs3 : exists s3,
              (if negb (empty m) then s ← Alp.dispatch m s2; Some (s, true)
               else Some (s2, false))
              = Some (s3, if negb (empty m) then true else false)
              /\ s3.(Alp.rx_buffer) = [] /\ s3.(Alp.written) = s.(Alp.written)
              /\ s3.(Alp.message_counter) = s.(Alp.message_counter)
              /\ (empty m = true -> s3.(Alp.upstream) = s.(Alp.upstream))
              /\ s3.(Alp.latest_uplink_event_time) = s.(Alp.latest_uplink_event_time)
              /\ s3.(Alp.clock) = s.(Alp.clock)
              /\ s3.(Alp.clock_reads) = s.(Alp.clock_reads)).
    { destruct (empty m) eqn:He; cbn [negb]; [by exists s2|].
      destruct Hok as [?|Hok]; [done|]. rewrite <- R8 in Hok.
      destruct (dispatch_Some m s2 Hok) as (s3 & Hd). rewrite Hd.
      destruct (dispatch_written _ _ _ Hd) as (D1 & D2 & _ & _ & D5 & D6 & D7 & D8).
      exists s3. cbn [mbind option_bind]. split; [done|].
      rewrite D1, D2, D5, D6, D7, D8. done. }
    destruct Hs3 as (s3 & -> & T1 & T2 & T3 & T4 & T5 & T6 & T7).
    cbn [mbind option_bind].
    rewrite on_receive_loop_stop by (by right). cbn [mbind option_bind].
    eexists. split; [reflexivity|].
    clear R1 R2 R3 R4 R5 R6 R7 R8.
    set (s4 := Alp.send_ack s3).
    assert (Hs4 : s4.(Alp.rx_buffer) = []
                  /\ s4.(Alp.written) = s.(Alp.written) ++ [(Alp.ACK, true)]
                  /\ s4.(Alp.message_counter) = s.(Alp.message_counter)
                  /\ (empty m = true -> s4.(Alp.upstream) = s.(Alp.upstream))
                  /\ s4.(Alp.latest_uplink_event_time) = s.(Alp.latest_uplink_event_time)
                  /\ s4.(Alp.clock) = s.(Alp.clock)
                  /\ s4.(Alp.clock_reads) = S (s.(Alp.clock_reads))).
    { unfold s4, Alp.send_ack.
      rewrite transmit_control_char_rx_buffer, transmit_control_char_written, T2.
      unfold Alp.transmit_control_char, Alp.time_time.
      destruct (negb _); unfold Alp.write, Alp.session_begin; state_simpl;
        rewrite ?T6, ?T7; done. }
    clearbody s4. clear T1 T2 T3 T4 T5 T6 T7.
    destruct Hs4 as (R1 & R2 & R3 & R4 & R5 & R6 & R7).
    destruct (on_receive_end_frame s4 [] (if negb (empty m) then true else false))
      as (-> & -> & ->).
    destruct (on_receive_end_session s4 (if negb (empty m) then true else false))
      as (-> & -> & ->).
    repeat (split; [done|]).
    split; intros He; rewrite He; cbn [negb].
    + destruct (on_receive_end_quiet s4 []) as (-> & _).
      destruct (on_receive_end_invalid s4 []) as (-> & _).
      split; [by apply R4|done].
    + destruct (on_receive_end_uplink s4 []) as (-> & ->).
      by rewrite R6, R7.
  - intros He Hr. rewrite He. cbn [negb].
    rewrite <- R8 in Hr. apply dispatch_None in Hr. rewrite Hr. done.
Qed.

Lemma receive_frame_acked_witness :
  (exists s',
     Alp.receive demo_SNAPMsg_Parse (wire [0x41%Z]) demo_sent = Some s'
     /\ s'.(Alp.written) = demo_sent.(Alp.written) ++ [(Alp.ACK, true)]
     /\ s'.(Alp.session_state) = Alp.SESSION_FINISHED
     /\ s'.(Alp.downlink_buffer) = [])
  /\ Alp.receive demo_discarded_Parse (wire [0x41%Z]) demo_sent = None.
Proof.
  split.
  - destruct (receive_frame_acked demo_SNAPMsg_Parse [0x41%Z] (wire [0x41%Z])
                demo_sent) as [Hok _].
    + vm_compute. reflexivity.
    + repeat constructor; unfold is_byte; lia.
    + discriminate.
    + vm_compute. reflexivity.
    + destruct Hok as (s' & Hr & _ & Hw & Hst & Hdl & _);
        [right; vm_compute; reflexivity|].
      exists s'. split; [exact Hr|]. split; [exact Hw|].
      split; [exact Hst|exact Hdl].
  - destruct (receive_frame_acked demo_discarded_Parse [0x41%Z] (wire [0x41%Z])
                demo_sent) as [_ Hraise].
    + vm_compute. reflexivity.
    + repeat constructor; unfold is_byte; lia.
    + discriminate.
    + vm_compute. reflexivity.
    + apply Hraise; vm_compute; reflexivity.
Defined.

(** X11. A frame with an empty payload is swallowed without an answer:
    arriving in one chunk on an empty receive buffer, the nine bytes
    [Write] makes of the empty payload are consumed, nothing is written
    to the port, neither ACK nor NAK, nothing goes upstream and the uplink
    timestamp stays; the session is left FINISHED. *)
Theorem receive_empty_frame_silent (SNAPMsg_Parse : list Z -> SNAPMsg)
    (frame : list Z) (s : Alp.AlpPort) :
  s.(Alp.rx_buffer) = [] -> AlpFrame.Write [] = Some frame ->
  length frame = 9
  /\ exists s',
       Alp.receive SNAPMsg_Parse frame s = Some s'
       /\ s'.(Alp.rx_buffer) = []
       /\ s'.(Alp.written) = s.(Alp.written)
       /\ s'.(Alp.upstream) = s.(Alp.upstream)
       /\ s'.(Alp.latest_uplink_event_time) = s.(Alp.latest_uplink_event_time)
       /\ s'.(Alp.session_state) = Alp.SESSION_FINISHED.
Proof.
  intros Hrx HW. rewrite Write_spec in HW. injection HW as <-.
  split; [done|].
  unfold Alp.receive. cbv zeta. rewrite Hrx. cbn [app].
  set (s0 := Alp.set_rx_buffer (wire []) s).
  change (Alp.rx_buffer s0) with (wire []).
  unfold Alp.on_receive. change (Alp.rx_buffer s0) with (wire []).
  rewrite on_receive_loop_step; [|done|by unfold wire].
  rewrite on_receive_iter_parse by apply wire_not_control.
  rewrite Parse_wire by constructor. cbn [mbind option_bind].
  rewrite length_wire_nonzero. cbn [negb andb].
  unfold Alp.consume_rx_buffer.
  change (Alp.rx_buffer s0) with (wire []). rewrite drop_all.
  cbn [mbind option_bind].
  rewrite on_receive_loop_stop by (by right). cbn [mbind option_bind].
  eexists. split; [reflexivity|].
  destruct (on_receive_end_frame (Alp.set_rx_buffer [] s0) [] false)
    as (-> & -> & ->).
  destruct (on_receive_end_quiet (Alp.set_rx_buffer [] s0) []) as (-> & _).
  destruct (on_receive_end_invalid (Alp.set_rx_buffer [] s0) []) as (-> & _).
  done.
Qed.

Lemma receive_empty_frame_silent_witness :
  length (wire []) = 9
  /\ exists s',
       Alp.receive demo_SNAPMsg_Parse (wire []) demo_port = Some s'
       /\ s'.(Alp.rx_buffer) = []
       /\ s'.(Alp.written) = demo_port.(Alp.written)
       /\ s'.(Alp.upstream) = demo_port.(Alp.upstream)
       /\ s'.(Alp.latest_uplink_event_time)
          = demo_port.(Alp.latest_uplink_event_time)
       /\ s'.(Alp.session_state) = Alp.SESSION_FINISHED.
Proof.
  apply (receive_empty_frame_silent demo_SNAPMsg_Parse (wire []) demo_port).
  - vm_compute. reflexivity.
  - vm_compute. reflexivity.
Defined.

(** ** What stays in the receive buffer *)

(** X12. What [receive] leaves in the receive buffer, for every state
    and every chunk.  [receive] returns, unless the loop, going through
    the old buffer followed by the chunk, comes to a frame with a message,
    not empty, that the handler of the protocol logs as discarded: there
    the handler raises.  When it returns, the buffer is a suffix of the old buffer followed by the
    chunk; it is shorter than 1024 bytes; and it is empty, or it does not
    start with a control byte and is data of which [Parse] consumes
    nothing, that is, fewer than nine bytes or bytes that start with the
    frame header SOH 'A' '2' STX. *)
Theorem receive_leaves_incomplete (SNAPMsg_Parse : list Z -> SNAPMsg)
    (chunk : list Z) (s : Alp.AlpPort) :
  (Alp.receive SNAPMsg_Parse chunk s = None
   <-> raise_reached SNAPMsg_Parse (s.(Alp.serial_snap_proto))
         (s.(Alp.rx_buffer) ++ chunk))
  /\ (forall s',
        Alp.receive SNAPMsg_Parse chunk s = Some s' ->
        (exists k, s'.(Alp.rx_buffer) = drop k (s.(Alp.rx_buffer) ++ chunk))
        /\ length (s'.(Alp.rx_buffer)) < Alp.RX_BUFFER_MAX_LEN
        /\ (s'.(Alp.rx_buffer) = []
            \/ (starts_with_control (s'.(Alp.rx_buffer)) = false
                /\ AlpFrame.Parse (s'.(Alp.rx_buffer)) = Some (0, false, None)
                /\ (length (s'.(Alp.rx_buffer)) < 9
                    \/ exists rest, s'.(Alp.rx_buffer) = header ++ rest)))).
Proof.
  unfold Alp.receive. cbv zeta.
  set (buf := s.(Alp.rx_buffer) ++ chunk).
  set (s0 := Alp.set_rx_buffer buf s).
  destruct (on_receive_spec SNAPMsg_Parse s0) as [Hsome Hnone].
  split; [exact Hnone|].
  intros s' Hrecv.
  destruct (Hsome s' Hrecv) as (sl & dl & vl & _ & -> & _ & _ & Hk & Hlen & Hstuck).
  destruct (on_receive_end_frame sl dl vl) as (_ & _ & ->).
  split; [exact Hk|]. split; [done|].
  destruct Hstuck as [?|[Hctl HP]]; [by left|right].
  split; [done|]. split; [done|].
  by destruct (Parse_zero _ _ _ HP) as (_ & _ & ?).
Qed.

(** ** What holds in every state *)














(** ** Uplink messages forwarded to the alarm sink *)

Lemma strip_cr_no_cr text : 13%Z ∉ strip_cr text.
Proof. unfold strip_cr. by intros [? _]%list_elem_of_filter. Qed.

Lemma strip_cr_keeps text c :
  c <> 13%Z -> (c ∈ strip_cr text) <-> (c ∈ text).
Proof. unfold strip_cr. rewrite list_elem_of_filter. tauto. Qed.


Lemma hhl_content_Return msg :
  Alp.hhl_content msg = Alp.Return <-> hhl_heartbeat msg = true.
Proof.
  unfold Alp.hhl_content, hhl_heartbeat. cbv zeta.
  z_cases; split; congruence.
Qed.

(** X14. What [on_message_hhl] does with a message.  On a message of
    service class 91, 92 or 94 it raises: [__log_discarded_msg] fails in
    [str.format] with a KeyError, and nothing is forwarded.  The heartbeat
    (service class 1, type 9, loop 2000) is dropped: the handler returns
    and changes nothing.  Every other message is forwarded exactly once,
    as one cloud alarm whose numeric fields are those of the message and
    whose data is the message's data with every CR removed and nothing
    else changed; a message of a service class other than 1 carries the
    content "non-specified"; and nothing but the alarm sink is touched. *)
Theorem on_message_hhl_forwarding (msg : SNAPMsg) (s : Alp.AlpPort) :
  (hhl_raises msg = true -> Alp.on_message_hhl msg s = None)
  /\ (hhl_heartbeat msg = true -> Alp.on_message_hhl msg s = Some s)
  /\ (hhl_raises msg = false -> hhl_heartbeat msg = false ->
      exists alarm content,
        Alp.on_message_hhl msg s
        = Some (Alp.set_upstream
                  (s.(Alp.upstream) ++ [Alp.CloudAlarm alarm content]) s)
        /\ alarm.(ua_msgCounter) = msg.(message_counter)
        /\ alarm.(ua_serviceClass) = msg.(service_class)
        /\ alarm.(ua_msgType) = msg.(message_type)
        /\ alarm.(ua_systemId) = msg.(system_id)
        /\ alarm.(ua_terminalId) = msg.(terminal_id)
        /\ alarm.(ua_loopId) = msg.(loop_id)
        /\ alarm.(ua_eventTime) = msg.(event_time)
        /\ alarm.(ua_data) = strip_cr (msg.(data))
        /\ (13%Z ∉ alarm.(ua_data))
        /\ (forall c, c <> 13%Z -> (c ∈ alarm.(ua_data)) <-> (c ∈ msg.(data)))
        /\ (msg.(service_class) <> 1%Z -> content = "non-specified"%string)).
Proof.
  unfold Alp.on_message_hhl, Alp.log_discarded_msg, Alp.VERBOSE_DEBUG.
  split; [|split].
  - intros Hd. apply hhl_content_Discarded in Hd. by rewrite Hd.
  - intros Hd. apply hhl_content_Return in Hd. by rewrite Hd.
  - intros Hd Hh. destruct (Alp.hhl_content msg) as [content| |] eqn:Hc.
    + eexists _, content. split; [reflexivity|]. cbn.
      repeat (split; [done|]).
      split; [apply strip_cr_no_cr|]. split; [apply strip_cr_keeps|].
      intros Hsc. revert Hc. unfold Alp.hhl_content. cbv zeta.
      destruct (Z.eqb_spec (service_class msg) 1); [done|].
      by_cases; congruence.
    + apply hhl_content_Return in Hc. congruence.
    + apply hhl_content_Discarded in Hc. congruence.
Qed.

(** X15. What [on_message_prodex] does with a message.  A message is
    forwarded if and only if its type is 1 or 9 and its system id and
    service class are one of (680, 10), (681, 11), (688, 1), (689, 1).
    On any other message the handler raises: [__log_discarded_msg] fails
    in [str.format] with a KeyError, and nothing is forwarded.  A
    forwarded message goes out exactly once, as one cloud alarm with the
    loop id rewritten to 1, 3, 0 and 1 for the four sources; a type 9
    stays 9, a type 1 becomes 8 for system 681 and 3 for system 688 and
    stays 1 otherwise; the data is the content text, ": " and the
    message's data, with every CR removed. *)
Theorem on_message_prodex_forwarding (msg : SNAPMsg) (s : Alp.AlpPort) :
  (prodex_forwards msg = false -> Alp.on_message_prodex msg s = None)
  /\ (prodex_forwards msg = true ->
      exists alarm content,
        Alp.on_message_prodex msg s
        = Some (Alp.set_upstream
                  (s.(Alp.upstream) ++ [Alp.CloudAlarm alarm content]) s)
        /\ alarm.(ua_systemId) = msg.(system_id)
        /\ alarm.(ua_serviceClass) = msg.(service_class)
        /\ alarm.(ua_msgCounter) = msg.(message_counter)
        /\ alarm.(ua_terminalId) = msg.(terminal_id)
        /\ alarm.(ua_eventTime) = msg.(event_time)
        /\ alarm.(ua_loopId)
           = (if (msg.(system_id) =? 680)%Z then 1
              else if (msg.(system_id) =? 681)%Z then 3
              else if (msg.(system_id) =? 688)%Z then 0 else 1)%Z
        /\ alarm.(ua_msgType)
           = (if (msg.(message_type) =? 9)%Z then 9
              else if (msg.(system_id) =? 681)%Z then 8
              else if (msg.(system_id) =? 688)%Z then 3 else 1)%Z
        /\ alarm.(ua_data)
           = strip_cr (str_codes content ++ str_codes ": " ++ msg.(data))
        /\ (13%Z ∉ alarm.(ua_data))).
Proof.
  unfold Alp.on_message_prodex, Alp.log_discarded_msg, Alp.VERBOSE_DEBUG.
  split.
  - intros Hd. apply prodex_rewrite_None in Hd. by rewrite Hd.
  - intros Hd. destruct (Alp.prodex_rewrite msg) as [[msg' content]|] eqn:Hc.
    + eexists _, content. split; [reflexivity|]. cbn.
      assert (Hm : msg'.(system_id) = msg.(system_id)
                   /\ msg'.(service_class) = msg.(service_class)
                   /\ msg'.(message_counter) = msg.(message_counter)
                   /\ msg'.(terminal_id) = msg.(terminal_id)
                   /\ msg'.(event_time) = msg.(event_time)
                   /\ msg'.(data) = msg.(data)
                   /\ msg'.(loop_id)
                      = (if (msg.(system_id) =? 680)%Z then 1
                         else if (msg.(system_id) =? 681)%Z then 3
                         else if (msg.(system_id) =? 688)%Z then 0 else 1)%Z
                   /\ msg'.(message_type)
                      = (if (msg.(message_type) =? 9)%Z then 9
                         else if (msg.(system_id) =? 681)%Z then 8
                         else if (msg.(system_id) =? 688)%Z then 3 else 1)%Z).
      { revert Hc. unfold Alp.prodex_rewrite. cbv zeta.
        z_cases; intros [= <- <-]; cbn;
          repeat (split; [done|]);
          z_cases; cbn; z_cases; try done; lia. }
      destruct Hm as (-> & -> & -> & -> & -> & -> & -> & ->).
      repeat (split; [done|]). apply strip_cr_no_cr.
    + apply prodex_rewrite_None in Hc. congruence.
Qed.

(** ** An idle line *)

(** Eleven due ticks without an answer, from retransmit count 0: ten
    retransmissions of the downlink slot, then the line fault. *)
Lemma silence_to_linefault s :
  s.(Alp.port) = true -> Alp.session_is_active s = true ->
  s.(Alp.downlink_retransmit_count) = 0%Z ->
  Alp.list_in linefault (s.(Alp.active_faults)) = false ->
  all_due 11 s = true ->
  (ticks 11 s).(Alp.session_state) = Alp.SESSION_FINISHED
  /\ Alp.list_in linefault ((ticks 11 s).(Alp.active_faults)) = true
  /\ (ticks 11 s).(Alp.upstream) = s.(Alp.upstream) ++ [fault_detected]
  /\ (ticks 11 s).(Alp.written)
     = s.(Alp.written) ++ replicate 10 (s.(Alp.downlink_buffer), false).
Proof.
  intros Hport Hact Hc Hlf Hdue.
  change 11 with (10 + 1) in Hdue.
  rewrite all_due_add in Hdue. apply andb_true_iff in Hdue as [Hten Hlast].
  destruct (ticks_silent 10 s Hport Hact) as (H1 & H2 & H3 & H4 & H5 & H6 & H7);
    [rewrite Hc; done|done|].
  cbn [all_due] in Hlast. rewrite andb_true_r in Hlast.
  assert (Hticks : ticks 11 s = tick (ticks 10 s)).
  { clear. revert s. generalize 10. induction n as [|n IH]; intros s; [done|].
    cbn [ticks] in *. by rewrite IH. }
  rewrite Hticks. set (s10 := ticks 10 s) in *. clearbody s10.
  unfold tick. rewrite tick_limit; cycle 1.
  - done.
  - unfold Alp.session_is_active in *. by rewrite H2.
  - rewrite H3, Hc. done.
  - done.
  - cbn [snd].
    set (s10' := Alp.set_clock_reads _ s10).
    destruct (re_transmit_limit_effect Alp.MESSAGE_STATE_NO_REPLY s10')
      as (E1 & _ & _ & E4 & E5 & E6 & _).
    { subst s10'. cbn. rewrite H3, Hc. done. }
    rewrite E1, E4, E5, E6. subst s10'. cbn.
    rewrite H6, H7, H4, Hlf. done.
Qed.

Lemma ticks_succ n s : ticks (S n) s = ticks n (tick s).
Proof. reflexivity. Qed.

(** The tick of an open port whose session is not active. *)
Lemma tick_idle s :
  s.(Alp.port) = true -> Alp.session_is_active s = false ->
  tick s
  = if enq_due s
    then Alp.send_enq
           (Alp.set_session_state Alp.SESSION_IDLE
              (Alp.set_clock_reads (S (s.(Alp.clock_reads))) s))
    else Alp.set_session_state Alp.SESSION_IDLE
           (Alp.set_clock_reads (S (s.(Alp.clock_reads))) s).
Proof.
  destruct s. unfold enq_due, Alp.session_is_active. cbn.
  intros -> Hact.
  unfold tick, Alp.session_diagnostics, Alp.session_is_active, Alp.time_time.
  cbn. rewrite Hact. by destruct (_ <=? _)%float.
Qed.

(** X16. The timer on an open port whose session is not active.  While
    the latest uplink event is less than 19.5 s old, a tick writes
    nothing, sends nothing upstream and leaves the session IDLE.  Once it
    is 19.5 s old, the tick polls the peer: ENQ is written, flushed, and
    the session becomes ACTIVE_MASTER with ENQ in the downlink slot.  If
    the peer stays silent, the next ten due ticks write ENQ again, and the
    one after them finishes the session and reports the line fault: a
    silent peer is reported after the poll and ten repetitions of it. *)
Theorem idle_poll_then_linefault (s : Alp.AlpPort) :
  s.(Alp.port) = true -> Alp.session_is_active s = false ->
  s.(Alp.downlink_retransmit_count) = 0%Z ->
  Alp.list_in linefault (s.(Alp.active_faults)) = false ->
  (enq_due s = false ->
   (tick s).(Alp.written) = s.(Alp.written)
   /\ (tick s).(Alp.upstream) = s.(Alp.upstream)
   /\ (tick s).(Alp.session_state) = Alp.SESSION_IDLE)
  /\ (enq_due s = true ->
      (tick s).(Alp.written) = s.(Alp.written) ++ [(Alp.ENQ, true)]
      /\ (tick s).(Alp.upstream) = s.(Alp.upstream)
      /\ (tick s).(Alp.session_state) = Alp.SESSION_ACTIVE_MASTER
      /\ (tick s).(Alp.downlink_buffer) = Alp.ENQ
      /\ (all_due 11 (tick s) = true ->
          (ticks 12 s).(Alp.written)
          = s.(Alp.written) ++ [(Alp.ENQ, true)] ++ replicate 10 (Alp.ENQ, false)
          /\ (ticks 12 s).(Alp.session_state) = Alp.SESSION_FINISHED
          /\ (ticks 12 s).(Alp.upstream) = s.(Alp.upstream) ++ [fault_detected]
          /\ Alp.list_in linefault ((ticks 12 s).(Alp.active_faults)) = true)).
Proof.
  intros Hport Hact Hc Hlf.
  pose proof (tick_idle s Hport Hact) as Ht.
  split; intros Hdue; rewrite Hdue in Ht.
  - by rewrite Ht.
  - set (s0 := Alp.set_session_state Alp.SESSION_IDLE
                 (Alp.set_clock_reads (S (Alp.clock_reads s)) s)) in *.
    assert (Hs1 : (tick s).(Alp.port) = true
                  /\ (tick s).(Alp.session_state) = Alp.SESSION_ACTIVE_MASTER
                  /\ (tick s).(Alp.downlink_retransmit_count) = 0%Z
                  /\ (tick s).(Alp.active_faults) = s.(Alp.active_faults)
                  /\ (tick s).(Alp.upstream) = s.(Alp.upstream)
                  /\ (tick s).(Alp.downlink_buffer) = Alp.ENQ
                  /\ (tick s).(Alp.written) = s.(Alp.written) ++ [(Alp.ENQ, true)]).
    { rewrite Ht. unfold Alp.send_enq, Alp.transmit_control_char, Alp.time_time.
      cbn. by rewrite Hport, Hc. }
    destruct Hs1 as (P1 & P2 & P3 & P4 & P5 & P6 & P7).
    repeat (split; [done|]).
    intros Hall.
    rewrite (ticks_succ 11 s).
    destruct (silence_to_linefault (tick s) P1) as (F1 & F2 & F3 & F4).
    + unfold Alp.session_is_active. by rewrite P2.
    + exact P3.
    + by rewrite P4.
    + exact Hall.
    + rewrite F1, F2, F3, F4, P5, P6, P7, <- app_assoc. done.
Qed.

Lemma idle_poll_then_linefault_witness :
  (ticks 12 (ticks 3 demo_port)).(Alp.written)
  = (ticks 3 demo_port).(Alp.written) ++ [(Alp.ENQ, true)]
      ++ replicate 10 (Alp.ENQ, false)
  /\ (ticks 12 (ticks 3 demo_port)).(Alp.session_state) = Alp.SESSION_FINISHED.
Proof.
  destruct (idle_poll_then_linefault (ticks 3 demo_port)) as [_ Hdue].
  - vm_compute. reflexivity.
  - vm_compute. reflexivity.
  - vm_compute. reflexivity.
  - vm_compute. reflexivity.
  - destruct Hdue as (_ & _ & _ & _ & Hrest); [vm_compute; reflexivity|].
    destruct Hrest as (Hw & Hst & _); [vm_compute; reflexivity|].
    split; [exact Hw|exact Hst].
Defined.

(** ** NAK and timeouts count together *)



(** * Further properties of the codec: the data field *)

Lemma flat_Encode_lookup data :
  forall j d,
    data !! j = Some d ->
    exists h l,
      flat_map AlpFrame.Encode data !! (2 * j) = Some h
      /\ flat_map AlpFrame.Encode data !! (2 * j + 1) = Some l
      /\ AlpFrame.Decode h l = Some (Z.land d 0xff).
Proof.
  induction data as [|d0 data IH]; intros j d Hd; [done|].
  destruct j as [|j].
  - injection Hd as ->. cbn [flat_map]. rewrite <- Encode_mask.
    destruct (Encode_Decode _ (land_255_byte d)) as (h & l & -> & _ & _ & HD).
    by exists h, l.
  - cbn [lookup list_lookup] in Hd.
    destruct (IH j d Hd) as (h & l & H0 & H1 & HD).
    exists h, l. cbn [flat_map].
    destruct (Encode_shape d0) as (a & b & ->). cbn [app].
    replace (2 * S j) with (S (S (2 * j))) by lia.
    replace (S (S (2 * j)) + 1) with (S (S (2 * j + 1))) by lia.
    done.
Qed.

(** X18. [EncodeData] never raises.  With room for two bytes per data
    byte from [offset] on, it overwrites exactly that stretch of the
    buffer with the nibble pairs of the data, leaves the bytes before and
    after it as they were, and returns the checksum, reduced to an octet,
    and the parity of the pairs written; each pair written decodes to the
    data byte it stands for.  Without that room, also when [offset] lies
    beyond the buffer, it leaves the buffer untouched and returns (0, 0),
    which is also what it returns for empty data. *)
Theorem EncodeData_spec (buffer : list Z) (offset : nat) (data : list Z) :
  (length buffer < offset + 2 * length data ->
   AlpFrame.EncodeData buffer offset data = Some (buffer, 0%Z, 0%Z))
  /\ (offset + 2 * length data <= length buffer ->
      AlpFrame.EncodeData buffer offset data
      = Some (take offset buffer ++ flat_map AlpFrame.Encode data
                ++ drop (offset + 2 * length data) buffer,
              Z.land (sum_enc data 0) 0xff, xor_enc data 0)
      /\ is_byte (Z.land (sum_enc data 0) 0xff)
      /\ (forall j d, data !! j = Some d ->
            exists h l,
              flat_map AlpFrame.Encode data !! (2 * j) = Some h
              /\ flat_map AlpFrame.Encode data !! (2 * j + 1) = Some l
              /\ AlpFrame.Decode h l = Some (Z.land d 0xff)))
  /\ AlpFrame.EncodeData buffer offset [] = Some (buffer, 0%Z, 0%Z).
Proof.
  split; [|split].
  - intros Hsmall. unfold AlpFrame.EncodeData. cbv zeta.
    destruct (Z.ltb_spec (Z.of_nat (length buffer) - Z.of_nat offset)
                (Z.of_nat (length data * 2))); [done|lia].
  - intros Hroom. split; [|split; [apply land_255_byte|]].
    + unfold AlpFrame.EncodeData. cbv zeta.
      destruct (Z.ltb_spec (Z.of_nat (length buffer) - Z.of_nat offset)
                  (Z.of_nat (length data * 2))); [lia|].
      rewrite range2_len_even.
      pose proof (EncodeData_loop_spec data (take offset buffer)
                    (take (2 * length data) (drop offset buffer))
                    (drop (offset + 2 * length data) buffer) [] 0%Z 0%Z) as HL.
      assert (Hpre : length (take offset buffer) = offset)
        by (rewrite length_take; lia).
      assert (Hbuf : take offset buffer
                       ++ take (2 * length data) (drop offset buffer)
                       ++ drop (offset + 2 * length data) buffer = buffer).
      { rewrite <- drop_drop, take_drop, take_drop. done. }
      rewrite Hpre, Hbuf in HL. cbn [app length] in HL.
      rewrite HL by (rewrite length_take, length_drop; lia). done.
    + apply flat_Encode_lookup.
  - unfold AlpFrame.EncodeData. cbv zeta. cbn [length Nat.mul].
    destruct (Z.ltb_spec (Z.of_nat (length buffer) - Z.of_nat offset)
                (Z.of_nat 0)); [done|].
    unfold range2_len. replace (offset + 0 - offset + 1) with 1 by lia.
    done.
Qed.

(** * Further properties of the session: chunks and frames *)

Lemma wire_app_not_control payload rest s :
  fst (Alp.check_control_char (wire payload ++ rest) s) = false.
Proof. by rewrite check_control_char_cases. Qed.

(** The turn of the receive loop on a buffer that starts with a written
    frame with a payload. *)
Lemma on_receive_iter_wire_rest SNAPMsg_Parse s b f rest valid :
  s.(Alp.rx_buffer) = wire (b :: f) ++ rest -> is_bytes (b :: f) ->
  (message_handled SNAPMsg_Parse (s.(Alp.serial_snap_proto)) (b :: f) = true ->
   exists s' valid',
     Alp.on_receive_iter SNAPMsg_Parse s (wire (b :: f) ++ rest) valid
     = Some (s', rest, length (wire (b :: f)), valid')
     /\ s'.(Alp.written) = s.(Alp.written) ++ [(Alp.ACK, true)]
     /\ s'.(Alp.rx_buffer) = rest
     /\ s'.(Alp.serial_snap_proto) = s.(Alp.serial_snap_proto))
  /\ (message_handled SNAPMsg_Parse (s.(Alp.serial_snap_proto)) (b :: f) = false ->
      Alp.on_receive_iter SNAPMsg_Parse s (wire (b :: f) ++ rest) valid = None).
Proof.
  intros Hrx Hb.
  rewrite on_receive_iter_parse by apply wire_app_not_control.
  pose proof (Parse_noise_wire [] (b :: f) rest) as HP.
  cbn [app length Nat.add] in HP. rewrite HP by (done || constructor).
  cbn [mbind option_bind].
  rewrite length_wire_nonzero. cbn [negb].
  unfold Alp.consume_rx_buffer. rewrite Hrx, drop_app_length.
  set (s1 := Alp.set_rx_buffer rest s).
  set (s2 := if negb (Alp.session_is_active s1) then _ else s1).
  assert (Hs2 : s2.(Alp.rx_buffer) = rest
                /\ s2.(Alp.written) = s.(Alp.written)
                /\ s2.(Alp.serial_snap_proto) = s.(Alp.serial_snap_proto)).
  { unfold s2. by destruct (negb _). }
  clearbody s2. clear s1. destruct Hs2 as (R1 & R2 & R3).
  unfold message_handled. set (m := SNAPMsg_Parse (b :: f)).
  assert (Hack : forall s3,
            s3.(Alp.rx_buffer) = rest -> s3.(Alp.written) = s.(Alp.written) ->
            s3.(Alp.serial_snap_proto) = s.(Alp.serial_snap_proto) ->
            (Alp.send_ack s3).(Alp.written) = s.(Alp.written) ++ [(Alp.ACK, true)]
            /\ (Alp.send_ack s3).(Alp.rx_buffer) = rest
            /\ (Alp.send_ack s3).(Alp.serial_snap_proto)
               = s.(Alp.serial_snap_proto)).
  { intros s3 T1 T2 T3. unfold Alp.send_ack.
    rewrite transmit_control_char_rx_buffer, transmit_control_char_written,
      transmit_control_char_proto.
    by rewrite T1, T2, T3. }
  destruct (empty m) eqn:He; cbn [negb orb].
  - split; [|done]. intros _. cbn [mbind option_bind].
    do 2 eexists. split; [reflexivity|]. by apply Hack.
  - rewrite <- R3.
    destruct (Alp.dispatch m s2) as [s3|] eqn:Hd.
    + assert (Hr : dispatch_raises (Alp.serial_snap_proto s2) m = false).
      { destruct (dispatch_raises _ _) eqn:E; [|done].
        apply dispatch_None in E. congruence. }
      rewrite Hr. cbn [negb]. split; [|done]. intros _.
      cbn [mbind option_bind].
      destruct (dispatch_written _ _ _ Hd) as (D1 & D2 & D3 & _).
      do 2 eexists. split; [reflexivity|].
      rewrite R3. apply Hack; congruence.
    + apply dispatch_None in Hd. rewrite Hd. cbn [negb].
      split; [done|]. intros _. done.
Qed.

Lemma length_concat_wire (ps : list (list Z)) :
  length ps <= length (concat (map wire ps)).
Proof.
  induction ps as [|q ps IH]; [done|].
  cbn [map concat length]. rewrite length_app, length_wire. lia.
Qed.

(** The receive loop on a buffer of written frames: one ACK for each, as
    long as no handler raises; and a raise from the first message that is
    logged as discarded. *)
Lemma on_receive_loop_frames SNAPMsg_Parse (ps : list (list Z)) :
  forall fuel s c valid,
    c <> 0 -> length ps <= fuel ->
    Forall (fun q => is_bytes q /\ q <> []) ps ->
    s.(Alp.rx_buffer) = concat (map wire ps) ->
    (Forall (fun q => message_handled SNAPMsg_Parse
                        (s.(Alp.serial_snap_proto)) q = true) ps ->
     exists sl vl,
       Alp.on_receive_loop SNAPMsg_Parse fuel s (s.(Alp.rx_buffer)) c valid
       = Some (sl, [], vl)
       /\ sl.(Alp.written)
          = s.(Alp.written) ++ replicate (length ps) (Alp.ACK, true)
       /\ sl.(Alp.rx_buffer) = [])
    /\ (Exists (fun q => message_handled SNAPMsg_Parse
                           (s.(Alp.serial_snap_proto)) q = false) ps ->
        Alp.on_receive_loop SNAPMsg_Parse fuel s (s.(Alp.rx_buffer)) c valid
        = None).
Proof.
  induction ps as [|q ps IH]; intros fuel s c valid Hc Hfuel Hps Hrx.
  - split; [|by intros ?%Exists_nil]. intros _.
    cbn [map concat] in Hrx. rewrite Hrx.
    rewrite on_receive_loop_stop by (by right).
    exists s, valid. cbn [length replicate]. by rewrite app_nil_r.
  - apply Forall_cons in Hps as [[Hb Hne] Hps].
    destruct q as [|b f]; [done|].
    destruct fuel as [|fuel]; [simpl in Hfuel; lia|].
    cbn [map concat] in Hrx. rewrite Hrx.
    rewrite on_receive_loop_step; [|done|by unfold wire].
    destruct (on_receive_iter_wire_rest SNAPMsg_Parse s b f
                (concat (map wire ps)) valid Hrx Hb) as [Hok Hraise].
    destruct (message_handled SNAPMsg_Parse (Alp.serial_snap_proto s) (b :: f))
      eqn:Hh.
    + destruct (Hok eq_refl) as (s' & valid' & -> & Hw & Hr & Hproto).
      cbn [mbind option_bind].
      destruct (IH fuel s' (length (wire (b :: f))) valid') as [IHok IHraise].
      { rewrite length_wire. lia. }
      { simpl in Hfuel. lia. }
      { done. }
      { done. }
      rewrite Hr, Hproto in IHok, IHraise. split.
      * intros [_ Hall]%Forall_cons.
        destruct (IHok Hall) as (sl & vl & HL & Hwl & Hrl).
        rewrite HL. exists sl, vl. split; [done|].
        split; [|done]. rewrite Hwl, Hw, <- app_assoc. done.
      * intros [Hhd|Htl]%Exists_cons; [congruence|].
        by apply IHraise.
    + rewrite (Hraise eq_refl). cbn [mbind option_bind]. split; [|done].
      intros [Hhd _]%Forall_cons. congruence.
Qed.

Lemma Forall2_Write_wire (payloads frames : list (list Z)) :
  Forall2 (fun q fr => AlpFrame.Write q = Some fr) payloads frames ->
  frames = map wire payloads.
Proof.
  induction 1 as [|q fr qs frs HW _ IH]; [done|].
  rewrite Write_spec in HW. injection HW as <-. by rewrite IH.
Qed.

(** X19. Frames arriving back to back in one chunk on an empty receive
    buffer, each written for a non-empty octet payload.  If every message
    is one the loop gets past (the SNAP parser finds it empty, or the
    handler of the protocol does not log it as discarded), each frame is
    acknowledged on its own: [receive] returns with the buffer empty, the
    session FINISHED, and exactly one ACK, flushed, written per frame and
    nothing else.  If one of the messages is not empty and is logged as
    discarded by its handler, [receive] raises. *)
Theorem receive_frames_all_acked (SNAPMsg_Parse : list Z -> SNAPMsg)
    (payloads frames : list (list Z)) (s : Alp.AlpPort) :
  s.(Alp.rx_buffer) = [] ->
  Forall (fun q => is_bytes q /\ q <> []) payloads ->
  Forall2 (fun q fr => AlpFrame.Write q = Some fr) payloads frames ->
  (Forall (fun q => message_handled SNAPMsg_Parse
                      (s.(Alp.serial_snap_proto)) q = true) payloads ->
   exists s',
     Alp.receive SNAPMsg_Parse (concat frames) s = Some s'
     /\ s'.(Alp.written)
        = s.(Alp.written) ++ replicate (length payloads) (Alp.ACK, true)
     /\ s'.(Alp.rx_buffer) = []
     /\ s'.(Alp.session_state) = Alp.SESSION_FINISHED)
  /\ (Exists (fun q => message_handled SNAPMsg_Parse
                         (s.(Alp.serial_snap_proto)) q = false) payloads ->
      Alp.receive SNAPMsg_Parse (concat frames) s = None).
Proof.
  intros Hrx Hps HW. apply Forall2_Write_wire in HW as ->.
  unfold Alp.receive. cbv zeta. rewrite Hrx. cbn [app].
  set (buf := concat (map wire payloads)).
  set (s0 := Alp.set_rx_buffer buf s).
  change (Alp.rx_buffer s0) with buf. unfold Alp.on_receive.
  change (Alp.rx_buffer s0) with buf.
  destruct (on_receive_loop_frames SNAPMsg_Parse payloads (S (length buf)) s0 1 false)
    as [Hok Hraise]; [done| |done|done|].
  { pose proof (length_concat_wire payloads). fold buf in H. lia. }
  change (Alp.rx_buffer s0) with buf in Hok, Hraise.
  change (Alp.serial_snap_proto s0) with (Alp.serial_snap_proto s) in Hok, Hraise.
  split.
  - intros Hall. destruct (Hok Hall) as (sl & vl & HL & Hw & Hr).
    rewrite HL. cbn [mbind option_bind]. eexists. split; [reflexivity|].
    destruct (on_receive_end_frame sl [] vl) as (-> & -> & ->).
    done.
  - intros Hex. by rewrite (Hraise Hex).
Qed.

Lemma receive_frames_all_acked_witness :
  (exists s',
     Alp.receive demo_SNAPMsg_Parse
       (concat [wire [0x41%Z]; wire [0x42; 0x43]%Z]) demo_port = Some s'
     /\ s'.(Alp.written)
        = demo_port.(Alp.written) ++ replicate 2 (Alp.ACK, true)
     /\ s'.(Alp.rx_buffer) = []
     /\ s'.(Alp.session_state) = Alp.SESSION_FINISHED)
  /\ Alp.receive demo_discarded_Parse
       (concat [wire [0x41%Z]; wire [0x42; 0x43]%Z]) demo_port = None.
Proof.
  split.
  - destruct (receive_frames_all_acked demo_SNAPMsg_Parse
                [[0x41%Z]; [0x42; 0x43]%Z] [wire [0x41%Z]; wire [0x42; 0x43]%Z]
                demo_port) as [Hok _].
    + vm_compute. reflexivity.
    + constructor; [|constructor; [|constructor]].
      * split; [repeat constructor; unfold is_byte; lia|discriminate].
      * split; [repeat constructor; unfold is_byte; lia|discriminate].
    + constructor; [vm_compute; reflexivity|].
      constructor; [vm_compute; reflexivity|constructor].
    + apply Hok.
      constructor; [vm_compute; reflexivity|].
      constructor; [vm_compute; reflexivity|constructor].
  - destruct (receive_frames_all_acked demo_discarded_Parse
                [[0x41%Z]; [0x42; 0x43]%Z] [wire [0x41%Z]; wire [0x42; 0x43]%Z]
                demo_port) as [_ Hraise].
    + vm_compute. reflexivity.
    + constructor; [|constructor; [|constructor]].
      * split; [repeat constructor; unfold is_byte; lia|discriminate].
      * split; [repeat constructor; unfold is_byte; lia|discriminate].
    + constructor; [vm_compute; reflexivity|].
      constructor; [vm_compute; reflexivity|constructor].
    + apply Hraise. apply Exists_cons_hd. vm_compute. reflexivity.
Defined.

Lemma Parse_take_wire p L :
  is_bytes p -> L < length (wire p) ->
  AlpFrame.Parse (take L (wire p)) = Some (0, false, None).
Proof.
  intros Hb HL.
  destruct (le_lt_dec 9 L) as [Hlong|Hshort].
  - rewrite length_wire in HL. unfold wire.
    destruct (Encode_shape (Z.land (sum_enc p 0) 255)) as (h1 & l1 & ->).
    destruct (Encode_shape (xor_enc p 0)) as (h2 & l2 & ->).
    destruct (take_frame_shape p ([AlpFrame.ETX] ++ [h1; l1] ++ [h2; l2]) L Hb)
      as (q & suf & -> & Hq & Hne & HLq & Hsuf & Hetx); [done|done|lia|].
    apply (Parse_incomplete [] q suf); [constructor|done|done|lia|done|done].
  - unfold AlpFrame.Parse. rewrite length_take.
    destruct (Nat.ltb_spec (L `min` length (wire p)) 9); [done|lia].
Qed.

(** X20. A frame that arrives in two chunks is acknowledged once, when
    it is complete.  On an empty receive buffer, the first [L] bytes of a
    frame written for a non-empty octet payload, [L] from 1 up to one
    short of the frame and below 1024, are only stored: [receive] writes
    nothing, sends nothing upstream and leaves session and timestamps as
    they were.  The remaining bytes, received next, complete the frame.
    If its message is one the loop gets past (the SNAP parser finds it
    empty, or the handler of the protocol does not log it as discarded),
    one ACK is written, the buffer is empty and the session FINISHED.  If
    the message is not empty and its handler logs it as discarded,
    [receive] raises on the second chunk. *)
Theorem receive_split_frame (SNAPMsg_Parse : list Z -> SNAPMsg)
    (payload frame : list Z) (L : nat) (s : Alp.AlpPort) :
  s.(Alp.rx_buffer) = [] -> is_bytes payload -> payload <> [] ->
  AlpFrame.Write payload = Some frame ->
  0 < L < length frame -> L < Alp.RX_BUFFER_MAX_LEN ->
  Alp.receive SNAPMsg_Parse (take L frame) s
  = Some (Alp.set_rx_buffer (take L frame) s)
  /\ (message_handled SNAPMsg_Parse (s.(Alp.serial_snap_proto)) payload = true ->
      exists s',
        Alp.receive SNAPMsg_Parse (drop L frame)
          (Alp.set_rx_buffer (take L frame) s) = Some s'
        /\ s'.(Alp.written) = s.(Alp.written) ++ [(Alp.ACK, true)]
        /\ s'.(Alp.rx_buffer) = []
        /\ s'.(Alp.session_state) = Alp.SESSION_FINISHED)
  /\ (message_handled SNAPMsg_Parse (s.(Alp.serial_snap_proto)) payload = false ->
      Alp.receive SNAPMsg_Parse (drop L frame)
        (Alp.set_rx_buffer (take L frame) s) = None).
Proof.
  intros Hrx Hb Hne HW HL Hmax. rewrite Write_spec in HW. injection HW as <-.
  split.
  - unfold Alp.receive. cbv zeta. rewrite Hrx. cbn [app].
    set (data := take L (wire payload)).
    set (s0 := Alp.set_rx_buffer data s).
    change (Alp.rx_buffer s0) with data. unfold Alp.on_receive.
    change (Alp.rx_buffer s0) with data.
    assert (Hlen : length data = L).
    { unfold data. rewrite length_take. lia. }
    assert (Hdata : exists rest, data = AlpFrame.SOH :: rest).
    { unfold data, wire. destruct L as [|L']; [lia|]. by eexists. }
    destruct Hdata as [rest Hdata].
    rewrite on_receive_loop_step; [|done|by rewrite Hdata].
    rewrite on_receive_iter_parse
      by (rewrite Hdata, check_control_char_cases; done).
    assert (HP : AlpFrame.Parse data = Some (0, false, None))
      by (apply Parse_take_wire; [done|lia]).
    rewrite HP.
    cbn [mbind option_bind Nat.eqb negb andb].
    destruct (Nat.leb_spec Alp.RX_BUFFER_MAX_LEN (length data)) as [?|_]; [lia|].
    cbn [mbind option_bind].
    rewrite on_receive_loop_stop by (by left). cbn [mbind option_bind].
    unfold Alp.on_receive_end.
    destruct (Nat.eqb_spec (length data) 0) as [?|_]; [lia|]. done.
  - unfold Alp.receive. cbv zeta.
    change (Alp.rx_buffer (Alp.set_rx_buffer (take L (wire payload)) s))
      with (take L (wire payload)).
    rewrite take_drop.
    set (s0 := Alp.set_rx_buffer (wire payload)
                 (Alp.set_rx_buffer (take L (wire payload)) s)).
    change (Alp.rx_buffer s0) with (wire payload). unfold Alp.on_receive.
    change (Alp.rx_buffer s0) with (wire payload).
    destruct (on_receive_loop_frames SNAPMsg_Parse [payload]
                (S (length (wire payload))) s0 1 false)
      as [Hok Hraise]; [done|simpl; lia| |by cbn; rewrite app_nil_r|].
    { by repeat constructor. }
    change (Alp.rx_buffer s0) with (wire payload) in Hok, Hraise.
    change (Alp.serial_snap_proto s0) with (Alp.serial_snap_proto s)
      in Hok, Hraise.
    split.
    + intros Hh.
      destruct Hok as (sl & vl & HL' & Hw & Hr); [by constructor|].
      rewrite HL'. cbn [mbind option_bind]. eexists. split; [reflexivity|].
      destruct (on_receive_end_frame sl [] vl) as (-> & -> & ->).
      done.
    + intros Hh. rewrite Hraise; [done|]. by apply Exists_cons_hd.
Qed.

Lemma receive_split_frame_witness :
  Alp.receive demo_SNAPMsg_Parse (take 5 (wire [0x41%Z])) demo_port
  = Some (Alp.set_rx_buffer (take 5 (wire [0x41%Z])) demo_port)
  /\ (exists s',
        Alp.receive demo_SNAPMsg_Parse (drop 5 (wire [0x41%Z]))
          (Alp.set_rx_buffer (take 5 (wire [0x41%Z])) demo_port) = Some s'
        /\ s'.(Alp.written) = demo_port.(Alp.written) ++ [(Alp.ACK, true)]
        /\ s'.(Alp.rx_buffer) = []
        /\ s'.(Alp.session_state) = Alp.SESSION_FINISHED)
  /\ Alp.receive demo_discarded_Parse (drop 5 (wire [0x41%Z]))
       (Alp.set_rx_buffer (take 5 (wire [0x41%Z])) demo_port) = None.
Proof.
  split; [|split].
  - apply (receive_split_frame demo_SNAPMsg_Parse [0x41%Z] (wire [0x41%Z]) 5
             demo_port).
    + vm_compute. reflexivity.
    + repeat constructor; unfold is_byte; lia.
    + discriminate.
    + vm_compute. reflexivity.
    + vm_compute. lia.
    + unfold Alp.RX_BUFFER_MAX_LEN. lia.
  - destruct (receive_split_frame demo_SNAPMsg_Parse [0x41%Z] (wire [0x41%Z]) 5
                demo_port) as (_ & Hok & _).
    + vm_compute. reflexivity.
    + repeat constructor; unfold is_byte; lia.
    + discriminate.
    + vm_compute. reflexivity.
    + vm_compute. lia.
    + unfold Alp.RX_BUFFER_MAX_LEN. lia.
    + apply Hok. vm_compute. reflexivity.
  - destruct (receive_split_frame demo_discarded_Parse [0x41%Z] (wire [0x41%Z]) 5
                demo_port) as (_ & _ & Hraise).
    + vm_compute. reflexivity.
    + repeat constructor; unfold is_byte; lia.
    + discriminate.
    + vm_compute. reflexivity.
    + vm_compute. lia.
    + unfold Alp.RX_BUFFER_MAX_LEN. lia.
    + apply Hraise. vm_compute. reflexivity.
Defined.

(** X21. A chunk that [Parse] rejects as a whole is answered with one
    NAK: on an empty receive buffer, for a chunk that does not start with
    a control byte and of which [Parse] consumes everything asking for a
    NAK, [receive] returns with the buffer empty, exactly one buffer, NAK,
    flushed, written, nothing sent upstream, the uplink timestamp
    unchanged, and the session FINISHED with the downlink slot empty: a
    downlink in flight is given up. *)
Theorem receive_rejected_nacked (SNAPMsg_Parse : list Z -> SNAPMsg)
    (chunk : list Z) (s : Alp.AlpPort) :
  s.(Alp.rx_buffer) = [] -> starts_with_control chunk = false ->
  AlpFrame.Parse chunk = Some (length chunk, true, None) ->
  exists s',
    Alp.receive SNAPMsg_Parse chunk s = Some s'
    /\ s'.(Alp.written) = s.(Alp.written) ++ [(Alp.NAK, true)]
    /\ s'.(Alp.rx_buffer) = []
    /\ s'.(Alp.upstream) = s.(Alp.upstream)
    /\ s'.(Alp.latest_uplink_event_time) = s.(Alp.latest_uplink_event_time)
    /\ s'.(Alp.session_state) = Alp.SESSION_FINISHED
    /\ s'.(Alp.downlink_buffer) = []
    /\ s'.(Alp.downlink_retransmit_count) = 0%Z.
Proof.
  intros Hrx Hctl HP.
  assert (Hlen : 4 <= length chunk).
  { destruct (Parse_total chunk) as (r & Hr & Ho).
    rewrite HP in Hr. injection Hr as <-. inversion Ho; lia. }
  unfold Alp.receive. cbv zeta. rewrite Hrx. cbn [app].
  set (s0 := Alp.set_rx_buffer chunk s).
  change (Alp.rx_buffer s0) with chunk. unfold Alp.on_receive.
  change (Alp.rx_buffer s0) with chunk.
  rewrite on_receive_loop_step;
    [|done|by intros ->; simpl in Hlen; lia].
  rewrite on_receive_iter_parse by (by rewrite check_control_char_starts).
  rewrite HP. cbn [mbind option_bind].
  destruct (Nat.eqb_spec (length chunk) 0) as [?|_]; [lia|]. cbn [negb].
  unfold Alp.consume_rx_buffer.
  change (Alp.rx_buffer s0) with chunk. rewrite drop_all.
  cbn [mbind option_bind].
  rewrite on_receive_loop_stop by (by right). cbn [mbind option_bind].
  eexists. split; [reflexivity|].
  set (s1 := Alp.send_nak (Alp.set_rx_buffer [] s0)).
  assert (Hs1 : s1.(Alp.written) = s.(Alp.written) ++ [(Alp.NAK, true)]
                /\ s1.(Alp.rx_buffer) = []
                /\ s1.(Alp.upstream) = s.(Alp.upstream)
                /\ s1.(Alp.latest_uplink_event_time) = s.(Alp.latest_uplink_event_time)).
  { unfold s1, Alp.send_nak.
    rewrite transmit_control_char_written, transmit_control_char_rx_buffer.
    unfold Alp.transmit_control_char, Alp.time_time.
    by destruct (negb _). }
  clearbody s1. destruct Hs1 as (R1 & R2 & R3 & R4).
  destruct (on_receive_end_frame s1 [] false) as (-> & -> & ->).
  destruct (on_receive_end_session s1 false) as (-> & -> & _).
  destruct (on_receive_end_quiet s1 []) as (-> & _).
  destruct (on_receive_end_invalid s1 []) as (-> & _).
  done.
Qed.

Lemma receive_rejected_nacked_witness :
  exists s',
    Alp.receive demo_SNAPMsg_Parse (<[8 := 0x36%Z]> (wire [0x41%Z])) demo_sent
    = Some s'
    /\ s'.(Alp.written) = demo_sent.(Alp.written) ++ [(Alp.NAK, true)]
    /\ s'.(Alp.session_state) = Alp.SESSION_FINISHED
    /\ s'.(Alp.downlink_buffer) = [].
Proof.
  destruct (receive_rejected_nacked demo_SNAPMsg_Parse
              (<[8 := 0x36%Z]> (wire [0x41%Z])) demo_sent)
    as (s' & Hr & Hw & _ & _ & _ & Hst & Hdl & _).
  - vm_compute. reflexivity.
  - vm_compute. reflexivity.
  - vm_compute. reflexivity.
  - exists s'. split; [exact Hr|]. split; [exact Hw|]. split; [exact Hst|exact Hdl].
Defined.

(** ** A downlink and its acknowledgement *)

Lemma on_receive_end_written s data valid :
  (Alp.on_receive_end s data valid).(Alp.port) = s.(Alp.port)
  /\ (Alp.on_receive_end s data valid).(Alp.clock) = s.(Alp.clock).
Proof. unfold Alp.on_receive_end, Alp.time_time. cbv zeta. by_cases. Qed.

(** X22. An acknowledged downlink is not sent again.  On an open port
    with an empty receive buffer, [transmit] followed by the reception of
    the single byte ACK leaves the written frame as the only thing
    written, the session FINISHED, the downlink slot empty and the
    retransmit count 0; the ACK counts as a valid uplink: the uplink
    timestamp is the clock reading taken on reception.  The next timer
    tick then writes nothing, unless the uplink has been silent for
    19.5 s, and leaves the session IDLE. *)
Theorem acked_downlink_not_retransmitted (SNAPMsg_write : SNAPMsg -> list Z)
    (SNAPMsg_Parse : list Z -> SNAPMsg) (msg : SNAPMsg) (s : Alp.AlpPort) :
  s.(Alp.port) = true -> s.(Alp.rx_buffer) = [] ->
  exists frame s1 s2,
    AlpFrame.Write (SNAPMsg_write msg) = Some frame
    /\ Alp.transmit SNAPMsg_write msg s = Some s1
    /\ Alp.receive SNAPMsg_Parse Alp.ACK s1 = Some s2
    /\ s2.(Alp.written) = s.(Alp.written) ++ [(frame, false)]
    /\ s2.(Alp.session_state) = Alp.SESSION_FINISHED
    /\ s2.(Alp.downlink_buffer) = []
    /\ s2.(Alp.downlink_retransmit_count) = 0%Z
    /\ s2.(Alp.rx_buffer) = []
    /\ s2.(Alp.latest_uplink_event_time) = s.(Alp.clock) (S (s.(Alp.clock_reads)))
    /\ (enq_due s2 = false ->
        (tick s2).(Alp.written) = s2.(Alp.written)
        /\ (tick s2).(Alp.session_state) = Alp.SESSION_IDLE).
Proof.
  intros Hport Hrx.
  assert (Ht : exists s1,
            Alp.transmit SNAPMsg_write msg s = Some s1
            /\ s1.(Alp.port) = true /\ s1.(Alp.rx_buffer) = []
            /\ s1.(Alp.written)
               = s.(Alp.written) ++ [(wire (SNAPMsg_write msg), false)]
            /\ s1.(Alp.clock) = s.(Alp.clock)
            /\ s1.(Alp.clock_reads) = S (s.(Alp.clock_reads))).
  { unfold Alp.transmit, Alp.time_time. rewrite Hport, Write_spec.
    cbn [negb mbind option_bind]. eexists. split; [reflexivity|].
    by destruct (negb _). }
  destruct Ht as (s1 & Ht & Q1 & Q2 & Q3 & Q4 & Q5).
  set (sf := Alp.set_rx_buffer []
               (Alp.session_finish (Alp.set_rx_buffer Alp.ACK s1))).
  assert (Hrecv : Alp.receive SNAPMsg_Parse Alp.ACK s1
                  = Some (Alp.on_receive_end sf [] true)).
  { unfold Alp.receive. cbv zeta. rewrite Q2. cbn [app].
    set (s0 := Alp.set_rx_buffer Alp.ACK s1).
    change (Alp.rx_buffer s0) with Alp.ACK. unfold Alp.on_receive.
    change (Alp.rx_buffer s0) with Alp.ACK.
    rewrite on_receive_loop_step by done.
    erewrite on_receive_iter_control
      by (unfold Alp.ACK; rewrite check_control_char_cases; reflexivity).
    cbn [mbind option_bind].
    rewrite session_finish_rx_buffer.
    change (Alp.rx_buffer s0) with Alp.ACK. cbn [drop Alp.ACK].
    rewrite on_receive_loop_stop by (by right). done. }
  exists (wire (SNAPMsg_write msg)), s1, (Alp.on_receive_end sf [] true).
  split; [apply Write_spec|]. split; [exact Ht|]. split; [exact Hrecv|].
  assert (Hsf : sf.(Alp.written) = s1.(Alp.written)
                /\ sf.(Alp.clock) = s1.(Alp.clock)
                /\ sf.(Alp.clock_reads) = s1.(Alp.clock_reads)
                /\ sf.(Alp.port) = s1.(Alp.port)
                /\ sf.(Alp.rx_buffer) = []) by done.
  clearbody sf. destruct Hsf as (S1 & S2 & S3 & S4 & S5).
  destruct (on_receive_end_frame sf [] true) as (E1 & E2 & E3).
  destruct (on_receive_end_session sf true) as (E4 & E5 & _).
  destruct (on_receive_end_uplink sf []) as (E6 & _).
  destruct (on_receive_end_written sf [] true) as (E7 & _).
  set (s2 := Alp.on_receive_end sf [] true) in *. clearbody s2.
  cbn [length Nat.eqb] in E1.
  rewrite E2, S1, Q3, E1, E3, S5, E4, E5, E6, S2, S3, Q4, Q5.
  repeat (split; [done|]).
  intros Hdue.
  rewrite tick_idle;
    [|by rewrite E7, S4|unfold Alp.session_is_active; by rewrite E1].
  rewrite Hdue. state_simpl. by rewrite E2, S1, Q3.
Qed.

Lemma acked_downlink_not_retransmitted_witness :
  exists frame s1 s2,
    AlpFrame.Write (demo_SNAPMsg_write demo_msg) = Some frame
    /\ Alp.transmit demo_SNAPMsg_write demo_msg demo_port = Some s1
    /\ Alp.receive demo_SNAPMsg_Parse Alp.ACK s1 = Some s2
    /\ s2.(Alp.written) = demo_port.(Alp.written) ++ [(frame, false)]
    /\ s2.(Alp.session_state) = Alp.SESSION_FINISHED.
Proof.
  destruct (acked_downlink_not_retransmitted demo_SNAPMsg_write
              demo_SNAPMsg_Parse demo_msg demo_port)
    as (frame & s1 & s2 & HW & Ht & Hr & Hw & Hst & _).
  - vm_compute. reflexivity.
  - vm_compute. reflexivity.
  - exists frame, s1, s2.
    split; [exact HW|]. split; [exact Ht|]. split; [exact Hr|].
    split; [exact Hw|exact Hst].
Defined.

(** ** A closed port *)

(** X23. A port that is not open does nothing on its own.  The timer
    callback returns [False], which takes it off the timer source, and
    only deregisters the timer; any number of ticks and any [transmit]
    leave everything else as it was: nothing is written, nothing goes
    upstream, the clock is not read, session and counters stay. *)
Theorem closed_port_inert (SNAPMsg_write : SNAPMsg -> list Z) (msg : SNAPMsg)
    (s : Alp.AlpPort) (n : nat) :
  s.(Alp.port) = false ->
  Alp.session_diagnostics s = (false, Alp.set_diag_timer false s)
  /\ Alp.transmit SNAPMsg_write msg s = Some s
  /\ (0 < n -> ticks n s = Alp.set_diag_timer false s)
  /\ (ticks n s).(Alp.written) = s.(Alp.written)
  /\ (ticks n s).(Alp.upstream) = s.(Alp.upstream)
  /\ (ticks n s).(Alp.clock_reads) = s.(Alp.clock_reads)
  /\ (ticks n s).(Alp.session_state) = s.(Alp.session_state)
  /\ (ticks n s).(Alp.message_counter) = s.(Alp.message_counter).
Proof.
  intros Hport.
  assert (Hsd : forall x, x.(Alp.port) = false ->
            Alp.session_diagnostics x = (false, Alp.set_diag_timer false x)).
  { intros x Hx. unfold Alp.session_diagnostics. by rewrite Hx. }
  assert (Hticks : forall k x, x.(Alp.port) = false ->
            ticks (S k) x = Alp.set_diag_timer false x).
  { induction k as [|k IH]; intros x Hx.
    - cbn [ticks]. unfold tick. by rewrite Hsd.
    - rewrite ticks_succ. unfold tick at 1. rewrite Hsd by done. cbn [snd].
      rewrite IH by done. done. }
  split; [by apply Hsd|].
  split; [unfold Alp.transmit; by rewrite Hport|].
  split; [intros Hn; destruct n; [lia|by apply Hticks]|].
  destruct n as [|n]; [done|]. by rewrite Hticks.
Qed.

Lemma closed_port_inert_witness :
  Alp.transmit demo_SNAPMsg_write demo_msg (Alp.init demo_clock false "hhl")
  = Some (Alp.init demo_clock false "hhl")
  /\ (ticks 3 (Alp.init demo_clock false "hhl")).(Alp.written) = [].
Proof.
  destruct (closed_port_inert demo_SNAPMsg_write demo_msg
              (Alp.init demo_clock false "hhl") 3) as (_ & Ht & _ & Hw & _).
  - reflexivity.
  - split; [exact Ht|exact Hw].
Defined.

(** * Further properties of the codec: the shape of a frame *)

Lemma Encode_nibbles b : Forall is_nibble (AlpFrame.Encode b).
Proof.
  rewrite <- Encode_mask.
  destruct (Encode_Decode _ (land_255_byte b)) as (h & l & -> & Hh & Hl & _).
  constructor; [done|]. constructor; [done|constructor].
Qed.

Lemma flat_Encode_nibbles p : Forall is_nibble (flat_map AlpFrame.Encode p).
Proof.
  induction p as [|d p IH]; [constructor|].
  cbn [flat_map]. apply Forall_app. split; [apply Encode_nibbles|done].
Qed.

Lemma lookup_unique_middle (l : list Z) x k i :
  Forall (fun y => y <> x) l -> Forall (fun y => y <> x) k ->
  (l ++ x :: k) !! i = Some x <-> i = length l.
Proof.
  intros Hl Hk. split.
  - intros Hi. destruct (lt_eq_lt_dec i (length l)) as [[Hlt|Heq]|Hgt]; [|done|].
    + rewrite lookup_app_l in Hi by done.
      by destruct (proj1 (Forall_lookup _ _) Hl i x Hi).
    + rewrite lookup_app_r in Hi by lia.
      destruct (i - length l) as [|j] eqn:E; [lia|].
      cbn [lookup list_lookup] in Hi.
      by destruct (proj1 (Forall_lookup _ _) Hk j x Hi).
  - intros ->. apply lookup_at_length.
Qed.

(** X24. The shape of a written frame, for any payload: [Write] never
    raises; the frame is 9 bytes longer than twice the payload; every
    byte of it is an octet; it starts with the header SOH 'A' '2' STX;
    SOH occurs only as its first byte, so no frame can seem to start
    inside a frame; and ETX occurs only at offset [4 + 2 * len], so the
    end of the data field cannot be mistaken. *)
Theorem Write_frame_shape (p : list Z) :
  exists frame,
    AlpFrame.Write p = Some frame
    /\ length frame = 9 + 2 * length p
    /\ is_bytes frame
    /\ take 4 frame = header
    /\ no_SOH (drop 1 frame)
    /\ (forall i, frame !! i = Some AlpFrame.ETX <-> i = 4 + 2 * length p).
Proof.
  exists (wire p). split; [apply Write_spec|].
  split; [rewrite length_wire; lia|].
  pose proof (flat_Encode_nibbles p) as Hp.
  pose proof (Encode_nibbles (Z.land (sum_enc p 0) 255)) as Hcs.
  pose proof (Encode_nibbles (xor_enc p 0)) as Hcp.
  assert (Hnib : forall (P : Z -> Prop) l,
            (forall c, is_nibble c -> P c) -> Forall is_nibble l -> Forall P l).
  { intros P l HP Hl. eapply Forall_impl; [exact Hl|exact HP]. }
  unfold wire. split; [|split; [done|split]].
  - unfold is_bytes, header. rewrite !Forall_app, !Forall_cons.
    unfold is_byte, AlpFrame.SOH, AlpFrame.PI1, AlpFrame.PI2, AlpFrame.STX,
      AlpFrame.ETX.
    split; [repeat (split; [lia|]); apply Forall_nil_2|].
    split; [apply Hnib; [apply nibble_is_byte|done]|].
    split; [split; [lia|apply Forall_nil_2]|].
    split; apply Hnib; try done; apply nibble_is_byte.
  - unfold no_SOH, header. cbn [app drop]. rewrite !Forall_cons, !Forall_app.
    assert (Hn : forall c, is_nibble c -> c <> AlpFrame.SOH)
      by (unfold is_nibble, AlpFrame.SOH; intros; lia).
    split; [done|]. split; [done|]. split; [done|].
    split; [by apply Hnib|].
    rewrite Forall_cons, Forall_app. split; [done|].
    split; by apply Hnib.
  - intros i.
    assert (Hn : forall c, is_nibble c -> c <> AlpFrame.ETX)
      by (unfold is_nibble, AlpFrame.ETX; intros; lia).
    replace (header ++ flat_map AlpFrame.Encode p ++ [AlpFrame.ETX]
               ++ AlpFrame.Encode (Z.land (sum_enc p 0) 255)
               ++ AlpFrame.Encode (xor_enc p 0))
      with ((header ++ flat_map AlpFrame.Encode p)
              ++ AlpFrame.ETX :: (AlpFrame.Encode (Z.land (sum_enc p 0) 255)
                                    ++ AlpFrame.Encode (xor_enc p 0)))
      by (by rewrite <- !app_assoc).
    rewrite lookup_unique_middle.
    + rewrite length_app, length_flat_Encode. done.
    + apply Forall_app. split; [|by apply Hnib].
      unfold header. rewrite !Forall_cons. repeat (split; [done|]).
      apply Forall_nil_2.
    + apply Forall_app. split; by apply Hnib.
Qed.
